(** * xhebrew background worker: translation cache and batch coalescing

    A shallow embedding of the background service worker of the xhebrew
    extension (the worker script that owns [_inMemoryCache],
    [_persistentCache] and [pendingRequests]) and the properties of its
    cache, batching and provider-response code, followed by its
    listeners, the earlier unbatched worker, the cache and key code of the
    options page and the text mappings of the content script.

    Conventions of the embedding.
    - Every handler of the worker (a message, a timer callback) is run to
      completion: the state is passed explicitly and the suspension points
      inside a handler are not interleaved with other handlers, except for
      the persistence write, which is split at its storage call.
    - [Date.now()] is an argument of the handlers that read it.
    - The provider is an argument [fetch] from the request to the response;
      it always answers (the worker sets no timeout on the call).
    - In the properties of the cache and of the batching a changed setting
      is a different state and a changed blob a call of
      [loadSettingsAndCache]; the [storage.onChanged] listener itself is
      embedded with the other listeners.
    - JSON numbers and timestamps are integers ([Z]); a character of a
      string stands for one code unit.
    - A JavaScript [Map] is an association list in insertion order; a plain
      object used as a dictionary is a [gmap] (its enumeration order is not
      tracked); a [Set] is a [gset]. *)

From Stdlib Require Import ZArith Lia DecimalString Ascii.
From stdpp Require Import base option strings list gmap.

Set Warnings "-register-all".
Local Open Scope Z_scope.

(** ** JavaScript values, as far as the worker inspects them *)

Module JS.

(** What [resp.json()] can produce, plus [undefined]. *)
Inductive jsval : Type :=
| JUndefined
| JNull
| JBool (b : bool)
| JNum (n : Z)
| JStr (s : string)
| JArr (xs : list jsval)
| JObj (fields : list (string * jsval)).

(** The empty string, the fallback value of the worker. *)
Definition empty : jsval := JStr "".

(** ToBoolean. *)
Definition truthy (x : jsval) : bool :=
  match x with
  | JUndefined | JNull => false
  | JBool b => b
  | JNum n => negb (n =? 0)
  | JStr s => negb (String.eqb s "")
  | JArr _ | JObj _ => true
  end.

Definition is_undefined (x : jsval) : bool :=
  match x with JUndefined => true | _ => false end.

(** [Array.isArray]. *)
Definition isArray (x : jsval) : bool :=
  match x with JArr _ => true | _ => false end.

(** Own property of a parsed object. *)
Fixpoint field (name : string) (fs : list (string * jsval)) : option jsval :=
  match fs with
  | [] => None
  | (k, x) :: fs' => if String.eqb k name then Some x else field name fs'
  end.

(** [x.name] for a name that no prototype defines ([data],
    [translations], [translatedText]). [None] is a TypeError. *)
Definition get_prop (name : string) (x : jsval) : option jsval :=
  match x with
  | JUndefined | JNull => None
  | JObj fs => Some (default JUndefined (field name fs))
  | _ => Some JUndefined
  end.

(** [x[0]]. [None] is a TypeError. *)
Definition get_index0 (x : jsval) : option jsval :=
  match x with
  | JUndefined | JNull => None
  | JStr (String c _) => Some (JStr (String c ""))
  | JArr (y :: _) => Some y
  | JObj fs => Some (default JUndefined (field "0" fs))
  | _ => Some JUndefined
  end.

Definition decimal (n : Z) : string := NilZero.string_of_int (Z.to_int n).

Section join.
Variable str : jsval -> option string.

(** An element of [Array.prototype.join]: [null] and [undefined] give
    the empty string. *)
Definition join_elem (x : jsval) : option string :=
  match x with
  | JUndefined | JNull => Some ""%string
  | _ => str x
  end.

Fixpoint join_with (sep : string) (xs : list jsval) : option string :=
  match xs with
  | [] => Some ""%string
  | [x] => join_elem x
  | x :: xs' =>
      s ← join_elem x; r ← join_with sep xs'; Some (s +:+ sep +:+ r)
  end.
End join.

(** ToString. [None] is a TypeError: a parsed object whose own
    [toString] hides the inherited method cannot be converted. *)
Fixpoint to_string (x : jsval) : option string :=
  match x with
  | JUndefined => Some "undefined"%string
  | JNull => Some "null"%string
  | JBool true => Some "true"%string
  | JBool false => Some "false"%string
  | JNum n => Some (decimal n)
  | JStr s => Some s
  | JArr xs => join_with to_string "," xs
  | JObj fs =>
      match field "toString" fs with
      | Some _ => None
      | None => Some "[object Object]"%string
      end
  end.

(** [xs.join(sep)]. *)
Definition join (sep : string) (xs : list jsval) : option string :=
  join_with to_string sep xs.

(** [x.map(f)]: a TypeError unless [x] is an array, or when [f] throws. *)
Definition array_map (f : jsval -> option jsval) (x : jsval)
  : option (list jsval) :=
  match x with
  | JArr xs => mapM f xs
  | _ => None
  end.

End JS.
Import JS.

(** ** JavaScript [Map]: association list in insertion order *)

Module JSMap.
Section ops.
Context {V : Type}.

Fixpoint get (k : string) (m : list (string * V)) : option V :=
  match m with
  | [] => None
  | (k', x) :: m' => if decide (k' = k) then Some x else get k m'
  end.

Definition has (k : string) (m : list (string * V)) : bool :=
  match get k m with Some _ => true | None => false end.

(** [m.set(k, x)]: an existing key keeps its place. *)
Fixpoint set (k : string) (x : V) (m : list (string * V))
  : list (string * V) :=
  match m with
  | [] => [(k, x)]
  | (k', y) :: m' =>
      if decide (k' = k) then (k, x) :: m' else (k', y) :: set k x m'
  end.
End ops.
End JSMap.

(** ** The provider adapter (the network step of [flushPendingRequests]) *)

(** What one outbound call carries. The URL is not built: [req_cloud]
    selects the endpoint, [req_q] are the repeated [q] parameters. *)
Record request := Request {
  req_cloud : bool;
  req_key : string;
  req_target : string;
  req_q : list string
}.

(** What [fetch] does: it throws, or gives a response with its [ok] flag
    and its body ([None] when [resp.json()] throws). *)
Inductive response : Type :=
| NetworkError
| Response (ok : bool) (body : option jsval).

(** [data.data.translations.map(t => t.translatedText || '')] under its
    guards. [None] is an exception thrown inside the [try]. *)
Definition cloud_results (data : jsval) : option (list jsval) :=
  if truthy data then
    d ← get_prop "data" data;
    if truthy d then
      tr ← get_prop "translations" d;
      if isArray tr then
        array_map (λ t, x ← get_prop "translatedText" t;
                        Some (if truthy x then x else JS.empty)) tr
      else Some []
    else Some []
  else Some [].

(** [segArr.map(p => p[0]).join('')]. *)
Definition join_segments (segArr : jsval) : option jsval :=
  ps ← array_map get_index0 segArr; s ← join "" ps; Some (JStr s).

(** The public endpoint, [n] texts sent. *)
Definition public_results (n : nat) (data : jsval) : option (list jsval) :=
  match data with
  | JArr (JArr d0 :: _) =>
      if isArray (default JUndefined (head d0)) && bool_decide (length d0 = n)
      then mapM join_segments d0
      else r ← join_segments (JArr d0); Some [r]
  | _ => Some []
  end.

(** [results] after the [try] block of one group. *)
Definition parse_response (cloud : bool) (n : nat) (resp : response)
  : list jsval :=
  match resp with
  | Response true (Some data) =>
      default [] (if cloud then cloud_results data else public_results n data)
  | _ => []
  end.

(** ** The worker's state *)

(** A durable-tier entry [{ v, t }]. *)
Module Entry.
Record entry := mk { v : jsval; t : Z }.
End Entry.
Abbreviation entry := Entry.entry.

(** A value of [pendingRequests]: [{ text, target, resolvers }]. A resolver
    is named by the number of the caller whose promise it settles. *)
Module Pending.
Record pending := mk {
  text : string;
  target : string;
  resolvers : list nat
}.
End Pending.
Abbreviation pending := Pending.pending.

(** An element of a [byTarget] group: [{ key, text, resolvers }]. *)
Module Item.
Record item := mk {
  key : string;
  text : string;
  resolvers : list nat
}.
End Item.
Abbreviation item := Item.item.

(** The module-level variables of the worker. A timer variable is [true]
    while its timer is armed. *)
Record state := State {
  _inMemoryCache : list (string * jsval);
  _persistentCache : gmap string entry;
  _saveTimer : bool;
  MAX_PERSIST_ENTRIES : Z;
  CACHE_TTL_DAYS : Z;
  USE_CLOUD : bool;
  GOOGLE_API_KEY : string;
  pendingRequests : list (string * pending);
  pendingFlushTimer : bool
}.

Definition initial : state :=
  State [] ∅ false 1000 30 false "" [] false.

Definition with_inMemoryCache (m : list (string * jsval)) (st : state) :=
  State m (_persistentCache st) (_saveTimer st) (MAX_PERSIST_ENTRIES st)
    (CACHE_TTL_DAYS st) (USE_CLOUD st) (GOOGLE_API_KEY st)
    (pendingRequests st) (pendingFlushTimer st).

Definition with_persistentCache (p : gmap string entry) (st : state) :=
  State (_inMemoryCache st) p (_saveTimer st) (MAX_PERSIST_ENTRIES st)
    (CACHE_TTL_DAYS st) (USE_CLOUD st) (GOOGLE_API_KEY st)
    (pendingRequests st) (pendingFlushTimer st).

Definition with_saveTimer (b : bool) (st : state) :=
  State (_inMemoryCache st) (_persistentCache st) b (MAX_PERSIST_ENTRIES st)
    (CACHE_TTL_DAYS st) (USE_CLOUD st) (GOOGLE_API_KEY st)
    (pendingRequests st) (pendingFlushTimer st).

Definition with_pendingRequests (p : list (string * pending)) (st : state) :=
  State (_inMemoryCache st) (_persistentCache st) (_saveTimer st)
    (MAX_PERSIST_ENTRIES st) (CACHE_TTL_DAYS st) (USE_CLOUD st)
    (GOOGLE_API_KEY st) p (pendingFlushTimer st).

Definition with_pendingFlushTimer (b : bool) (st : state) :=
  State (_inMemoryCache st) (_persistentCache st) (_saveTimer st)
    (MAX_PERSIST_ENTRIES st) (CACHE_TTL_DAYS st) (USE_CLOUD st)
    (GOOGLE_API_KEY st) (pendingRequests st) b.

(** ** Loading: [loadSettingsAndCache] *)

(** A value of the stored [translationCache] object: a legacy plain
    string, an object with its [v] ([JUndefined] when absent) and its
    numeric [t] ([None] when absent), or anything else. *)
Inductive raw_entry : Type :=
| RawString (s : string)
| RawObject (v : jsval) (t : option Z)
| RawOther.

(** What [browser.storage.local.get] returns. *)
Record storage := Storage {
  translationCache : option (gmap string raw_entry);
  cacheMaxEntries : option Z;
  cacheTTLDays : option Z;
  useCloudTranslate : bool;
  googleApiKey : string
}.

(** [t || now]. *)
Definition or_now (t now : Z) : Z := if t =? 0 then now else t.

(** The [value] and [ts] the loading loop reads from a stored value, or
    [None] when it skips the value. *)
Definition raw_value (now : Z) (e : raw_entry) : option (jsval * Z) :=
  match e with
  | RawString s => if String.eqb s "" then None else Some (JStr s, now)
  | RawObject v t =>
      if truthy v then Some (v, or_now (default 0 t) now) else None
  | RawOther => None
  end.

(** One round of the loading loop: the entry to keep, or [None] for
    [continue]. *)
Definition load_entry (ttl now : Z) (e : raw_entry) : option entry :=
  match raw_value now e with
  | None => None
  | Some (value, ts) =>
      if 0 <? ttl then
        let age := now - ts in
        if ttl * 24 * 60 * 60 * 1000 <? age then None
        else Some (Entry.mk value ts)
      else Some (Entry.mk value ts)
  end.

Definition load_step (ttl now : Z)
    (acc : gmap string entry * list (string * jsval))
    (kv : string * raw_entry) : gmap string entry * list (string * jsval) :=
  match load_entry ttl now kv.2 with
  | Some e => (<[kv.1 := e]> acc.1, JSMap.set kv.1 (Entry.v e) acc.2)
  | None => acc
  end.

(** [res] is [None] when the storage read throws. *)
Definition loadSettingsAndCache (res : option storage) (now : Z) (st : state)
  : state :=
  match res with
  | None => with_persistentCache ∅ (with_inMemoryCache [] st)
  | Some r =>
      let max := default (MAX_PERSIST_ENTRIES st) (cacheMaxEntries r) in
      let ttl := default (CACHE_TTL_DAYS st) (cacheTTLDays r) in
      let raw := default ∅ (translationCache r) in
      let acc := foldl (load_step ttl now) (∅, []) (map_to_list raw) in
      State acc.2 acc.1 (_saveTimer st) max ttl (useCloudTranslate r)
        (googleApiKey r) (pendingRequests st) (pendingFlushTimer st)
  end.

(** ** Persistence: [scheduleSavePersistentCache] *)

Definition scheduleSavePersistentCache (st : state) : state :=
  if _saveTimer st then st else with_saveTimer true st.

(** The loop over [_inMemoryCache.entries()] that fills [obj]. *)
Fixpoint save_loop (max now : Z) (entries : list (string * jsval))
    (obj : gmap string entry) (count : Z) : gmap string entry :=
  match entries with
  | [] => obj
  | (k, val) :: rest =>
      if max <=? count then obj
      else if truthy val
           then save_loop max now rest (<[k := Entry.mk val now]> obj) (count + 1)
           else save_loop max now rest obj count
  end.

(** The timer callback up to its storage call: the timer variable is
    cleared and [obj] is built. *)
Definition save_begin (now : Z) (st : state) : state * gmap string entry :=
  (with_saveTimer false st,
   save_loop (MAX_PERSIST_ENTRIES st) now (_inMemoryCache st) ∅ 0).

(** The rest of the callback: [ok] tells whether [storage.local.set]
    succeeded; on failure the assignment of the mirror is skipped. *)
Definition save_end (ok : bool) (obj : gmap string entry) (st : state)
  : state :=
  if ok then with_persistentCache obj st else st.

(** The whole callback, with the blob handed to the storage when the
    write succeeded. *)
Definition savePersistentCache (now : Z) (ok : bool) (st : state)
  : state * option (gmap string entry) :=
  let '(st1, obj) := save_begin now st in
  (save_end ok obj st1, if ok then Some obj else None).

(** What the storage holds for an entry of a blob the worker wrote. *)
Definition to_raw (e : entry) : raw_entry :=
  RawObject (Entry.v e) (Some (Entry.t e)).

(** ** The two cache writes of the request path *)

(** [_inMemoryCache.set(key, Promise.resolve(v))] for the value [v] found
    in the mirror. *)
Definition promote (key : string) (v : jsval) (st : state) : state :=
  with_inMemoryCache (JSMap.set key v (_inMemoryCache st)) st.

(** [_inMemoryCache.set(key, Promise.resolve(translated))] followed by
    [_persistentCache[key] = { v: translated, t: now }]. *)
Definition store (now : Z) (key : string) (translated : jsval) (st : state)
  : state :=
  with_persistentCache
    (<[key := Entry.mk translated now]> (_persistentCache st))
    (with_inMemoryCache (JSMap.set key translated (_inMemoryCache st)) st).

(** ** Requests: [doTranslate] and [queueTranslationRequest] *)

Definition cache_key (cloud : bool) (text target : string) : string :=
  (if cloud then "cloud|" else "public|") +:+ text +:+ "||" +:+ target.

Definition schedulePendingFlush (st : state) : state :=
  if pendingFlushTimer st then st else with_pendingFlushTimer true st.

(** [resolve] is the caller whose promise the new resolver settles. *)
Definition queueTranslationRequest (resolve : nat) (key text target : string)
    (st : state) : state :=
  let p := pendingRequests st in
  let p' :=
    match JSMap.get key p with
    | Some e =>
        JSMap.set key
          (Pending.mk (Pending.text e) (Pending.target e)
             (Pending.resolvers e ++ [resolve])) p
    | None => JSMap.set key (Pending.mk text target [resolve]) p
    end in
  schedulePendingFlush (with_pendingRequests p' st).

(** What the caller of [doTranslate] holds: a value, or a promise that
    its resolver settles later. *)
Inductive outcome : Type :=
| Returned (x : jsval)
| Queued.

Definition doTranslate (resolve : nat) (text target : string) (st : state)
  : state * outcome :=
  if String.eqb text "" || String.eqb target "" then (st, Returned JS.empty)
  else
    let key := cache_key (USE_CLOUD st) text target in
    if JSMap.has key (_inMemoryCache st)
    then (st, Returned (default JUndefined (JSMap.get key (_inMemoryCache st))))
    else
      match _persistentCache st !! key with
      | Some e =>
          if truthy (Entry.v e)
          then (promote key (Entry.v e) st, Returned (Entry.v e))
          else (queueTranslationRequest resolve key text target st, Queued)
      | None => (queueTranslationRequest resolve key text target st, Queued)
      end.

(** ** Batching: [flushPendingRequests] *)

(** The argument a resolver is called with. *)
Definition event : Type := nat * jsval.

(** Grouping by target: one round of the loop over
    [pendingRequests.entries()]. *)
Definition byTarget_add (byTarget : list (string * list item))
    (kv : string * pending) : list (string * list item) :=
  let '(key, entry) := kv in
  let t := if String.eqb (Pending.target entry) "" then "en"%string
           else Pending.target entry in
  let byTarget :=
    if JSMap.has t byTarget then byTarget else JSMap.set t [] byTarget in
  JSMap.set t
    (default [] (JSMap.get t byTarget)
       ++ [Item.mk key (Pending.text entry) (Pending.resolvers entry)])
    byTarget.

Definition group_by_target (p : list (string * pending))
  : list (string * list item) :=
  foldl byTarget_add [] p.

(** [unique]: the items whose key was not seen before. *)
Fixpoint dedupe (seen : gset string) (items : list item) : list item :=
  match items with
  | [] => []
  | it :: rest =>
      if decide (Item.key it ∈ seen) then dedupe seen rest
      else it :: dedupe ({[Item.key it]} ∪ seen) rest
  end.

(** The second cache check: the state after the promotions, [toTranslate]
    and [translateIndex]. *)
Fixpoint recheck (unique : list item) (st : state)
  : state * list string * list string :=
  match unique with
  | [] => (st, [], [])
  | it :: rest =>
      let key := Item.key it in
      if JSMap.has key (_inMemoryCache st) then recheck rest st
      else
        match _persistentCache st !! key with
        | Some (Entry.mk v _) =>
            if truthy v
            then recheck rest (promote key v st)
            else let '(st', toTranslate, translateIndex) := recheck rest st in
                 (st', Item.text it :: toTranslate, key :: translateIndex)
        | None =>
            let '(st', toTranslate, translateIndex) := recheck rest st in
            (st', Item.text it :: toTranslate, key :: translateIndex)
        end
  end.

(** The outbound call of a group. *)
Definition build_request (st : state) (target : string)
    (toTranslate : list string) : request :=
  if USE_CLOUD st && negb (String.eqb (GOOGLE_API_KEY st) "")
  then Request true (GOOGLE_API_KEY st) target toTranslate
  else Request false "" target toTranslate.

(** [translateIndex.indexOf(key)]. *)
Fixpoint indexOf (key : string) (l : list string) : option nat :=
  match l with
  | [] => None
  | k :: l' => if decide (k = key) then Some 0%nat else S <$> indexOf key l'
  end.

(** [translated] as first assigned from [results]. *)
Definition from_results (results : list jsval) (translateIndex : list string)
    (key : string) : jsval :=
  match indexOf key translateIndex with
  | Some idx =>
      match results !! idx with
      | Some x => if is_undefined x then JS.empty else x
      | None => JS.empty
      end
  | None => JS.empty
  end.

(** One round of the resolution loop, for the element [u] of [unique]. *)
Definition resolve_one (now : Z) (results : list jsval)
    (translateIndex : list string) (items : list item) (u : item)
    (st : state) : state * list event :=
  let key := Item.key u in
  let translated := from_results results translateIndex key in
  let translated :=
    if negb (truthy translated) && JSMap.has key (_inMemoryCache st)
    then default JUndefined (JSMap.get key (_inMemoryCache st))
    else translated in
  let st := if truthy translated then store now key translated st else st in
  (st,
   items ≫= λ it, if decide (Item.key it = key)
                  then (λ r, (r, translated)) <$> Item.resolvers it
                  else []).

Fixpoint resolve_all (now : Z) (results : list jsval)
    (translateIndex : list string) (items unique : list item) (st : state)
  : state * list event :=
  match unique with
  | [] => (st, [])
  | u :: rest =>
      let '(st1, evs1) :=
        resolve_one now results translateIndex items u st in
      let '(st2, evs2) :=
        resolve_all now results translateIndex items rest st1 in
      (st2, evs1 ++ evs2)
  end.

(** The body of the loop over [byTarget.entries()]: the state, the
    resolver calls and the outbound call of the group, if any. The second
    cache check, the provider call and the resolution loop are run here as
    one step; [recheck] and [resolve_one] are the code before and after the
    awaited call, and a property that depends on the state in which the
    loop resumes is stated of them. *)
Definition flush_group (fetch : request -> response) (now : Z)
    (g : string * list item) (st : state)
  : state * list event * list request :=
  let '(target, items) := g in
  let unique := dedupe ∅ items in
  let '(st1, toTranslate, translateIndex) := recheck unique st in
  let req := build_request st1 target toTranslate in
  let results :=
    match toTranslate with
    | [] => []
    | _ => parse_response (req_cloud req) (length toTranslate) (fetch req)
    end in
  let '(st2, evs) :=
    resolve_all now results translateIndex items unique st1 in
  (scheduleSavePersistentCache st2, evs,
   match toTranslate with [] => [] | _ => [req] end).

Fixpoint flush_groups (fetch : request -> response) (now : Z)
    (groups : list (string * list item)) (st : state)
  : state * list event * list request :=
  match groups with
  | [] => (st, [], [])
  | g :: rest =>
      let '(st1, evs1, calls1) := flush_group fetch now g st in
      let '(st2, evs2, calls2) := flush_groups fetch now rest st1 in
      (st2, evs1 ++ evs2, calls1 ++ calls2)
  end.

Definition flushPendingRequests (fetch : request -> response) (now : Z)
    (st : state) : state * list event * list request :=
  match pendingRequests st with
  | [] => (st, [], [])
  | p => flush_groups fetch now (group_by_target p) (with_pendingRequests [] st)
  end.

(** The callback of the debounce timer. *)
Definition pendingFlushTimerFired (fetch : request -> response) (now : Z)
    (st : state) : state * list event * list request :=
  flushPendingRequests fetch now (with_pendingFlushTimer false st).

(** ** Cache control: the [clearCache] and [purgeExpired] messages *)

Definition clearCache (st : state) : state :=
  with_persistentCache ∅ (with_inMemoryCache [] st).

(** The loop over [Object.keys(_persistentCache)]. *)
Fixpoint purge_loop (ttl now : Z) (keys : list string)
    (cache : gmap string entry) (removed : nat) : gmap string entry * nat :=
  match keys with
  | [] => (cache, removed)
  | k :: keys' =>
      let ts :=
        match cache !! k with
        | Some entry => if Entry.t entry =? 0 then now else Entry.t entry
        | None => now
        end in
      let ttlMs := ttl * 24 * 60 * 60 * 1000 in
      if (0 <? ttl) && (ttlMs <? now - ts)
      then purge_loop ttl now keys' (delete k cache) (S removed)
      else purge_loop ttl now keys' cache removed
  end.

(** The handler: the state, whose mirror is the blob it persists, and the
    [removed] count of its reply. *)
Definition purgeExpired (now : Z) (st : state) : state * nat :=
  let '(cache, removed) :=
    purge_loop (CACHE_TTL_DAYS st) now (map_to_list (_persistentCache st)).*1
      (_persistentCache st) 0 in
  (with_persistentCache cache st, removed).

(** ** Bursts of requests *)

(** A burst: the [translate] messages handled, in order, before the
    debounce timer fires. Each carries the caller it answers to. *)
Definition burst (reqs : list (nat * string * string)) (st : state) : state :=
  foldl (λ s '(resolve, text, target), (doTranslate resolve text target s).1)
    st reqs.

(** The resolvers that wait in [pendingRequests]. *)
Definition registered (st : state) : list nat :=
  pendingRequests st ≫= λ kv, Pending.resolvers kv.2.

(** * Notions used by the properties *)

(** ** Expiry *)

(** The expiry predicate in the words of the specification. *)
Definition isExpired (ttlDays now timestamp : Z) : Prop :=
  ttlDays > 0 ∧ now - timestamp > ttlDays * 86400000.

Global Instance isExpired_dec ttlDays now timestamp :
  Decision (isExpired ttlDays now timestamp).
Proof. unfold isExpired. apply _. Defined.

(** The test of the purge loop on what it reads under a key. *)
Definition purge_test (ttl now : Z) (o : option entry) : bool :=
  let ts :=
    match o with
    | Some entry => if Entry.t entry =? 0 then now else Entry.t entry
    | None => now
    end in
  (0 <? ttl) && (ttl * 24 * 60 * 60 * 1000 <? now - ts).

(** ** The cache writes of a flush, as a step relation *)

(** [writes R K now st st']: [st'] comes from [st] by promotions of mirror
    entries with a non-empty value, by stores of non-empty values that
    satisfy [R] or are already in the fast tier under the key, and by
    arming the save timer; every key written satisfies [K]. *)
Inductive writes (R : jsval → Prop) (K : string → Prop) (now : Z) (st : state)
  : state → Prop :=
| writes_none : writes R K now st st
| writes_promote st' key e :
    writes R K now st st' → K key →
    _persistentCache st' !! key = Some e → truthy (Entry.v e) = true →
    JSMap.has key (_inMemoryCache st') = false →
    writes R K now st (promote key (Entry.v e) st')
| writes_store st' key x :
    writes R K now st st' → K key → truthy x = true →
    R x ∨ JSMap.get key (_inMemoryCache st') = Some x →
    writes R K now st (store now key x st')
| writes_arm st' :
    writes R K now st st' →
    writes R K now st (scheduleSavePersistentCache st').

(** A key with nothing to serve in either tier. *)
Definition uncached (key : string) (st : state) : Prop :=
  JSMap.has key (_inMemoryCache st) = false
  ∧ ∀ e, _persistentCache st !! key = Some e → truthy (Entry.v e) = false.

(** A value some outbound call of [calls] gave, as the adapter read it. *)
Definition provided (fetch : request → response) (calls : list request)
    (x : jsval) : Prop :=
  ∃ c, c ∈ calls
       ∧ x ∈ parse_response (req_cloud c) (length (req_q c)) (fetch c).

(** A value held by one of the two tiers. *)
Definition cached_value (st : state) (x : jsval) : Prop :=
  (∃ k, JSMap.get k (_inMemoryCache st) = Some x)
  ∨ (∃ k e, _persistentCache st !! k = Some e ∧ Entry.v e = x).

(** ** The parts of a group's flush, named *)

(** The pending item a group holds for a pending request. *)
Definition to_item (kv : string * pending) : item :=
  Item.mk kv.1 (Pending.text kv.2) (Pending.resolvers kv.2).

(** The group key of a pending request: [entry.target || 'en']. *)
Definition group_key (e : pending) : string :=
  if String.eqb (Pending.target e) "" then "en"%string else Pending.target e.

(** Appending an item to the group of its target, creating the group at
    the end when it is new. *)
Fixpoint group_push (t : string) (it : item) (g : list (string * list item))
  : list (string * list item) :=
  match g with
  | [] => [(t, [it])]
  | (t', its) :: g' =>
      if decide (t' = t) then (t', its ++ [it]) :: g'
      else (t', its) :: group_push t it g'
  end.

(** [translated] in the round of the resolution loop for the key [key]. *)
Definition translated_for (results : list jsval)
    (translateIndex : list string) (key : string) (st : state) : jsval :=
  let translated := from_results results translateIndex key in
  if negb (truthy translated) && JSMap.has key (_inMemoryCache st)
  then default JUndefined (JSMap.get key (_inMemoryCache st))
  else translated.

(** The results a group works with, and the call it makes. *)
Definition group_results (fetch : request → response) (st1 : state)
    (target : string) (toTranslate : list string) : list jsval :=
  match toTranslate with
  | [] => []
  | _ => let req := build_request st1 target toTranslate in
         parse_response (req_cloud req) (length toTranslate) (fetch req)
  end.

Definition group_calls (st1 : state) (target : string)
    (toTranslate : list string) : list request :=
  match toTranslate with
  | [] => []
  | _ => [build_request st1 target toTranslate]
  end.

(** ** The pending map during a burst *)

(** In a burst handled in mode [cloud], the keys of the pending map are
    distinct, each key is the key of the text and target stored under it,
    and no stored target is empty. *)
Definition wf_pending (cloud : bool) (p : list (string * pending)) : Prop :=
  NoDup p.*1
  ∧ ∀ k e, JSMap.get k p = Some e →
      k = cache_key cloud (Pending.text e) (Pending.target e)
      ∧ Pending.target e ≠ "".

(** What holds of the state during a burst that requests [text] for
    [target]: the mode is [cloud], the pending map is well formed, the key
    of the request is uncached, and what is pending under that key stands
    for that text and target. *)
Definition burst_inv (cloud : bool) (text target : string) (st : state)
  : Prop :=
  USE_CLOUD st = cloud
  ∧ wf_pending cloud (pendingRequests st)
  ∧ uncached (cache_key cloud text target) st
  ∧ ∀ e, JSMap.get (cache_key cloud text target) (pendingRequests st) = Some e →
      Pending.text e = text ∧ Pending.target e = target.

(** * Sample states, bursts and providers *)

(** A mirror with one entry stamped long ago, TTL switched off. *)
Definition ttl_off : state :=
  State [] {[ "public|a||en"%string := Entry.mk (JStr "b") 1 ]}
    false 1000 0 false "" [] false.

(** A stored blob with one entry stamped long ago and no settings. *)
Definition old_blob : storage :=
  Storage (Some {[ "public|a||en"%string := RawObject (JStr "b") (Some 1) ]})
    None None false "".

(** A stored blob with one entry stamped thirty-one days before the time
    [2678400001], with the given TTL setting. *)
Definition month_old (ttl : Z) : storage :=
  Storage (Some {[ "public|a||en"%string := RawObject (JStr "b") (Some 1) ]})
    None (Some ttl) false "".

(** A fast tier of three entries under a cap of two. *)
Definition over_cap : state :=
  State [("public|a||en"%string, JStr "x"); ("public|b||en"%string, JStr "y");
         ("public|c||en"%string, JStr "z")]
    ∅ true 2 30 false "" [] false.

(** A mirror entry stamped at time 1, its value also in the fast tier. *)
Definition stale_mirror : state :=
  State [("public|a||en"%string, JStr "b")]
    {[ "public|a||en"%string := Entry.mk (JStr "b") 1 ]}
    true 1000 30 false "" [] false.

(** The worker just loaded one translation stamped at time 1000, with a
    TTL of thirty days. *)
Definition loaded : state :=
  loadSettingsAndCache
    (Some (Storage
             (Some {[ "public|shalom||en"%string
                      := RawObject (JStr "hello") (Some 1000) ]})
             None (Some 30) false ""))
    1000 initial.

(** A [clearCache] message handled while the persistence write of
    [loaded] awaits the storage: the mirror is assigned after the clear. *)
Definition after_race : state :=
  let '(st1, obj) := save_begin 2000 loaded in
  save_end true obj (clearCache st1).

(** A public response of three one-segment arrays. *)
Definition three_segments : response :=
  Response true
    (Some (JArr [JArr [JArr [JStr "a"]; JArr [JStr "b"]; JArr [JStr "c"]]])).

(** A cloud response with one translation. *)
Definition one_translation : response :=
  Response true
    (Some (JObj [("data"%string,
                  JObj [("translations"%string,
                         JArr [JObj [("translatedText"%string,
                                      JStr "x")]])])])).

(** A provider whose every call throws. *)
Definition offline : request → response := λ _, NetworkError.

(** A public provider that answers every text [q] with the two segments
    [<] and [q], nested per input. *)
Definition echo_public : request → response := λ req,
  Response true
    (Some (JArr [JArr ((λ q, JArr [JArr [JStr "<"]; JArr [JStr q]])
                         <$> req_q req)])).

(** Two callers ask for the same text and target, a third for another
    text. *)
Definition shalom_twice : list (nat * string * string) :=
  [(1%nat, "shalom"%string, "en"%string);
   (2%nat, "shalom"%string, "en"%string);
   (3%nat, "toda"%string, "en"%string)].

(** Requests for two targets in one burst. *)
Definition two_targets : list (nat * string * string) :=
  [(1%nat, "A"%string, "en"%string); (2%nat, "B"%string, "fr"%string)].


(** * The listeners of the worker *)

(** ** Messages: the [runtime.onMessage] listener *)

(** A message with its [type], [text] and [target]; a field that is absent
    is the empty string. *)
Record message := Message {
  msg_type : string;
  msg_text : string;
  msg_target : string
}.

(** What a handler asks of the storage. *)
Inductive storage_op : Type :=
| RemoveCache
| SetCache (blob : gmap string entry).

(** What the sender of a message gets: nothing, the outcome of
    [doTranslate] as [{ translated }], [{ ok: true }], [{ removed }], or
    the rejection of the storage call. *)
Inductive reply : Type :=
| NoReply
| Translated (o : outcome)
| Cleared
| Removed (n : nat)
| Rejected.

(** [msg] is [None] for a falsy message; [ok] tells whether the storage
    call of the handler, if any, succeeds. *)
Definition onMessage (resolve : nat) (now : Z) (ok : bool)
    (msg : option message) (st : state)
  : state * reply * option storage_op :=
  match msg with
  | None => (st, NoReply, None)
  | Some m =>
      if String.eqb (msg_type m) "" then (st, NoReply, None)
      else if String.eqb (msg_type m) "translate" then
        let '(st', o) := doTranslate resolve (msg_text m) (msg_target m) st in
        (st', Translated o, None)
      else if String.eqb (msg_type m) "clearCache" then
        (clearCache st, if ok then Cleared else Rejected, Some RemoveCache)
      else if String.eqb (msg_type m) "purgeExpired" then
        let '(st', removed) := purgeExpired now st in
        (st', if ok then Removed removed else Rejected,
         Some (SetCache (_persistentCache st')))
      else (st, NoReply, None)
  end.

(** ** Storage changes: the [storage.onChanged] listener *)

(** The keys of [changes] the listener reads. A key that did not change is
    [None]; for the two numbers the inner option is the new value when it
    is a number; [ch_useCloudTranslate] is [!!newValue] and
    [ch_googleApiKey] is [newValue || '']. *)
Record changes := Changes {
  ch_translationCache : bool;
  ch_cacheMaxEntries : option (option Z);
  ch_cacheTTLDays : option (option Z);
  ch_useCloudTranslate : option bool;
  ch_googleApiKey : option string
}.

Definition with_settings (max ttl : Z) (cloud : bool) (key : string)
    (st : state) : state :=
  State (_inMemoryCache st) (_persistentCache st) (_saveTimer st) max ttl
    cloud key (pendingRequests st) (pendingFlushTimer st).

(** [res] and [now] are what the reload, if any, reads. *)
Definition onStorageChanged (area : string) (ch : changes)
    (res : option storage) (now : Z) (st : state) : state :=
  if negb (String.eqb area "local") then st
  else
    let max :=
      match ch_cacheMaxEntries ch with
      | Some (Some v) => v
      | _ => MAX_PERSIST_ENTRIES st
      end in
    let ttl :=
      match ch_cacheTTLDays ch with
      | Some (Some v) => v
      | _ => CACHE_TTL_DAYS st
      end in
    let cloud := default (USE_CLOUD st) (ch_useCloudTranslate ch) in
    let key := default (GOOGLE_API_KEY st) (ch_googleApiKey ch) in
    let st := with_settings max ttl cloud key st in
    if ch_translationCache ch then loadSettingsAndCache res now st else st.

(** ** The handlers of the worker, and the states they reach *)

Inductive handler : Type :=
| Startup (res : option storage) (now : Z)
| Msg (resolve : nat) (now : Z) (ok : bool) (msg : option message)
| StorageChanged (area : string) (ch : changes) (res : option storage)
    (now : Z)
| PendingFlushTimer (fetch : request → response) (now : Z)
| SaveTimer (now : Z) (ok : bool).

(** One handler run to completion. A timer that is not armed does not
    fire. *)
Definition handle (h : handler) (st : state) : state :=
  match h with
  | Startup res now => loadSettingsAndCache res now st
  | Msg resolve now ok msg => (onMessage resolve now ok msg st).1.1
  | StorageChanged area ch res now => onStorageChanged area ch res now st
  | PendingFlushTimer fetch now =>
      if pendingFlushTimer st then (pendingFlushTimerFired fetch now st).1.1
      else st
  | SaveTimer now ok =>
      if _saveTimer st then (savePersistentCache now ok st).1 else st
  end.

(** The states of the worker. Besides whole handlers, the second half of
    a persistence write may run at a later state [st] than the state [st0]
    at which its first half built the blob. *)
Inductive reachable : state → Prop :=
| reachable_initial : reachable initial
| reachable_handle h st : reachable st → reachable (handle h st)
| reachable_save_end st0 st now :
    reachable st0 → reachable st →
    reachable (save_end true (save_begin now st0).2 st).

(** The tiers are sound: the keys of the fast tier are distinct and every
    value of either tier is non-empty. *)
Definition sound_tiers (st : state) : Prop :=
  NoDup (_inMemoryCache st).*1
  ∧ (∀ k x, JSMap.get k (_inMemoryCache st) = Some x → truthy x = true)
  ∧ (∀ k e, _persistentCache st !! k = Some e → truthy (Entry.v e) = true).

(** The mirror is part of the fast tier. *)
Definition mirror_in_fast (st : state) : Prop :=
  ∀ k e, _persistentCache st !! k = Some e →
    JSMap.get k (_inMemoryCache st) = Some (Entry.v e).

(** The pending map is sound: while something is pending the debounce
    timer is armed, the keys are distinct, and every entry has non-empty
    text and target and at least one resolver. *)
Definition sound_pending (st : state) : Prop :=
  (pendingRequests st ≠ [] → pendingFlushTimer st = true)
  ∧ NoDup (pendingRequests st).*1
  ∧ ∀ k e, JSMap.get k (pendingRequests st) = Some e →
      Pending.text e ≠ "" ∧ Pending.target e ≠ ""
      ∧ Pending.resolvers e ≠ []
      ∧ ∃ cloud, k = cache_key cloud (Pending.text e) (Pending.target e).

(** The entries a persistence flush writes: the first [max] entries of
    the fast tier that have a non-empty value, in insertion order. *)
Definition saved_entries (max : Z) (fast : list (string * jsval))
  : list (string * jsval) :=
  take (Z.to_nat max) (filter (λ kv, truthy kv.2 = true) fast).

(** The handlers that neither clear nor reload the caches nor run the
    loops of a flush: a request, a purge, a persistence write and a storage
    change that leaves the blob alone. The flush is left out: its
    resolution loop writes the fast tier after the provider call has
    returned, in a state other handlers may have changed meanwhile. *)
Definition keeps_fast (h : handler) : Prop :=
  match h with
  | Startup _ _ => False
  | Msg _ _ _ (Some m) => msg_type m ≠ "clearCache"%string
  | Msg _ _ _ None => True
  | StorageChanged area ch _ _ =>
      area ≠ "local"%string ∨ ch_translationCache ch = false
  | PendingFlushTimer _ _ => False
  | SaveTimer _ _ => True
  end.

(** What the resolution loop reads at position [i] of [results]:
    [results[i]], or the empty string when it is [undefined]. *)
Definition answer (results : list jsval) (i : nat) : jsval :=
  match results !! i with
  | Some x => if is_undefined x then JS.empty else x
  | None => JS.empty
  end.

(** The pending requests a flush files under the target [t], in the
    order of the pending map. *)
Definition pending_for (t : string) (st : state) : list (string * pending) :=
  filter (λ kv, group_key kv.2 = t) (pendingRequests st).

(** * The options page: [purgeExpiredCache] *)

(** [Number(x) || d] for the value of a form field: [v] is the number
    read, [None] when it is not a number. *)
Definition number_or (v : option Z) (d : Z) : Z :=
  match v with
  | Some n => if n =? 0 then d else n
  | None => d
  end.

(** [(entry && entry.t) ? entry.t : now] for what the stored blob holds
    under a key. *)
Definition stored_ts (now : Z) (o : option raw_entry) : Z :=
  match o with
  | Some (RawObject _ (Some t)) => if t =? 0 then now else t
  | _ => now
  end.

(** The loop over [Object.keys(cache)] of the options page. *)
Fixpoint options_purge_loop (ttlDays now : Z) (keys : list string)
    (cache : gmap string raw_entry) (removed : nat)
  : gmap string raw_entry * nat :=
  match keys with
  | [] => (cache, removed)
  | k :: keys' =>
      let ts := stored_ts now (cache !! k) in
      let ttlMs := ttlDays * 24 * 60 * 60 * 1000 in
      if (0 <? ttlDays) && (ttlMs <? now - ts)
      then options_purge_loop ttlDays now keys' (delete k cache) (S removed)
      else options_purge_loop ttlDays now keys' cache removed
  end.

(** The blob the page writes back and the count it reports; [None] when
    the storage read throws. [field] is the number in the TTL field of
    the form. *)
Definition purgeExpiredCache (res : option storage) (field : option Z)
    (now : Z) : option (gmap string raw_entry * nat) :=
  match res with
  | None => None
  | Some r =>
      let cache := default ∅ (translationCache r) in
      let ttlDays :=
        match cacheTTLDays r with
        | Some v => v
        | None => number_or field 30
        end in
      Some (options_purge_loop ttlDays now (map_to_list cache).*1 cache 0)
  end.

(** The test of that loop on what it reads under a key. *)
Definition stored_test (ttlDays now : Z) (o : option raw_entry) : bool :=
  (0 <? ttlDays) && (ttlDays * 24 * 60 * 60 * 1000 <? now - stored_ts now o).

(** The storage [r] with its blob replaced by [blob]. *)
Definition with_translationCache (blob : gmap string raw_entry)
    (r : storage) : storage :=
  Storage (Some blob) (cacheMaxEntries r) (cacheTTLDays r)
    (useCloudTranslate r) (googleApiKey r).

(** * The unbatched worker

    The earlier worker script has the same state, loading, persistence
    and listeners, and a [doTranslate] that calls the provider itself,
    one text per call. Its promise is taken at its settled value: a
    request is run to completion, as the handlers above. *)

Module Direct.

(** [data.data.translations[0].translatedText || ''] under its guards.
    [None] is an exception thrown inside the [try]. *)
Definition cloud_result (data : jsval) : option jsval :=
  if truthy data then
    d ← get_prop "data" data;
    if truthy d then
      tr ← get_prop "translations" d;
      match tr with
      | JArr ts =>
          let t0 := default JUndefined (head ts) in
          if truthy t0 then
            x ← get_prop "translatedText" t0;
            Some (if truthy x then x else JS.empty)
          else Some JS.empty
      | _ => Some JS.empty
      end
    else Some JS.empty
  else Some JS.empty.

(** [data[0].map(p => p[0]).join('')] under its guards. *)
Definition public_result (data : jsval) : option jsval :=
  match data with
  | JArr (JArr d0 :: _) => join_segments (JArr d0)
  | _ => Some JS.empty
  end.

(** What the promise [p] settles to. *)
Definition translate_result (cloud : bool) (resp : response) : jsval :=
  match resp with
  | Response true (Some data) =>
      default JS.empty
        (if cloud then cloud_result data else public_result data)
  | _ => JS.empty
  end.

(** The provider path of [doTranslate]: the call, the fast-tier entry for
    the promise and, for a non-empty result, the mirror entry and the
    persistence timer. *)
Definition fetch_and_cache (fetch : request → response) (now : Z)
    (key text target : string) (st : state) : state * jsval * list request :=
  let req := build_request st target [text] in
  let result := translate_result (req_cloud req) (fetch req) in
  let st1 := with_inMemoryCache (JSMap.set key result (_inMemoryCache st)) st in
  let st2 :=
    if truthy result
    then scheduleSavePersistentCache
           (with_persistentCache
              (<[key := Entry.mk result now]> (_persistentCache st1)) st1)
    else st1 in
  (st2, result, [req]).

(** The state, the value the caller gets and the outbound calls. *)
Definition doTranslate (fetch : request → response) (now : Z)
    (text target : string) (st : state) : state * jsval * list request :=
  if String.eqb text "" || String.eqb target "" then (st, JS.empty, [])
  else
    let key := cache_key (USE_CLOUD st) text target in
    if JSMap.has key (_inMemoryCache st)
    then (st, default JUndefined (JSMap.get key (_inMemoryCache st)), [])
    else
      match _persistentCache st !! key with
      | Some e =>
          if truthy (Entry.v e)
          then (promote key (Entry.v e) st, Entry.v e, [])
          else fetch_and_cache fetch now key text target st
      | None => fetch_and_cache fetch now key text target st
      end.

End Direct.

(** * The content script: text mappings

    The text of a node and the mappings are strings; the regular
    expression engine is an argument: [valid pattern flags] tells whether
    [new RegExp(pattern, flags)] succeeds, [regex_replace pattern flags
    text replacement] is [text.replace(re, replacement)]. *)

Module Content.

(** ** The string methods the script calls *)

(** [s.startsWith(p)], with the rest of [s] behind [p]. *)
Fixpoint strip_prefix (p s : string) : option string :=
  match p, s with
  | EmptyString, _ => Some s
  | String a p', String b s' =>
      if Ascii.eqb a b then strip_prefix p' s' else None
  | String _ _, EmptyString => None
  end.

(** [s.split(sep)] for a non-empty [sep], scanning from the left: [acc]
    is the piece being read. Every round takes at least one character
    off [s], so [fuel] beyond the length of [s] is never used up. *)
Fixpoint split_from (fuel : nat) (sep acc s : string) : list string :=
  match fuel with
  | O => [acc +:+ s]
  | S fuel =>
      match strip_prefix sep s with
      | Some rest => acc :: split_from fuel sep "" rest
      | None =>
          match s with
          | EmptyString => [acc]
          | String c s' => split_from fuel sep (acc +:+ String c "") s'
          end
      end
  end.

Definition split (sep s : string) : list string :=
  split_from (S (String.length s)) sep "" s.

(** [pieces.join(sep)]. *)
Fixpoint join (sep : string) (pieces : list string) : string :=
  match pieces with
  | [] => ""
  | [x] => x
  | x :: rest => x +:+ sep +:+ join sep rest
  end.

(** [s.lastIndexOf(c)]; [None] is [-1]. *)
Fixpoint lastIndexOf (c : ascii) (s : string) : option nat :=
  match s with
  | EmptyString => None
  | String a s' =>
      match lastIndexOf c s' with
      | Some i => Some (S i)
      | None => if Ascii.eqb a c then Some 0%nat else None
      end
  end.

(** [s.slice(from, to)] for [from <= to] and [s.slice(from)]. *)
Definition slice (from to : nat) (s : string) : string :=
  String.substring from (to - from) s.

Definition slice_from (from : nat) (s : string) : string :=
  String.substring from (String.length s - from) s.

(** [s.includes(c)] for a one-character [c]. *)
Fixpoint includes (c : ascii) (s : string) : bool :=
  match s with
  | EmptyString => false
  | String a s' => Ascii.eqb a c || includes c s'
  end.

(** ** Matchers *)

Definition isRegexString (s : string) : bool :=
  (2 <=? String.length s)%nat
  && match s with
     | String a _ => Ascii.eqb a "/"%char
     | EmptyString => false
     end
  && match lastIndexOf "/"%char s with Some i => (0 <? i)%nat | None => false end.

(** A [RegExp] object or [{ literal }]. *)
Inductive matcher : Type :=
| RegExp (pattern flags : string)
| Literal (literal : string).

(** [None] is [null]. *)
Definition makeMatcher (valid : string → string → bool) (find : string)
  : option matcher :=
  if String.eqb find "" then None
  else if isRegexString find then
    let lastSlash := default 0%nat (lastIndexOf "/"%char find) in
    let pattern := slice 1 lastSlash find in
    let flags := slice_from (lastSlash + 1) find in
    let flags := if includes "g"%char flags then flags else flags +:+ "g" in
    if valid pattern flags then Some (RegExp pattern flags) else None
  else Some (Literal find).

(** ** Replacing in the text of a node *)

(** A mapping [{ find, replace }]; an absent [replace] is the empty
    string. *)
Record mapping := Mapping { find : string; replace : string }.

Section replacing.
Variable valid : string → string → bool.
Variable regex_replace : string → string → string → string → string.

(** One round of the loop over the mappings. *)
Definition apply_mapping (newText : string) (m : mapping) : string :=
  if String.eqb (find m) "" then newText
  else
    match makeMatcher valid (find m) with
    | None => newText
    | Some (Literal literal) =>
        if String.eqb literal "" then newText
        else join (replace m) (split literal newText)
    | Some (RegExp pattern flags) =>
        regex_replace pattern flags newText (replace m)
    end.

(** [newText] after the loop. *)
Definition replaceInText (text : string) (mappings : list mapping) : string :=
  foldl apply_mapping text mappings.

(** What the function assigns to [node.nodeValue]: [None] when it leaves
    the node alone. *)
Definition replaceInTextNode (nodeValue : string) (mappings : list mapping)
  : option string :=
  if String.eqb nodeValue "" then None
  else
    let newText := replaceInText nodeValue mappings in
    if String.eqb newText nodeValue then None else Some newText.
End replacing.

(** [lit] occurs in [s]. *)
Definition occurs (lit s : string) : Prop :=
  ∃ a b, s = a +:+ lit +:+ b.

End Content.

(** * The options page: [makeRandomKey] *)

(** The alphabet of [btoa]. *)
Definition base64_alphabet : string :=
  "ABCDEFGHIJKLMNOPQRSTUVWXYZabcdefghijklmnopqrstuvwxyz0123456789+/".

(** The character of a six-bit group. *)
Definition sextet_char (n : N) : ascii :=
  default "="%char (String.get (N.to_nat n) base64_alphabet).

(** [btoa(String.fromCharCode.apply(null, bytes))]: three bytes give four
    characters, a last group of one or two bytes is padded with [=]. *)
Fixpoint btoa (bytes : list Byte.byte) : string :=
  match bytes with
  | [] => ""
  | [b0] =>
      let n0 := Byte.to_N b0 in
      String (sextet_char (n0 / 4))
        (String (sextet_char (n0 mod 4 * 16)) "==")
  | [b0; b1] =>
      let n0 := Byte.to_N b0 in
      let n1 := Byte.to_N b1 in
      String (sextet_char (n0 / 4))
        (String (sextet_char (n0 mod 4 * 16 + n1 / 16))
           (String (sextet_char (n1 mod 16 * 4)) "="))
  | b0 :: b1 :: b2 :: rest =>
      let n0 := Byte.to_N b0 in
      let n1 := Byte.to_N b1 in
      let n2 := Byte.to_N b2 in
      String (sextet_char (n0 / 4))
        (String (sextet_char (n0 mod 4 * 16 + n1 / 16))
           (String (sextet_char (n1 mod 16 * 4 + n2 / 64))
              (String (sextet_char (n2 mod 64)) (btoa rest))))
  end%N.

(** [s.replace(/=+$/, '')]: the run of [=] at the end is removed. *)
Fixpoint strip_padding (s : string) : string :=
  match s with
  | EmptyString => ""
  | String a s' =>
      match strip_padding s' with
      | EmptyString => if Ascii.eqb a "=" then "" else String a ""
      | r => String a r
      end
  end.

(** [arr] is what [crypto.getRandomValues] put into the array of 24
    bytes. *)
Definition makeRandomKey (arr : list Byte.byte) : string :=
  strip_padding (btoa arr).

(** * Further sample states and messages *)

(** A [translate] message. *)
Definition translate_msg (text target : string) : option message :=
  Some (Message "translate" text target).

(** The worker after one request for a text it has not cached. *)
Definition asked : state :=
  handle (Msg 1 0 true (translate_msg "shalom" "en")) initial.

(** A [purgeExpired] and a [clearCache] message. *)
Definition purge_msg : option message := Some (Message "purgeExpired" "" "").
Definition clear_msg : option message := Some (Message "clearCache" "" "").

(** The change record of a write of the [translationCache] blob alone. *)
Definition cache_changed : changes := Changes true None None None None.

(** The change record of a switch of the provider mode alone. *)
Definition mode_changed (cloud : bool) : changes :=
  Changes false None None (Some cloud) None.

(** What the storage returns once the blob [blob] was written, with no
    settings stored. *)
Definition stored (blob : gmap string entry) : storage :=
  Storage (Some (to_raw <$> blob)) None None false "".

(** A stored blob with a legacy string, an entry stamped long ago and an
    entry without a timestamp, under a TTL of thirty days. *)
Definition mixed_blob : storage :=
  Storage (Some {[ "public|a||en"%string := RawString "b";
                   "public|c||en"%string := RawObject (JStr "d") (Some 1);
                   "public|e||en"%string := RawObject (JStr "f") None ]})
    None (Some 30) false "".

(** The worker after one request for an uncached text, followed by a
    reload that brings the translation of that text. *)
Definition asked_then_loaded : state :=
  handle
    (StorageChanged "local" cache_changed
       (Some (Storage
                (Some {[ "public|shalom||en"%string
                         := RawObject (JStr "hello") (Some 1000) ]})
                None (Some 30) false ""))
       1000)
    asked.

(** A public response to one text, translated in a single segment that
    carries the translation [s] and further fields. *)
Definition one_segment (s : string) (fields : list jsval) : response :=
  Response true (Some (JArr [JArr [JArr (JStr s :: fields)]])).

(** The default mapping of the content script whose replacement holds its
    own [find]. *)
Definition twitter_mapping : Content.mapping :=
  Content.Mapping "Twitter" "X (Twitter)".

(** A regular-expression engine that accepts every pattern and replaces
    nothing. *)
Definition any_valid : string → string → bool := λ _ _, true.
Definition no_replace : string → string → string → string → string :=
  λ _ _ text _, text.

(** Twenty-four bytes, all zero, and twenty-four bytes, all 255. *)
Definition zero_bytes : list Byte.byte := replicate 24 Byte.x00.
Definition ff_bytes : list Byte.byte := replicate 24 Byte.xff.

(** Three callers ask for two texts, all for the same target. *)
Definition two_texts : list (nat * string * string) :=
  [(1%nat, "shalom"%string, "en"%string);
   (2%nat, "toda"%string, "en"%string);
   (3%nat, "shalom"%string, "en"%string)].

(** A mirror with one entry whose stored timestamp is zero, under a TTL of
    one day. *)
Definition zero_stamp : state :=
  State [] {[ "public|a||en"%string := Entry.mk (JStr "b") 0 ]}
    false 1000 1 false "" [] false.

(** The same entry as a stored blob, with the TTL setting of one day. *)
Definition zero_blob : storage :=
  Storage (Some {[ "public|a||en"%string := RawObject (JStr "b") (Some 0) ]})
    None (Some 1) false "".

(** A mirror with an entry stamped at time 1 and an entry stamped one
    millisecond before the time [2678400001], under a TTL of thirty days. *)
Definition two_ages : state :=
  State []
    {[ "public|a||en"%string := Entry.mk (JStr "b") 1;
       "public|c||en"%string := Entry.mk (JStr "d") 2678400000 ]}
    false 1000 30 false "" [] false.

(** The same two entries as a stored blob, with the TTL setting of thirty
    days. *)
Definition two_ages_blob : storage :=
  Storage
    (Some {[ "public|a||en"%string := RawObject (JStr "b") (Some 1);
             "public|c||en"%string := RawObject (JStr "d") (Some 2678400000) ]})
    None (Some 30) false "".

(** A provider whose calls for the target [en] throw and whose other
    calls answer as [echo_public]. *)
Definition en_offline : request → response := λ req,
  if String.eqb (req_target req) "en" then NetworkError else echo_public req.
(** * Properties *)

(** ** Strings and [Map] lookups *)

Lemma append_assoc (s1 s2 s3 : string) :
  (s1 +:+ s2) +:+ s3 = s1 +:+ s2 +:+ s3.
Proof.
  induction s1 as [|c s1 IH]; [reflexivity|].
  cbv [String.append]; fold String.append. by rewrite IH.
Qed.

Lemma length_append (s1 s2 : string) :
  String.length (s1 +:+ s2) = (String.length s1 + String.length s2)%nat.
Proof.
  induction s1 as [|c s1 IH]; [reflexivity|].
  cbv [String.append]; fold String.append. simpl. by rewrite IH.
Qed.

Lemma append_nonempty_r (s1 s2 : string) : s2 ≠ "" → s1 +:+ s2 ≠ "".
Proof.
  intros Hs2 Heq. apply (f_equal String.length) in Heq.
  rewrite length_append in Heq. destruct s2; [done|]. simpl in Heq. lia.
Qed.

Lemma eqb_empty_false (s : string) : s ≠ "" → String.eqb s "" = false.
Proof. intros. by apply String.eqb_neq. Qed.

Section jsmap_facts.
Context {V : Type}.
Implicit Types (m : list (string * V)) (k : string) (x : V).

Lemma get_set k k' x m :
  JSMap.get k (JSMap.set k' x m)
  = if decide (k' = k) then Some x else JSMap.get k m.
Proof.
  induction m as [|[k0 y] m IH]; simpl.
  - done.
  - destruct (decide (k0 = k')) as [->|Hne]; simpl.
    + destruct (decide (k' = k)); done.
    + destruct (decide (k0 = k)) as [->|?].
      * by rewrite decide_False.
      * done.
Qed.

Lemma get_set_ne k k' x m :
  k' ≠ k → JSMap.get k (JSMap.set k' x m) = JSMap.get k m.
Proof. intros. by rewrite get_set, decide_False. Qed.

Lemma has_set_ne k k' x m :
  k' ≠ k → JSMap.has k (JSMap.set k' x m) = JSMap.has k m.
Proof. intros. unfold JSMap.has. by rewrite get_set_ne. Qed.

Lemma has_true k m : JSMap.has k m = true ↔ is_Some (JSMap.get k m).
Proof.
  unfold JSMap.has. destruct (JSMap.get k m); split; try done.
Qed.

Lemma has_false k m : JSMap.has k m = false ↔ JSMap.get k m = None.
Proof. unfold JSMap.has. by destruct (JSMap.get k m). Qed.

Lemma get_Some_elem_of k x m : JSMap.get k m = Some x → (k, x) ∈ m.
Proof.
  induction m as [|[k0 y] m IH]; simpl; [done|].
  destruct (decide (k0 = k)) as [->|?].
  - intros [= ->]. apply elem_of_cons. by left.
  - intros. apply elem_of_cons. right. auto.
Qed.

Lemma get_None_not_elem_of k m : JSMap.get k m = None ↔ k ∉ m.*1.
Proof.
  induction m as [|[k0 y] m IH]; simpl.
  - split; [intros _; apply not_elem_of_nil | done].
  - destruct (decide (k0 = k)) as [->|?].
    + split; [done|]. intros []. apply elem_of_cons. by left.
    + rewrite IH, not_elem_of_cons.
      split; [intros; split; [congruence | done] | by intros [_ ?]].
Qed.
End jsmap_facts.

(** ** C9: the composite key is not injective *)

(** C9. Within one provider mode the key [modePrefix + text + '||' +
    target] is the same for the distinct inputs [(a||b, c)] and
    [(a, b||c)]; so when the fast tier holds a translation under the key of
    the first, a request for the second returns that translation at once,
    without being queued. The instance of the claim is [a], [b], [c] each a
    one-letter string. *)
Theorem cache_key_collision (a b c : string) (st : state) (x : jsval)
    (resolve : nat) :
  a ≠ "" →
  JSMap.get (cache_key (USE_CLOUD st) (a +:+ "||" +:+ b) c)
    (_inMemoryCache st) = Some x →
  (a +:+ "||" +:+ b, c) ≠ (a, b +:+ "||" +:+ c)
  ∧ (∀ cloud, cache_key cloud (a +:+ "||" +:+ b) c
              = cache_key cloud a (b +:+ "||" +:+ c))
  ∧ doTranslate resolve a (b +:+ "||" +:+ c) st = (st, Returned x).
Proof.
  intros Ha Hget.
  assert (Hkey : ∀ cloud, cache_key cloud (a +:+ "||" +:+ b) c
                          = cache_key cloud a (b +:+ "||" +:+ c)).
  { intros cloud. unfold cache_key. f_equal.
    by rewrite !append_assoc. }
  split; [|split; [exact Hkey|]].
  - intros [= Heq _]. apply (f_equal String.length) in Heq.
    rewrite !length_append in Heq. simpl in Heq. lia.
  - unfold doTranslate.
    rewrite (eqb_empty_false a Ha).
    rewrite (eqb_empty_false (b +:+ "||" +:+ c)).
    2:{ apply append_nonempty_r. cbv [String.append]. discriminate. }
    simpl. rewrite <- Hkey. unfold JSMap.has. by rewrite Hget.
Qed.

Lemma cache_key_collision_witness :
  ("a||b"%string, "c"%string) ≠ ("a"%string, "b||c"%string)
  ∧ (∀ cloud, cache_key cloud "a||b" "c" = cache_key cloud "a" "b||c")
  ∧ doTranslate 2 "a" "b||c"
      (with_inMemoryCache [("public|a||b||c"%string, JStr "x")] initial)
    = (with_inMemoryCache [("public|a||b||c"%string, JStr "x")] initial,
       Returned (JStr "x")).
Proof.
  apply (cache_key_collision "a" "b" "c"
           (with_inMemoryCache [("public|a||b||c"%string, JStr "x")] initial)
           (JStr "x") 2).
  - discriminate.
  - reflexivity.
Defined.

(** ** Expiry: loading and purging *)


Lemma purge_loop_cons ttl now k keys cache removed :
  purge_loop ttl now (k :: keys) cache removed
  = if purge_test ttl now (cache !! k)
    then purge_loop ttl now keys (delete k cache) (S removed)
    else purge_loop ttl now keys cache removed.
Proof. reflexivity. Qed.

Lemma purge_test_None ttl now : purge_test ttl now None = false.
Proof.
  unfold purge_test. destruct (0 <? ttl) eqn:Httl; [|done]. simpl.
  apply Z.ltb_lt in Httl. apply Z.ltb_ge. lia.
Qed.

Lemma purge_test_Some ttl now e :
  purge_test ttl now (Some e) = true
  ↔ isExpired ttl now (or_now (Entry.t e) now).
Proof.
  unfold purge_test, isExpired, or_now.
  rewrite andb_true_iff, !Z.ltb_lt. lia.
Qed.

Lemma purge_loop_id ttl now keys cache removed :
  (∀ k, k ∈ keys → purge_test ttl now (cache !! k) = false) →
  purge_loop ttl now keys cache removed = (cache, removed).
Proof.
  induction keys as [|k keys IH]; intros Hall; [done|].
  rewrite purge_loop_cons, Hall by (apply elem_of_cons; by left).
  apply IH. intros k' Hk'. apply Hall, elem_of_cons. by right.
Qed.

Lemma purge_loop_lookup ttl now keys cache removed k :
  (purge_loop ttl now keys cache removed).1 !! k
  = if decide (k ∈ keys)
    then (if purge_test ttl now (cache !! k) then None else cache !! k)
    else cache !! k.
Proof.
  revert cache removed. induction keys as [|k0 keys IH]; intros cache removed.
  - destruct (decide (k ∈ [])) as [Hin|]; [by apply elem_of_nil in Hin|done].
  - rewrite purge_loop_cons.
    destruct (decide (k = k0)) as [->|Hne].
    + rewrite (decide_True (P := k0 ∈ k0 :: keys))
        by (apply elem_of_cons; by left).
      destruct (purge_test ttl now (cache !! k0)) eqn:Htest; rewrite IH.
      * rewrite lookup_delete_eq, purge_test_None. by destruct (decide _).
      * rewrite Htest. by destruct (decide _).
    + assert (Hiff : k ∈ k0 :: keys ↔ k ∈ keys).
      { rewrite elem_of_cons. split; [intros [?|?]; [congruence|done] | by right]. }
      destruct (purge_test ttl now (cache !! k0)); rewrite IH.
      * rewrite lookup_delete_ne by done.
        destruct (decide (k ∈ keys)), (decide (k ∈ k0 :: keys)); tauto || done.
      * destruct (decide (k ∈ keys)), (decide (k ∈ k0 :: keys)); tauto || done.
Qed.

Lemma purge_loop_count ttl now keys cache removed :
  ((purge_loop ttl now keys cache removed).2
   + size (purge_loop ttl now keys cache removed).1
   = removed + size cache)%nat.
Proof.
  revert cache removed. induction keys as [|k keys IH]; intros cache removed.
  - done.
  - rewrite purge_loop_cons.
    destruct (purge_test ttl now (cache !! k)) eqn:Htest; [|apply IH].
    rewrite IH. destruct (cache !! k) as [e|] eqn:Hk.
    + rewrite map_size_delete, Hk.
      assert (size cache ≠ 0%nat); [|lia].
      intros Hz. apply map_size_empty_inv in Hz. by rewrite Hz in Hk.
    + by rewrite purge_test_None in Htest.
Qed.

Lemma purgeExpired_cache now st :
  _persistentCache (purgeExpired now st).1
  = (purge_loop (CACHE_TTL_DAYS st) now (map_to_list (_persistentCache st)).*1
       (_persistentCache st) 0).1.
Proof. unfold purgeExpired. by destruct (purge_loop _ _ _ _ _). Qed.

Lemma purgeExpired_removed now st :
  (purgeExpired now st).2
  = (purge_loop (CACHE_TTL_DAYS st) now (map_to_list (_persistentCache st)).*1
       (_persistentCache st) 0).2.
Proof. unfold purgeExpired. by destruct (purge_loop _ _ _ _ _). Qed.

Lemma purgeExpired_settings now st :
  CACHE_TTL_DAYS (purgeExpired now st).1 = CACHE_TTL_DAYS st.
Proof. unfold purgeExpired. by destruct (purge_loop _ _ _ _ _). Qed.

Lemma elem_of_keys (cache : gmap string entry) k :
  k ∈ (map_to_list cache).*1 ↔ is_Some (cache !! k).
Proof.
  rewrite list_elem_of_fmap. split.
  - intros [[k' e] [-> Hin]]. apply elem_of_map_to_list in Hin. by eexists.
  - intros [e He]. exists (k, e). split; [done|]. by apply elem_of_map_to_list.
Qed.

Lemma purgeExpired_lookup now st k :
  _persistentCache (purgeExpired now st).1 !! k
  = if purge_test (CACHE_TTL_DAYS st) now (_persistentCache st !! k)
    then None else _persistentCache st !! k.
Proof.
  rewrite purgeExpired_cache, purge_loop_lookup.
  destruct (decide _) as [|Hnot]; [done|].
  rewrite elem_of_keys in Hnot.
  destruct (_persistentCache st !! k) eqn:Hk.
  - destruct Hnot. by eexists.
  - by rewrite purge_test_None.
Qed.

Lemma load_fold_lookup ttl now (l : list (string * raw_entry)) acc k :
  NoDup l.*1 →
  (JSMap.get k acc.2 = Entry.v <$> acc.1 !! k) →
  let res := foldl (load_step ttl now) acc l in
  res.1 !! k
  = match (list_to_map l : gmap string raw_entry) !! k ≫= load_entry ttl now
    with
    | Some e => Some e
    | None => acc.1 !! k
    end
  ∧ JSMap.get k res.2 = Entry.v <$> res.1 !! k.
Proof.
  revert acc. induction l as [|[k0 e0] l IH]; intros acc Hnd Hacc.
  - simpl. by rewrite lookup_empty.
  - rewrite fmap_cons, NoDup_cons in Hnd. destruct Hnd as [Hk0 Hnd].
    simpl. specialize (IH (load_step ttl now acc (k0, e0)) Hnd).
    simpl in IH. destruct IH as [IH1 IH2].
    { unfold load_step. simpl. destruct (load_entry ttl now e0) as [e|]; simpl.
      - rewrite get_set. destruct (decide (k0 = k)) as [->|?].
        + by rewrite lookup_insert_eq.
        + by rewrite lookup_insert_ne.
      - done. }
    split; [|done]. rewrite IH1.
    destruct (decide (k0 = k)) as [->|Hne].
    + rewrite lookup_insert_eq. simpl.
      rewrite (not_elem_of_list_to_map_1 l k) by done. simpl.
      unfold load_step. simpl. destruct (load_entry ttl now e0); simpl.
      * by rewrite lookup_insert_eq.
      * done.
    + rewrite lookup_insert_ne by done.
      destruct (list_to_map l !! k ≫= load_entry ttl now); [done|].
      unfold load_step. simpl. destruct (load_entry ttl now e0); simpl.
      * by rewrite lookup_insert_ne.
      * done.
Qed.

Lemma load_entry_spec ttl now e :
  load_entry ttl now e
  = '(value, ts) ← raw_value now e;
    if decide (isExpired ttl now ts) then None else Some (Entry.mk value ts).
Proof.
  unfold load_entry. destruct (raw_value now e) as [[value ts]|]; [|done].
  simpl. unfold isExpired.
  destruct (0 <? ttl) eqn:Httl.
  - apply Z.ltb_lt in Httl.
    destruct (ttl * 24 * 60 * 60 * 1000 <? now - ts) eqn:Hage.
    + apply Z.ltb_lt in Hage. rewrite decide_True; [done|lia].
    + apply Z.ltb_ge in Hage. rewrite decide_False; [done|lia].
  - apply Z.ltb_ge in Httl. rewrite decide_False; [done|lia].
Qed.

Lemma load_lookup r now st k :
  let st' := loadSettingsAndCache (Some r) now st in
  _persistentCache st' !! k
  = default ∅ (translationCache r) !! k ≫= load_entry (CACHE_TTL_DAYS st') now
  ∧ JSMap.get k (_inMemoryCache st') = Entry.v <$> _persistentCache st' !! k.
Proof.
  simpl.
  pose proof (load_fold_lookup
    (default (CACHE_TTL_DAYS st) (cacheTTLDays r)) now
    (map_to_list (default ∅ (translationCache r))) (∅, []) k
    (NoDup_fst_map_to_list _)) as H.
  simpl in H. destruct H as [H1 H2]; [by rewrite lookup_empty|].
  split; [|exact H2]. rewrite H1, list_to_map_to_list, lookup_empty.
  destruct (default ∅ (translationCache r) !! k) as [raw|]; simpl; [|done].
  by destruct (load_entry _ now raw).
Qed.

(** ** C8: purging twice *)

(** C8. For every state and every TTL setting, [purgeExpired] called again
    at the same instant on the state the first call left reports
    [removed = 0] and leaves the mirror as it is: the first call has
    removed every entry its test matches, as many entries as it reports. *)
Theorem purgeExpired_twice (st : state) (now : Z) :
  let st1 := (purgeExpired now st).1 in
  (purgeExpired now st1).2 = 0%nat
  ∧ _persistentCache (purgeExpired now st1).1 = _persistentCache st1
  ∧ ((purgeExpired now st).2 + size (_persistentCache st1)
     = size (_persistentCache st))%nat.
Proof.
  intros st1.
  assert (Hnone : ∀ k, purge_test (CACHE_TTL_DAYS st1) now
                         (_persistentCache st1 !! k) = false).
  { intros k. unfold st1. rewrite purgeExpired_settings, purgeExpired_lookup.
    destruct (purge_test _ _ (_persistentCache st !! k)) eqn:Htest; [|done].
    apply purge_test_None. }
  split; [|split].
  - rewrite purgeExpired_removed. by rewrite purge_loop_id.
  - rewrite purgeExpired_cache. by rewrite purge_loop_id.
  - unfold st1. rewrite purgeExpired_removed, purgeExpired_cache.
    by rewrite purge_loop_count.
Qed.

(** ** C5: when an entry counts as expired *)

(** C5, as stated, fails: an entry whose stored timestamp is zero is kept
    by a purge and by a reload ten days later under a TTL of one day. The
    test [ttlDays > 0] and [now - timestamp > ttlDays * 86400000] holds of
    its stored timestamp, but both loops read a zero timestamp as [now]
    ([entry.t || now]). *)
Lemma zero_timestamp_never_expires :
  _persistentCache zero_stamp !! "public|a||en"%string
  = Some (Entry.mk (JStr "b") 0)
  ∧ isExpired (CACHE_TTL_DAYS zero_stamp) 864000000 0
  ∧ (purgeExpired 864000000 zero_stamp).2 = 0%nat
  ∧ _persistentCache (purgeExpired 864000000 zero_stamp).1
      !! "public|a||en"%string
    = Some (Entry.mk (JStr "b") 0)
  ∧ default ∅ (translationCache zero_blob) !! "public|a||en"%string
    = Some (RawObject (JStr "b") (Some 0))
  ∧ CACHE_TTL_DAYS (loadSettingsAndCache (Some zero_blob) 864000000 initial)
    = 1
  ∧ _persistentCache (loadSettingsAndCache (Some zero_blob) 864000000 initial)
      !! "public|a||en"%string
    = Some (Entry.mk (JStr "b") 864000000)
  ∧ JSMap.get "public|a||en"
      (_inMemoryCache (loadSettingsAndCache (Some zero_blob) 864000000 initial))
    = Some (JStr "b").
Proof.
  split; [by vm_compute|]. split; [unfold isExpired; simpl; lia|].
  repeat split; by vm_compute.
Qed.

(** C5, amended. An entry is dropped as expired exactly when
    [ttlDays > 0] and [now - ts > ttlDays * 86400000], where [ts] is the
    timestamp stored with the entry, or [now] when the stored timestamp is
    zero or missing and for a legacy string, so that such an entry never
    counts as expired.
    A purge drops from the mirror the entries with a non-zero stored [t]
    for which the test holds and keeps every other entry as it is. A
    reload, under the TTL it has just read, keeps of the stored blob the
    non-empty values for which the test fails, with the stored [t] (or
    [now]) as their timestamp, in both tiers. When the TTL is zero or
    negative, a purge removes nothing and a reload keeps every non-empty
    value. *)
Theorem expiry_on_load_and_purge (st : state) (now : Z) :
  (∀ k e, _persistentCache st !! k = Some e →
     _persistentCache (purgeExpired now st).1 !! k
     = if decide (Entry.t e ≠ 0
                  ∧ isExpired (CACHE_TTL_DAYS st) now (Entry.t e))
       then None else Some e)
  ∧ (∀ k, _persistentCache st !! k = None →
       _persistentCache (purgeExpired now st).1 !! k = None)
  ∧ (∀ r k, let st' := loadSettingsAndCache (Some r) now st in
       CACHE_TTL_DAYS st' = default (CACHE_TTL_DAYS st) (cacheTTLDays r)
       ∧ _persistentCache st' !! k
         = match default ∅ (translationCache r) !! k with
           | Some (RawObject v (Some t)) =>
               if truthy v then
                 if decide (t = 0) then Some (Entry.mk v now)
                 else if decide (isExpired (CACHE_TTL_DAYS st') now t)
                      then None else Some (Entry.mk v t)
               else None
           | Some (RawObject v None) =>
               if truthy v then Some (Entry.mk v now) else None
           | Some (RawString s) =>
               if decide (s = "") then None else Some (Entry.mk (JStr s) now)
           | Some RawOther | None => None
           end
       ∧ JSMap.get k (_inMemoryCache st')
         = Entry.v <$> _persistentCache st' !! k)
  ∧ (CACHE_TTL_DAYS st ≤ 0 →
       (purgeExpired now st).2 = 0%nat
       ∧ _persistentCache (purgeExpired now st).1 = _persistentCache st)
  ∧ (∀ r k v t, let st' := loadSettingsAndCache (Some r) now st in
       CACHE_TTL_DAYS st' ≤ 0 →
       default ∅ (translationCache r) !! k = Some (RawObject v t) →
       truthy v = true →
       ∃ ts, _persistentCache st' !! k = Some (Entry.mk v ts)
             ∧ JSMap.get k (_inMemoryCache st') = Some v).
Proof.
  assert (Hpurge : ∀ k e, _persistentCache st !! k = Some e →
     _persistentCache (purgeExpired now st).1 !! k
     = if decide (Entry.t e ≠ 0
                  ∧ isExpired (CACHE_TTL_DAYS st) now (Entry.t e))
       then None else Some e).
  { intros k e Hk. rewrite purgeExpired_lookup, Hk.
    destruct (purge_test _ now (Some e)) eqn:Htest.
    - apply purge_test_Some in Htest. rewrite decide_True; [done|].
      unfold isExpired, or_now in *.
      destruct (Z.eqb_spec (Entry.t e) 0); split; lia.
    - rewrite decide_False; [done|]. intros [Hne Hexp].
      assert (purge_test (CACHE_TTL_DAYS st) now (Some e) = true);
        [|congruence].
      apply purge_test_Some. unfold or_now.
      by destruct (Z.eqb_spec (Entry.t e) 0). }
  assert (Hnone : ∀ k, _persistentCache st !! k = None →
       _persistentCache (purgeExpired now st).1 !! k = None).
  { intros k Hk. by rewrite purgeExpired_lookup, Hk, purge_test_None. }
  assert (Hload : ∀ r k, let st' := loadSettingsAndCache (Some r) now st in
       CACHE_TTL_DAYS st' = default (CACHE_TTL_DAYS st) (cacheTTLDays r)
       ∧ _persistentCache st' !! k
         = match default ∅ (translationCache r) !! k with
           | Some (RawObject v (Some t)) =>
               if truthy v then
                 if decide (t = 0) then Some (Entry.mk v now)
                 else if decide (isExpired (CACHE_TTL_DAYS st') now t)
                      then None else Some (Entry.mk v t)
               else None
           | Some (RawObject v None) =>
               if truthy v then Some (Entry.mk v now) else None
           | Some (RawString s) =>
               if decide (s = "") then None else Some (Entry.mk (JStr s) now)
           | Some RawOther | None => None
           end
       ∧ JSMap.get k (_inMemoryCache st')
         = Entry.v <$> _persistentCache st' !! k).
  { intros r k st'. split; [reflexivity|].
    destruct (load_lookup r now st k) as [Hm Hf]. fold st' in Hm, Hf.
    split; [|exact Hf]. rewrite Hm.
    assert (Hfresh : ∀ ttl, ¬ isExpired ttl now now).
    { intros ttl [? ?]. lia. }
    destruct (default ∅ (translationCache r) !! k) as [[s|v [t|]|]|];
      simpl; [| | |done|done]; rewrite load_entry_spec; simpl.
    - destruct (String.eqb_spec s ""); simpl.
      + by rewrite decide_True.
      + rewrite (decide_False (P := s = "")) by done.
        by rewrite decide_False by apply Hfresh.
    - destruct (truthy v); simpl; [|done]. unfold or_now.
      destruct (Z.eqb_spec t 0) as [->|Hne].
      + rewrite (decide_True (P := 0 = 0)) by done.
        by rewrite decide_False by apply Hfresh.
      + by rewrite (decide_False (P := t = 0)).
    - destruct (truthy v); simpl; [|done]. unfold or_now. simpl.
      by rewrite decide_False by apply Hfresh. }
  split; [exact Hpurge|]. split; [exact Hnone|]. split; [exact Hload|].
  split.
  - intros Httl.
    assert (Hsame : _persistentCache (purgeExpired now st).1
                    = _persistentCache st).
    { apply map_eq. intros k.
      destruct (_persistentCache st !! k) as [e|] eqn:Hk; [|by apply Hnone].
      rewrite (Hpurge k e Hk). rewrite decide_False; [done|].
      intros [_ [? _]]. lia. }
    split; [|exact Hsame].
    pose proof (purge_loop_count (CACHE_TTL_DAYS st) now
      (map_to_list (_persistentCache st)).*1 (_persistentCache st) 0) as Hc.
    rewrite <- purgeExpired_removed, <- purgeExpired_cache, Hsame in Hc. lia.
  - intros r k v t st' Httl Hraw Hv.
    destruct (Hload r k) as (_ & Hm & Hf). fold st' in Hm, Hf.
    rewrite Hraw, Hv in Hm.
    assert (Hex : ∃ ts, _persistentCache st' !! k = Some (Entry.mk v ts)).
    { destruct t as [t|]; [|by eexists].
      destruct (decide (t = 0)); [by eexists|].
      rewrite decide_False in Hm by (intros [? _]; lia). by eexists. }
    destruct Hex as [ts Hts]. exists ts. split; [done|].
    by rewrite Hf, Hts.
Qed.

Lemma expiry_on_load_and_purge_witness :
  (_persistentCache (purgeExpired 2678400001 two_ages).1
     !! "public|a||en"%string = None
   ∧ _persistentCache (purgeExpired 2678400001 two_ages).1
       !! "public|c||en"%string = Some (Entry.mk (JStr "d") 2678400000))
  ∧ (_persistentCache
       (loadSettingsAndCache (Some two_ages_blob) 2678400001 initial)
       !! "public|a||en"%string = None
     ∧ _persistentCache
         (loadSettingsAndCache (Some two_ages_blob) 2678400001 initial)
         !! "public|c||en"%string = Some (Entry.mk (JStr "d") 2678400000))
  ∧ ((purgeExpired 9000000000 ttl_off).2 = 0%nat
     ∧ _persistentCache (purgeExpired 9000000000 ttl_off).1
       = _persistentCache ttl_off)
  ∧ ∃ ts, _persistentCache
            (loadSettingsAndCache (Some old_blob) 9000000000 ttl_off)
            !! "public|a||en"%string = Some (Entry.mk (JStr "b") ts)
          ∧ JSMap.get "public|a||en"
              (_inMemoryCache
                 (loadSettingsAndCache (Some old_blob) 9000000000 ttl_off))
            = Some (JStr "b").
Proof.
  pose proof (expiry_on_load_and_purge two_ages 2678400001)
    as (Hpurge & _ & _ & _ & _).
  pose proof (expiry_on_load_and_purge initial 2678400001)
    as (_ & _ & Hload & _ & _).
  pose proof (expiry_on_load_and_purge ttl_off 9000000000)
    as (_ & _ & _ & Hoff & Hkeep).
  split; [|split; [|split]].
  - split.
    + rewrite (Hpurge "public|a||en"%string (Entry.mk (JStr "b") 1));
        [|by vm_compute].
      apply decide_True. unfold isExpired. simpl. lia.
    + rewrite (Hpurge "public|c||en"%string
                 (Entry.mk (JStr "d") 2678400000)); [|by vm_compute].
      apply decide_False. unfold isExpired. simpl. lia.
  - split.
    + destruct (Hload two_ages_blob "public|a||en"%string) as (_ & -> & _).
      change (default ∅ (translationCache two_ages_blob)
                !! "public|a||en"%string)
        with (Some (RawObject (JStr "b") (Some 1))).
      by vm_compute.
    + destruct (Hload two_ages_blob "public|c||en"%string) as (_ & -> & _).
      change (default ∅ (translationCache two_ages_blob)
                !! "public|c||en"%string)
        with (Some (RawObject (JStr "d") (Some 2678400000))).
      by vm_compute.
  - apply Hoff. simpl. lia.
  - apply (Hkeep old_blob "public|a||en"%string (JStr "b") (Some 1)).
    + simpl. lia.
    + by vm_compute.
    + reflexivity.
Defined.

(** ** C7: the size of the durable tier after a persistence flush *)

Lemma save_loop_size max now entries obj count :
  Z.of_nat (size obj) ≤ count → count ≤ max →
  Z.of_nat (size (save_loop max now entries obj count)) ≤ max.
Proof.
  revert obj count.
  induction entries as [|[k val] rest IH]; intros obj count Hsz Hmax; simpl.
  - lia.
  - destruct (max <=? count) eqn:Hbrk; [lia|].
    apply Z.leb_gt in Hbrk.
    destruct (truthy val); [|by apply IH].
    apply IH; [|lia]. rewrite map_size_insert.
    destruct (obj !! k); simpl; lia.
Qed.

(** C7. When the configured maximum is not negative, the blob a persistence
    flush hands to the storage has at most that many entries, for every
    fast tier, and so has the mirror once the write has succeeded. (A write
    that fails leaves the mirror as it was.) *)
Theorem durable_size_bounded (st : state) (now : Z) :
  0 ≤ MAX_PERSIST_ENTRIES st →
  (∀ ok obj, (savePersistentCache now ok st).2 = Some obj →
     Z.of_nat (size obj) ≤ MAX_PERSIST_ENTRIES st)
  ∧ Z.of_nat (size (_persistentCache (savePersistentCache now true st).1))
    ≤ MAX_PERSIST_ENTRIES st
  ∧ _persistentCache (savePersistentCache now false st).1
    = _persistentCache st.
Proof.
  intros Hmax.
  assert (Hobj : Z.of_nat (size (save_loop (MAX_PERSIST_ENTRIES st) now
                   (_inMemoryCache st) ∅ 0)) ≤ MAX_PERSIST_ENTRIES st).
  { apply save_loop_size; [|done]. by rewrite map_size_empty. }
  split; [|split].
  - intros [|] obj; simpl; [|done]. by intros [= <-].
  - exact Hobj.
  - reflexivity.
Qed.


Lemma durable_size_bounded_witness :
  (∀ ok obj, (savePersistentCache 5 ok over_cap).2 = Some obj →
     Z.of_nat (size obj) ≤ 2)
  ∧ Z.of_nat (size (_persistentCache (savePersistentCache 5 true over_cap).1))
    ≤ 2
  ∧ _persistentCache (savePersistentCache 5 false over_cap).1 = ∅.
Proof.
  apply (durable_size_bounded over_cap 5). simpl. lia.
Defined.

(** ** The stamps and the values of a written blob *)

Lemma save_loop_stamp max now entries obj count :
  map_Forall (λ _ e, Entry.t e = now) obj →
  map_Forall (λ _ e, Entry.t e = now) (save_loop max now entries obj count).
Proof.
  revert obj count.
  induction entries as [|[k val] rest IH]; intros obj count Hobj; simpl.
  - done.
  - destruct (max <=? count); [done|].
    destruct (truthy val); [|by apply IH].
    apply IH. by apply map_Forall_insert_2.
Qed.

Lemma save_loop_truthy max now entries obj count :
  map_Forall (λ _ e, truthy (Entry.v e) = true) obj →
  map_Forall (λ _ e, truthy (Entry.v e) = true)
    (save_loop max now entries obj count).
Proof.
  revert obj count.
  induction entries as [|[k val] rest IH]; intros obj count Hobj; simpl.
  - done.
  - destruct (max <=? count); [done|].
    destruct (truthy val) eqn:Hval; [|by apply IH].
    apply IH. by apply map_Forall_insert_2.
Qed.

(** ** C3: what the provider adapter yields *)

(** C3, as stated, fails: a public response of three per-input arrays for
    two texts sent does not yield the empty list but the one merged string
    of the fallback branch, and a cloud response with one translation for
    two texts yields that one translation. In the flush, the first of the
    two callers is then resolved with the merged string and only the
    second with the empty string. *)
Lemma adapter_merges_on_count_mismatch :
  parse_response false 2 three_segments = [JStr "abc"]
  ∧ parse_response false 2 three_segments ≠ []
  ∧ parse_response true 2 one_translation = [JStr "x"]
  ∧ (pendingFlushTimerFired (λ _, three_segments) 5
       (burst [(1%nat, "x"%string, "en"%string);
               (2%nat, "y"%string, "en"%string)] initial)).1.2
    = [(1%nat, JStr "abc"); (2%nat, JS.empty)].
Proof.
  split; [reflexivity|]. split; [discriminate|]. split; [reflexivity|].
  by vm_compute.
Qed.

(** C3, amended. For both variants the adapter step yields the empty list
    when the call throws, when the status is not a success, when the body
    does not parse, and when the payload lacks the expected array (public:
    an array whose first element is an array; cloud: an array under
    [data.translations]). The count is not a reason for an empty list: the
    cloud variant does not look at the number of texts sent, and a public
    response whose first-level count differs from that number takes the
    fallback branch, which yields the one string joined from the first-level
    segments (or nothing when reading them throws). *)
Theorem adapter_results (cloud : bool) (n : nat) :
  parse_response cloud n NetworkError = []
  ∧ (∀ body, parse_response cloud n (Response false body) = [])
  ∧ parse_response cloud n (Response true None) = []
  ∧ (∀ data, (∀ d0 rest, data ≠ JArr (JArr d0 :: rest)) →
       parse_response false n (Response true (Some data)) = [])
  ∧ (∀ data,
       (∀ d ts, get_prop "data" data = Some d →
                get_prop "translations" d ≠ Some (JArr ts)) →
       parse_response true n (Response true (Some data)) = [])
  ∧ (∀ resp m, parse_response true n resp = parse_response true m resp)
  ∧ (∀ d0 rest, length d0 ≠ n →
       parse_response false n (Response true (Some (JArr (JArr d0 :: rest))))
       = match join_segments (JArr d0) with Some r => [r] | None => [] end).
Proof.
  repeat split.
  - intros data Hshape. simpl. unfold public_results.
    destruct data as [| | | | |[|[| | | | |d0|] rest]|]; try done.
    by destruct (Hshape d0 rest).
  - intros data Hshape. simpl. unfold cloud_results.
    destruct (truthy data); [|done].
    destruct (get_prop "data" data) as [d|] eqn:Hd; [|done]. simpl.
    destruct (truthy d); [|done].
    destruct (get_prop "translations" d) as [tr|] eqn:Htr; [|done]. simpl.
    destruct tr; try done. by destruct (Hshape d xs).
  - intros d0 rest Hlen. simpl.
    rewrite bool_decide_eq_false_2, andb_false_r by done.
    by destruct (join_segments (JArr d0)).
Qed.

Lemma adapter_results_witness :
  parse_response false 2 (Response true (Some (JStr "oops"))) = []
  ∧ parse_response true 2 (Response true (Some (JStr "oops"))) = []
  ∧ parse_response false 2 three_segments
    = match join_segments
              (JArr [JArr [JStr "a"]; JArr [JStr "b"]; JArr [JStr "c"]])
      with Some r => [r] | None => [] end.
Proof.
  split; [|split].
  - apply (adapter_results false 2). intros d0 rest. discriminate.
  - apply (adapter_results true 2). intros d ts [= <-]. discriminate.
  - apply (adapter_results false 2). simpl. lia.
Defined.

(** ** The cache check of [doTranslate] *)

(** For a key that is not in the fast tier, the cache check returns a value
    exactly when the mirror holds an entry with a non-empty value under the
    key: it returns that value and promotes it into the fast tier. Neither
    the time nor the TTL is read; in every other case the request is
    queued. Which entries the mirror can hold outside the fast tier when a
    request arrives depends on how the storage write of a persistence flush
    interleaves with the reload its change event triggers. *)
Lemma lookup_promotes_durable (resolve : nat) (text target : string)
    (st : state) :
  text ≠ "" → target ≠ "" →
  JSMap.has (cache_key (USE_CLOUD st) text target) (_inMemoryCache st)
  = false →
  let key := cache_key (USE_CLOUD st) text target in
  (∀ e, _persistentCache st !! key = Some e → truthy (Entry.v e) = true →
     doTranslate resolve text target st
     = (promote key (Entry.v e) st, Returned (Entry.v e)))
  ∧ (∀ x, (doTranslate resolve text target st).2 = Returned x →
       ∃ e, _persistentCache st !! key = Some e
            ∧ truthy (Entry.v e) = true ∧ x = Entry.v e).
Proof.
  intros Htext Htarget Hfast key. unfold doTranslate.
  rewrite (eqb_empty_false _ Htext), (eqb_empty_false _ Htarget). simpl.
  fold key. fold key in Hfast. rewrite Hfast. split.
  - intros e -> ->. done.
  - intros x. destruct (_persistentCache st !! key) as [e|]; [|done].
    destruct (truthy (Entry.v e)) eqn:Hv; [|done].
    intros [= <-]. by exists e.
Qed.

Lemma lookup_promotes_durable_witness :
  doTranslate 7 "shalom" "en" after_race
  = (promote "public|shalom||en" (JStr "hello") after_race,
     Returned (JStr "hello"))
  ∧ ∃ e, _persistentCache after_race !! "public|shalom||en"%string = Some e
         ∧ truthy (Entry.v e) = true ∧ JStr "hello" = Entry.v e.
Proof.
  destruct (lookup_promotes_durable 7 "shalom" "en" after_race)
    as [Hpromote Honly].
  - discriminate.
  - discriminate.
  - reflexivity.
  - split.
    + apply (Hpromote (Entry.mk (JStr "hello") 2000)).
      * by vm_compute.
      * reflexivity.
    + apply (Honly (JStr "hello")). by vm_compute.
Defined.

(** ** The writes of a flush *)

Section writes_facts.
Context (R : jsval → Prop) (K : string → Prop) (now : Z).

Lemma writes_trans st1 st2 st3 :
  writes R K now st1 st2 → writes R K now st2 st3 → writes R K now st1 st3.
Proof.
  intros H12 H23. induction H23.
  - done.
  - by eapply writes_promote.
  - by eapply writes_store.
  - by eapply writes_arm.
Qed.

(** The writes touch the two tiers and the save timer only. *)
Lemma writes_frame st st' :
  writes R K now st st' →
  pendingRequests st' = pendingRequests st
  ∧ pendingFlushTimer st' = pendingFlushTimer st
  ∧ USE_CLOUD st' = USE_CLOUD st
  ∧ GOOGLE_API_KEY st' = GOOGLE_API_KEY st
  ∧ MAX_PERSIST_ENTRIES st' = MAX_PERSIST_ENTRIES st
  ∧ CACHE_TTL_DAYS st' = CACHE_TTL_DAYS st.
Proof.
  induction 1 as [|st' key e _ IH|st' key x _ IH|st' _ IH]; try done.
  unfold scheduleSavePersistentCache. by destruct (_saveTimer st').
Qed.

(** A key outside [K] reads the same in both tiers. *)
Lemma writes_other_key st st' k :
  writes R K now st st' → ¬ K k →
  JSMap.get k (_inMemoryCache st') = JSMap.get k (_inMemoryCache st)
  ∧ _persistentCache st' !! k = _persistentCache st !! k.
Proof.
  intros H Hk.
  induction H as [|st' key e _ IH HK|st' key x _ IH HK|st' _ IH].
  - done.
  - simpl. rewrite get_set_ne; [done|]. by intros ->.
  - simpl. assert (key ≠ k) by (by intros ->).
    by rewrite get_set_ne, lookup_insert_ne.
  - unfold scheduleSavePersistentCache. by destruct (_saveTimer st').
Qed.

(** Only non-empty values are written. *)
Lemma writes_truthy st st' :
  writes R K now st st' →
  (∀ k x, JSMap.get k (_inMemoryCache st') = Some x →
     JSMap.get k (_inMemoryCache st) = Some x ∨ truthy x = true)
  ∧ (∀ k e, _persistentCache st' !! k = Some e →
       _persistentCache st !! k = Some e ∨ truthy (Entry.v e) = true).
Proof.
  induction 1 as [|st' key e _ [IH1 IH2] _ He Hv
                  |st' key x _ [IH1 IH2] _ Hx|st' _ IH].
  - split; auto.
  - split; [|done]. intros k x. simpl. rewrite get_set.
    destruct (decide (key = k)); [|by auto]. intros [= <-]. by right.
  - split.
    + intros k y. simpl. rewrite get_set.
      destruct (decide (key = k)); [|by auto]. intros [= <-]. by right.
    + intros k e. simpl. rewrite lookup_insert.
      destruct (decide (key = k)); [|by auto]. intros [= <-]. by right.
  - unfold scheduleSavePersistentCache. by destruct (_saveTimer st').
Qed.

(** When nothing non-empty is provided, an uncached key stays out of the
    fast tier and its mirror entry is as before. *)
Lemma writes_uncached st st' k :
  writes R K now st st' → (∀ x, R x → truthy x = false) →
  uncached k st →
  JSMap.get k (_inMemoryCache st') = None
  ∧ _persistentCache st' !! k = _persistentCache st !! k.
Proof.
  intros H HR [Hfast Hpc]. apply has_false in Hfast.
  induction H as [|st' key e _ [IH1 IH2] _ He Hv
                  |st' key x _ [IH1 IH2] _ Hx Hsrc|st' _ IH].
  - done.
  - simpl. rewrite get_set. destruct (decide (key = k)) as [->|]; [|done].
    rewrite IH2 in He. apply Hpc in He. congruence.
  - simpl. rewrite get_set, lookup_insert.
    destruct (decide (key = k)) as [->|]; [|done].
    destruct Hsrc as [Hsrc|Hsrc].
    + apply HR in Hsrc. congruence.
    + congruence.
  - unfold scheduleSavePersistentCache. by destruct (_saveTimer st').
Qed.

(** Where the values of the two tiers come from. *)
Lemma writes_origin st st' :
  writes R K now st st' →
  (∀ k x, JSMap.get k (_inMemoryCache st') = Some x →
     R x ∨ cached_value st x)
  ∧ (∀ k e, _persistentCache st' !! k = Some e →
       R (Entry.v e) ∨ cached_value st (Entry.v e)).
Proof.
  induction 1 as [|st' key e _ [IH1 IH2] _ He Hv
                  |st' key x _ [IH1 IH2] _ Hx Hsrc|st' _ IH].
  - split.
    + intros k x Hk. right. left. by exists k.
    + intros k e Hk. right. right. by exists k, e.
  - split; [|done]. intros k x. simpl. rewrite get_set.
    destruct (decide (key = k)); [|by eauto]. intros [= <-]. eauto.
  - assert (Hx' : R x ∨ cached_value st x).
    { destruct Hsrc as [?|Hget]; [by left|]. eauto. }
    split.
    + intros k y. simpl. rewrite get_set.
      destruct (decide (key = k)); [|by eauto]. by intros [= <-].
    + intros k e. simpl. rewrite lookup_insert.
      destruct (decide (key = k)); [|by eauto]. by intros [= <-].
  - unfold scheduleSavePersistentCache. by destruct (_saveTimer st').
Qed.

End writes_facts.

(** ** The loops of a flush as writes *)

Lemma dedupe_subseteq seen items u : u ∈ dedupe seen items → u ∈ items.
Proof.
  revert seen. induction items as [|it rest IH]; intros seen; simpl; [done|].
  destruct (decide (Item.key it ∈ seen)).
  - intros Hu. apply elem_of_cons. right. by eapply IH.
  - rewrite !elem_of_cons. intros [->|Hu]; [by left|]. right. by eapply IH.
Qed.

Lemma recheck_writes R (K : string → Prop) now unique st st1 tt ti :
  recheck unique st = (st1, tt, ti) →
  (∀ u, u ∈ unique → K (Item.key u)) →
  writes R K now st st1.
Proof.
  revert st st1 tt ti.
  induction unique as [|it rest IH]; intros st st1 tt ti Hre HK.
  - injection Hre as <- _ _. apply writes_none.
  - assert (HKit : K (Item.key it)) by (apply HK, elem_of_cons; by left).
    assert (HKrest : ∀ u, u ∈ rest → K (Item.key u)).
    { intros u Hu. apply HK, elem_of_cons. by right. }
    simpl in Hre.
    destruct (JSMap.has (Item.key it) (_inMemoryCache st)) eqn:Hhas.
    { by eapply IH. }
    destruct (_persistentCache st !! Item.key it) as [[v t]|] eqn:Hpc.
    + destruct (truthy v) eqn:Hv.
      * eapply writes_trans; [|by eapply IH].
        by apply (writes_promote R K now st st (Item.key it) (Entry.mk v t));
          [apply writes_none|..].
      * destruct (recheck rest st) as [[st' tt'] ti'] eqn:Hrest.
        injection Hre as <- _ _. by eapply IH.
    + destruct (recheck rest st) as [[st' tt'] ti'] eqn:Hrest.
      injection Hre as <- _ _. by eapply IH.
Qed.

Lemma from_results_cases results translateIndex key :
  from_results results translateIndex key = JS.empty
  ∨ from_results results translateIndex key ∈ results.
Proof.
  unfold from_results. destruct (indexOf key translateIndex) as [idx|]; [|by left].
  destruct (results !! idx) as [x|] eqn:Hx; [|by left].
  destruct (is_undefined x); [by left|]. right.
  by eapply list_elem_of_lookup_2.
Qed.


Lemma resolve_one_eq now results translateIndex items u st :
  resolve_one now results translateIndex items u st
  = (let x := translated_for results translateIndex (Item.key u) st in
     (if truthy x then store now (Item.key u) x st else st,
      items ≫= λ it, if decide (Item.key it = Item.key u)
                     then (λ r, (r, x)) <$> Item.resolvers it else [])).
Proof. reflexivity. Qed.

Lemma translated_for_cases results translateIndex key st :
  let x := translated_for results translateIndex key st in
  x = JS.empty ∨ x ∈ results ∨ JSMap.get key (_inMemoryCache st) = Some x.
Proof.
  unfold translated_for.
  destruct (negb _ && JSMap.has key (_inMemoryCache st)) eqn:Hc.
  - apply andb_true_iff in Hc as [_ Hhas]. apply has_true in Hhas as [y Hy].
    right. right. by rewrite Hy.
  - destruct (from_results_cases results translateIndex key); auto.
Qed.

Lemma translated_for_truthy results translateIndex key st :
  let x := translated_for results translateIndex key st in
  truthy x = true → x ∈ results ∨ JSMap.get key (_inMemoryCache st) = Some x.
Proof.
  intros x Hx. destruct (translated_for_cases results translateIndex key st)
    as [He|[?|?]]; auto.
  fold x in He. rewrite He in Hx. done.
Qed.

Lemma resolve_one_writes (R : jsval → Prop) (K : string → Prop) now results
    translateIndex items u st :
  K (Item.key u) → (∀ x, x ∈ results → R x) →
  writes R K now st (resolve_one now results translateIndex items u st).1.
Proof.
  intros HK HR. rewrite resolve_one_eq. simpl.
  destruct (truthy (translated_for _ _ _ _)) eqn:Hx; [|apply writes_none].
  apply writes_store; [apply writes_none|done..|].
  destruct (translated_for_truthy _ _ _ _ Hx); auto.
Qed.

Lemma resolve_all_cons now results translateIndex items u rest st :
  resolve_all now results translateIndex items (u :: rest) st
  = (let '(st1, evs1) :=
       resolve_one now results translateIndex items u st in
     let '(st2, evs2) :=
       resolve_all now results translateIndex items rest st1 in
     (st2, evs1 ++ evs2)).
Proof. reflexivity. Qed.

Lemma flush_groups_cons fetch now g rest st :
  flush_groups fetch now (g :: rest) st
  = (let '(st1, evs1, calls1) := flush_group fetch now g st in
     let '(st2, evs2, calls2) := flush_groups fetch now rest st1 in
     (st2, evs1 ++ evs2, calls1 ++ calls2)).
Proof. reflexivity. Qed.

Lemma resolve_all_writes (R : jsval → Prop) (K : string → Prop) now results
    translateIndex items unique st :
  (∀ u, u ∈ unique → K (Item.key u)) → (∀ x, x ∈ results → R x) →
  writes R K now st
    (resolve_all now results translateIndex items unique st).1.
Proof.
  revert st. induction unique as [|u rest IH]; intros st HK HR.
  - apply writes_none.
  - rewrite resolve_all_cons.
    pose proof (resolve_one_writes R K now results translateIndex items u st)
      as H1.
    destruct (resolve_one now results translateIndex items u st)
      as [st1 evs1].
    specialize (IH st1).
    destruct (resolve_all now results translateIndex items rest st1)
      as [st2 evs2].
    simpl in *. eapply writes_trans.
    + apply H1; [|done]. apply HK, elem_of_cons. by left.
    + apply IH; [|done]. intros u' Hu'. apply HK, elem_of_cons. by right.
Qed.

Lemma build_request_q st target toTranslate :
  req_q (build_request st target toTranslate) = toTranslate
  ∧ req_target (build_request st target toTranslate) = target.
Proof. unfold build_request. by destruct (_ && _). Qed.


Lemma flush_group_eq fetch now target items st :
  flush_group fetch now (target, items) st
  = (let unique := dedupe ∅ items in
     let '(st1, toTranslate, translateIndex) := recheck unique st in
     let '(st2, evs) :=
       resolve_all now (group_results fetch st1 target toTranslate)
         translateIndex items unique st1 in
     (scheduleSavePersistentCache st2, evs,
      group_calls st1 target toTranslate)).
Proof. reflexivity. Qed.

Lemma group_results_provided fetch st1 target toTranslate x :
  x ∈ group_results fetch st1 target toTranslate →
  provided fetch (group_calls st1 target toTranslate) x.
Proof.
  unfold group_results, group_calls, provided.
  destruct toTranslate as [|q qs]; [by intros ?%elem_of_nil|].
  intros Hx. eexists. split; [apply list_elem_of_singleton; reflexivity|].
  by destruct (build_request_q st1 target (q :: qs)) as [-> _].
Qed.

Lemma flush_group_writes (R : jsval → Prop) (K : string → Prop) fetch now
    target items st :
  (∀ it, it ∈ items → K (Item.key it)) →
  (∀ x, provided fetch (flush_group fetch now (target, items) st).2 x → R x) →
  writes R K now st (flush_group fetch now (target, items) st).1.1.
Proof.
  intros HK HR. rewrite flush_group_eq in *. cbv zeta in *.
  destruct (recheck (dedupe ∅ items) st) as [[st1 tt] ti] eqn:Hre.
  pose proof (resolve_all_writes R K now (group_results fetch st1 target tt)
    ti items (dedupe ∅ items) st1) as H2.
  destruct (resolve_all now _ ti items (dedupe ∅ items) st1) as [st2 evs].
  simpl in *. apply writes_arm. eapply writes_trans.
  - eapply recheck_writes; [done|].
    intros u Hu. by apply HK, (dedupe_subseteq ∅).
  - apply H2.
    + intros u Hu. by apply HK, (dedupe_subseteq ∅).
    + intros x Hx. by apply HR, group_results_provided.
Qed.

Lemma provided_app fetch calls1 calls2 x :
  provided fetch (calls1 ++ calls2) x
  ↔ provided fetch calls1 x ∨ provided fetch calls2 x.
Proof.
  unfold provided. split.
  - intros (c & Hc & Hx). apply elem_of_app in Hc as [?|?]; eauto.
  - intros [(c & Hc & Hx)|(c & Hc & Hx)]; exists c;
      (split; [apply elem_of_app; auto|done]).
Qed.

Lemma flush_groups_writes (R : jsval → Prop) (K : string → Prop) fetch now
    groups st :
  (∀ g it, g ∈ groups → it ∈ g.2 → K (Item.key it)) →
  (∀ x, provided fetch (flush_groups fetch now groups st).2 x → R x) →
  writes R K now st (flush_groups fetch now groups st).1.1.
Proof.
  revert st. induction groups as [|[target items] rest IH]; intros st HK HR.
  - apply writes_none.
  - rewrite flush_groups_cons in *.
    pose proof (flush_group_writes R K fetch now target items st) as H1.
    destruct (flush_group fetch now (target, items) st)
      as [[st1 evs1] calls1].
    specialize (IH st1).
    destruct (flush_groups fetch now rest st1) as [[st2 evs2] calls2].
    simpl in *. eapply writes_trans.
    + apply H1.
      * intros it Hit. apply (HK (target, items)); [|done].
        apply elem_of_cons. by left.
      * intros x Hx. apply HR, provided_app. by left.
    + apply IH.
      * intros g it Hg. apply HK, elem_of_cons. by right.
      * intros x Hx. apply HR, provided_app. by right.
Qed.

(** ** Every waiting resolver is called once *)

Lemma bind_const_nil {A B} (l : list A) : l ≫= (λ _, @nil B) = [].
Proof. induction l as [|a l IH]; [done|]. by rewrite bind_cons, IH. Qed.

Lemma bind_app_perm {A B} (f g : A → list B) (l : list A) :
  l ≫= (λ a, f a ++ g a) ≡ₚ (l ≫= f) ++ (l ≫= g).
Proof.
  induction l as [|a l IH]; [done|].
  rewrite !bind_cons, IH.
  rewrite <- !(assoc_L (++)). f_equiv.
  rewrite !(assoc_L (++)). f_equiv. apply Permutation_app_comm.
Qed.

Lemma bind_one_hit {B} (ks : list string) (k0 : string) (a : list B) :
  NoDup ks → k0 ∈ ks →
  ks ≫= (λ k, if decide (k0 = k) then a else []) = a.
Proof.
  induction ks as [|k ks IH]; intros Hnd Hin; [by apply elem_of_nil in Hin|].
  apply NoDup_cons in Hnd as [Hk Hnd]. rewrite bind_cons.
  destruct (decide (k0 = k)) as [->|Hne].
  - assert (Hrest : ks ≫= (λ k', if decide (k = k') then a else []) = []).
    { clear IH Hin Hnd. induction ks as [|k' ks IH]; [done|].
      apply not_elem_of_cons in Hk as [Hne Hk].
      rewrite bind_cons, decide_False by done. by apply IH. }
    by rewrite Hrest, app_nil_r.
  - apply elem_of_cons in Hin as [?|Hin]; [done|]. simpl. by apply IH.
Qed.

Lemma group_resolvers_perm (ks : list string) (items : list item) :
  NoDup ks → (∀ it, it ∈ items → Item.key it ∈ ks) →
  ks ≫= (λ k, items ≫= λ it, if decide (Item.key it = k)
                              then Item.resolvers it else [])
  ≡ₚ items ≫= Item.resolvers.
Proof.
  intros Hnd. induction items as [|it rest IH]; intros Hin.
  - change (ks ≫= (λ _, @nil nat) ≡ₚ []). by rewrite bind_const_nil.
  - rewrite bind_cons.
    trans ((ks ≫= λ k, if decide (Item.key it = k)
                       then Item.resolvers it else [])
           ++ (ks ≫= λ k, rest ≫= λ it', if decide (Item.key it' = k)
                                          then Item.resolvers it' else [])).
    + rewrite <- bind_app_perm. apply reflexive_eq.
      apply list_bind_ext; [|done]. intros k. by rewrite bind_cons.
    + rewrite bind_one_hit by (try done; apply Hin, elem_of_cons; by left).
      rewrite IH; [done|].
      intros it' Hit'. apply Hin, elem_of_cons. by right.
Qed.

Lemma dedupe_keys seen items :
  NoDup (Item.key <$> dedupe seen items)
  ∧ (∀ u, u ∈ dedupe seen items → Item.key u ∉ seen)
  ∧ (∀ it, it ∈ items →
       Item.key it ∈ seen ∨ Item.key it ∈ Item.key <$> dedupe seen items).
Proof.
  revert seen. induction items as [|it rest IH]; intros seen; simpl.
  - split; [apply NoDup_nil_2|]. split; intros ? []%elem_of_nil.
  - destruct (decide (Item.key it ∈ seen)) as [Hin|Hnot].
    + destruct (IH seen) as (Hnd & Hseen & Hcov).
      split; [done|]. split; [done|].
      intros it' [->|Hit']%elem_of_cons; [by left|by apply Hcov].
    + destruct (IH ({[Item.key it]} ∪ seen)) as (Hnd & Hseen & Hcov).
      split; [|split].
      * rewrite fmap_cons. apply NoDup_cons. split; [|done].
        intros (u & Hku & Hu)%list_elem_of_fmap.
        apply Hseen in Hu. rewrite <- Hku in Hu.
        apply Hu, elem_of_union. left. by apply elem_of_singleton.
      * intros u [->|Hu]%elem_of_cons; [done|].
        apply Hseen in Hu. intros Hin. apply Hu, elem_of_union. by right.
      * intros it' [->|Hit']%elem_of_cons.
        -- right. rewrite fmap_cons. apply elem_of_cons. by left.
        -- destruct (Hcov it' Hit') as [Hs|Hd].
           ++ apply elem_of_union in Hs as [Hs|Hs]; [|by left].
              apply elem_of_singleton in Hs. right. rewrite fmap_cons, Hs.
              apply elem_of_cons. by left.
           ++ right. rewrite fmap_cons. apply elem_of_cons. by right.
Qed.

Lemma resolve_one_fst now results translateIndex items u st :
  (resolve_one now results translateIndex items u st).2.*1
  = items ≫= λ it, if decide (Item.key it = Item.key u)
                   then Item.resolvers it else [].
Proof.
  rewrite resolve_one_eq. cbv zeta. simpl.
  induction items as [|it rest IH]; [done|].
  rewrite !bind_cons, fmap_app, IH. f_equal.
  destruct (decide _); [|done].
  rewrite <- list_fmap_compose. apply list_fmap_id.
Qed.

Lemma resolve_all_fst now results translateIndex items unique st :
  (resolve_all now results translateIndex items unique st).2.*1
  = unique ≫= λ u, items ≫= λ it, if decide (Item.key it = Item.key u)
                                   then Item.resolvers it else [].
Proof.
  revert st. induction unique as [|u rest IH]; intros st; [done|].
  rewrite resolve_all_cons, bind_cons.
  pose proof (resolve_one_fst now results translateIndex items u st) as H1.
  destruct (resolve_one now results translateIndex items u st) as [st1 evs1].
  specialize (IH st1).
  destruct (resolve_all now results translateIndex items rest st1)
    as [st2 evs2].
  simpl in *. by rewrite fmap_app, H1, IH.
Qed.

Lemma flush_group_fst fetch now target items st :
  (flush_group fetch now (target, items) st).1.2.*1
  ≡ₚ items ≫= Item.resolvers.
Proof.
  rewrite flush_group_eq. cbv zeta.
  destruct (recheck (dedupe ∅ items) st) as [[st1 tt] ti].
  pose proof (resolve_all_fst now (group_results fetch st1 target tt) ti
    items (dedupe ∅ items) st1) as H2.
  destruct (resolve_all now _ ti items (dedupe ∅ items) st1) as [st2 evs].
  simpl in *. rewrite H2.
  destruct (dedupe_keys ∅ items) as (Hnd & _ & Hcov).
  rewrite <- (group_resolvers_perm (Item.key <$> dedupe ∅ items) items).
  - by rewrite list_fmap_bind.
  - done.
  - intros it Hit. destruct (Hcov it Hit) as [Hs|?]; [set_solver|done].
Qed.

Lemma flush_groups_fst fetch now groups st :
  (flush_groups fetch now groups st).1.2.*1
  ≡ₚ groups ≫= λ g, g.2 ≫= Item.resolvers.
Proof.
  revert st. induction groups as [|[target items] rest IH]; intros st; [done|].
  rewrite flush_groups_cons, bind_cons.
  pose proof (flush_group_fst fetch now target items st) as H1.
  destruct (flush_group fetch now (target, items) st) as [[st1 evs1] calls1].
  specialize (IH st1).
  destruct (flush_groups fetch now rest st1) as [[st2 evs2] calls2].
  simpl in *. by rewrite fmap_app, H1, IH.
Qed.

(** ** Grouping by target *)

Lemma byTarget_add_push byTarget kv :
  byTarget_add byTarget kv = group_push (group_key kv.2) (to_item kv) byTarget.
Proof.
  destruct kv as [key e]. unfold byTarget_add, group_key, to_item. simpl.
  generalize (if String.eqb (Pending.target e) "" then "en"%string
              else Pending.target e). intros t.
  generalize (Item.mk key (Pending.text e) (Pending.resolvers e)). intros it.
  induction byTarget as [|[t' its] g IH].
  - unfold JSMap.has. simpl. by rewrite !decide_True.
  - unfold JSMap.has in *. cbn [JSMap.get JSMap.set group_push].
    destruct (decide (t' = t)) as [->|Hne].
    + cbn [JSMap.get JSMap.set]. by rewrite !decide_True.
    + destruct (JSMap.get t g) as [old|] eqn:Hget.
      * cbn [JSMap.get JSMap.set]. rewrite !decide_False by done.
        by rewrite IH.
      * cbn [JSMap.get JSMap.set]. rewrite !decide_False by done.
        by rewrite IH.
Qed.

Lemma group_push_perm t it g :
  group_push t it g ≫= snd ≡ₚ (g ≫= snd) ++ [it].
Proof.
  induction g as [|[t' its] g IH]; simpl; [done|].
  destruct (decide (t' = t)).
  - rewrite !bind_cons. simpl. rewrite <- !(assoc_L (++)). f_equiv.
    apply Permutation_app_comm.
  - rewrite !bind_cons, IH. simpl. by rewrite (assoc_L (++)).
Qed.

Lemma group_by_target_perm p :
  group_by_target p ≫= snd ≡ₚ to_item <$> p.
Proof.
  unfold group_by_target.
  assert (Hgen : ∀ g, foldl byTarget_add g p ≫= snd
                      ≡ₚ (g ≫= snd) ++ (to_item <$> p)).
  { induction p as [|kv p IH]; intros g; simpl.
    - by rewrite app_nil_r.
    - rewrite IH, byTarget_add_push, group_push_perm.
      by rewrite <- (assoc_L (++)). }
  by rewrite Hgen.
Qed.

Lemma registered_items st :
  registered st = (to_item <$> pendingRequests st) ≫= Item.resolvers.
Proof. unfold registered. by rewrite list_fmap_bind. Qed.

Lemma bind_bind_snd (groups : list (string * list item)) :
  groups ≫= (λ g, g.2 ≫= Item.resolvers)
  = (groups ≫= snd) ≫= Item.resolvers.
Proof.
  induction groups as [|g groups IH]; [done|].
  by rewrite !bind_cons, bind_app, IH.
Qed.

Lemma flush_fst fetch now st :
  (flushPendingRequests fetch now st).1.2.*1 ≡ₚ registered st.
Proof.
  unfold flushPendingRequests. rewrite registered_items.
  destruct (pendingRequests st) as [|kv p] eqn:Hp; [done|].
  rewrite flush_groups_fst, bind_bind_snd.
  by rewrite group_by_target_perm.
Qed.

(** ** What a resolver is called with *)

Lemma writes_cached_value R K now st st' y :
  writes R K now st st' → cached_value st' y → R y ∨ cached_value st y.
Proof.
  intros Hw [[k Hk]|(k & e & Hk & <-)].
  - by apply (proj1 (writes_origin R K now st st' Hw) k).
  - by apply (proj2 (writes_origin R K now st st' Hw) k).
Qed.

Lemma resolve_one_values now results translateIndex items u st ev :
  ev ∈ (resolve_one now results translateIndex items u st).2 →
  ev.2 = translated_for results translateIndex (Item.key u) st
  ∧ ∃ it, it ∈ items ∧ Item.key it = Item.key u ∧ ev.1 ∈ Item.resolvers it.
Proof.
  rewrite resolve_one_eq. cbv zeta. simpl.
  intros (it & Hev & Hit)%list_elem_of_bind.
  destruct (decide (Item.key it = Item.key u)); [|by apply elem_of_nil in Hev].
  apply list_elem_of_fmap in Hev as (r & -> & Hr). split; [done|].
  by exists it.
Qed.

Lemma resolve_all_values (R : jsval → Prop) (K : string → Prop) now results
    translateIndex items unique st ev :
  (∀ u, u ∈ unique → K (Item.key u)) → (∀ x, x ∈ results → R x) →
  ev ∈ (resolve_all now results translateIndex items unique st).2 →
  ev.2 = JS.empty ∨ R ev.2 ∨ cached_value st ev.2.
Proof.
  revert st. induction unique as [|u rest IH]; intros st HK HR.
  { by intros ?%elem_of_nil. }
  rewrite resolve_all_cons.
  pose proof (resolve_one_values now results translateIndex items u st ev)
    as H1.
  pose proof (resolve_one_writes R K now results translateIndex items u st)
    as Hw.
  destruct (resolve_one now results translateIndex items u st) as [st1 evs1].
  specialize (IH st1).
  destruct (resolve_all now results translateIndex items rest st1)
    as [st2 evs2].
  simpl in *. intros [Hev|Hev]%elem_of_app.
  - destruct (H1 Hev) as [Hv _]. rewrite Hv.
    destruct (translated_for_cases results translateIndex (Item.key u) st)
      as [?|[?|?]]; [by left|right; left; by apply HR|].
    right. right. left. by exists (Item.key u).
  - assert (HKrest : ∀ u', u' ∈ rest → K (Item.key u')).
    { intros u' Hu'. apply HK, elem_of_cons. by right. }
    destruct (IH HKrest HR Hev) as [?|[?|Hc]]; [by left|by right; left|].
    apply (writes_cached_value R K now st st1) in Hc as [?|?];
      [by right; left|by right; right|].
    apply Hw; [|done]. apply HK, elem_of_cons. by left.
Qed.

Lemma flush_group_values (R : jsval → Prop) fetch now target items st ev :
  (∀ x, provided fetch (flush_group fetch now (target, items) st).2 x → R x) →
  ev ∈ (flush_group fetch now (target, items) st).1.2 →
  ev.2 = JS.empty ∨ R ev.2 ∨ cached_value st ev.2.
Proof.
  rewrite flush_group_eq. cbv zeta.
  destruct (recheck (dedupe ∅ items) st) as [[st1 tt] ti] eqn:Hre.
  pose proof (resolve_all_values R (λ _, True) now
    (group_results fetch st1 target tt) ti items (dedupe ∅ items) st1 ev)
    as H2.
  destruct (resolve_all now _ ti items (dedupe ∅ items) st1) as [st2 evs].
  simpl in *. intros HR Hev.
  assert (HR' : ∀ x, x ∈ group_results fetch st1 target tt → R x).
  { intros x Hx. by apply HR, group_results_provided. }
  destruct (H2 ltac:(done) HR' Hev) as [?|[?|Hc]]; [by left|by right; left|].
  apply (writes_cached_value R (λ _, True) now st st1) in Hc as [?|?];
    [by right; left|by right; right|].
  by eapply recheck_writes.
Qed.

Lemma flush_groups_values (R : jsval → Prop) fetch now groups st ev :
  (∀ x, provided fetch (flush_groups fetch now groups st).2 x → R x) →
  ev ∈ (flush_groups fetch now groups st).1.2 →
  ev.2 = JS.empty ∨ R ev.2 ∨ cached_value st ev.2.
Proof.
  revert st. induction groups as [|[target items] rest IH]; intros st.
  { by intros _ ?%elem_of_nil. }
  rewrite flush_groups_cons.
  pose proof (flush_group_values R fetch now target items st ev) as H1.
  pose proof (flush_group_writes R (λ _, True) fetch now target items st)
    as Hw.
  destruct (flush_group fetch now (target, items) st) as [[st1 evs1] calls1].
  specialize (IH st1).
  destruct (flush_groups fetch now rest st1) as [[st2 evs2] calls2].
  simpl in *. intros HR [Hev|Hev]%elem_of_app.
  - apply H1; [|done]. intros x Hx. apply HR, provided_app. by left.
  - assert (HR2 : ∀ x, provided fetch calls2 x → R x).
    { intros x Hx. apply HR, provided_app. by right. }
    destruct (IH HR2 Hev) as [?|[?|Hc]]; [by left|by right; left|].
    apply (writes_cached_value R (λ _, True) now st st1) in Hc as [?|?];
      [by right; left|by right; right|].
    apply Hw; [done|]. intros x Hx. apply HR, provided_app. by left.
Qed.

Lemma flush_pending fetch now st :
  pendingRequests (flushPendingRequests fetch now st).1.1 = [].
Proof.
  unfold flushPendingRequests.
  destruct (pendingRequests st) as [|kv p] eqn:Hp; [done|].
  pose proof (flush_groups_writes (λ _, True) (λ _, True) fetch now
    (group_by_target (kv :: p)) (with_pendingRequests [] st)
    ltac:(done) ltac:(done)) as Hw.
  by apply writes_frame in Hw as [-> _].
Qed.

(** ** C2: every resolver of a flushed item is called exactly once *)

(** C2. Whatever the provider does (the call throws, the status is not a
    success, the body is malformed or short), a flush calls the resolvers
    that were waiting, each as many times as it was registered (once), and
    leaves nothing pending. The argument of each call is the empty string,
    or a value the adapter read from an outbound call of this flush, or a
    value one of the two tiers held when the flush began. *)
Theorem resolvers_called_once (fetch : request → response) (now : Z)
    (st : state) :
  let '(st', evs, calls) := flushPendingRequests fetch now st in
  evs.*1 ≡ₚ registered st
  ∧ pendingRequests st' = []
  ∧ Forall (λ ev, ev.2 = JS.empty ∨ provided fetch calls ev.2
                  ∨ cached_value st ev.2) evs.
Proof.
  pose proof (flush_fst fetch now st) as Hfst.
  pose proof (flush_pending fetch now st) as Hpend.
  assert (Hval : ∀ ev, ev ∈ (flushPendingRequests fetch now st).1.2 →
    ev.2 = JS.empty
    ∨ provided fetch (flushPendingRequests fetch now st).2 ev.2
    ∨ cached_value st ev.2).
  { intros ev. unfold flushPendingRequests.
    destruct (pendingRequests st) as [|kv p] eqn:Hp.
    { by intros ?%elem_of_nil. }
    intros Hev.
    by apply (flush_groups_values
      (provided fetch (flush_groups fetch now (group_by_target (kv :: p))
                         (with_pendingRequests [] st)).2)
      fetch now _ _ ev) in Hev. }
  destruct (flushPendingRequests fetch now st) as [[st' evs] calls].
  simpl in *. split; [done|]. split; [done|]. by apply Forall_forall.
Qed.

(** ** The resolvers of one item are called with one value *)

Lemma resolve_all_same now results translateIndex items unique st u :
  u ∈ unique →
  ∃ x, ∀ it r, it ∈ items → Item.key it = Item.key u →
    r ∈ Item.resolvers it →
    (r, x) ∈ (resolve_all now results translateIndex items unique st).2.
Proof.
  revert st. induction unique as [|u' rest IH]; intros st Hu.
  { by apply elem_of_nil in Hu. }
  rewrite resolve_all_cons.
  pose proof (resolve_one_eq now results translateIndex items u' st) as H1.
  destruct (resolve_one now results translateIndex items u' st)
    as [st1 evs1].
  specialize (IH st1).
  destruct (resolve_all now results translateIndex items rest st1)
    as [st2 evs2].
  cbv zeta in H1. injection H1 as _ Hevs1. simpl.
  apply elem_of_cons in Hu as [->|Hu].
  - exists (translated_for results translateIndex (Item.key u') st).
    intros it r Hit Hkey Hr. apply elem_of_app. left. rewrite Hevs1.
    apply list_elem_of_bind. exists it. split; [|done].
    rewrite decide_True by done. apply list_elem_of_fmap. by exists r.
  - destruct (IH Hu) as [x Hx]. exists x.
    intros it r Hit Hkey Hr. apply elem_of_app. right. by eapply Hx.
Qed.

Lemma flush_group_same fetch now target items st it :
  it ∈ items →
  ∃ x, ∀ r, r ∈ Item.resolvers it →
    (r, x) ∈ (flush_group fetch now (target, items) st).1.2.
Proof.
  intros Hit. rewrite flush_group_eq. cbv zeta.
  destruct (recheck (dedupe ∅ items) st) as [[st1 tt] ti].
  destruct (dedupe_keys ∅ items) as (_ & _ & Hcov).
  destruct (Hcov it Hit) as [Hs|Hk]; [by apply not_elem_of_empty in Hs|].
  apply list_elem_of_fmap in Hk as (u & Hku & Hu).
  destruct (resolve_all_same now (group_results fetch st1 target tt) ti items
    (dedupe ∅ items) st1 u Hu) as [x Hx].
  destruct (resolve_all now _ ti items (dedupe ∅ items) st1) as [st2 evs].
  simpl in *. exists x. intros r Hr. by eapply Hx.
Qed.

Lemma flush_groups_same fetch now groups st g it :
  g ∈ groups → it ∈ g.2 →
  ∃ x, ∀ r, r ∈ Item.resolvers it →
    (r, x) ∈ (flush_groups fetch now groups st).1.2.
Proof.
  revert st. induction groups as [|[target items] rest IH]; intros st Hg Hit.
  { by apply elem_of_nil in Hg. }
  rewrite flush_groups_cons.
  pose proof (flush_group_same fetch now target items st it) as H1.
  destruct (flush_group fetch now (target, items) st) as [[st1 evs1] calls1].
  specialize (IH st1).
  destruct (flush_groups fetch now rest st1) as [[st2 evs2] calls2].
  simpl in *. apply elem_of_cons in Hg as [->|Hg].
  - destruct (H1 Hit) as [x Hx]. exists x. intros r Hr.
    apply elem_of_app. left. by apply Hx.
  - destruct (IH Hg Hit) as [x Hx]. exists x. intros r Hr.
    apply elem_of_app. right. by apply Hx.
Qed.

Lemma flush_same fetch now st kv :
  kv ∈ pendingRequests st →
  ∃ x, ∀ r, r ∈ Pending.resolvers kv.2 →
    (r, x) ∈ (flushPendingRequests fetch now st).1.2.
Proof.
  intros Hkv. unfold flushPendingRequests.
  destruct (pendingRequests st) as [|kv0 p] eqn:Hp.
  { by apply elem_of_nil in Hkv. }
  assert (Hin : to_item kv ∈ group_by_target (kv0 :: p) ≫= snd).
  { rewrite group_by_target_perm. apply list_elem_of_fmap. by exists kv. }
  apply list_elem_of_bind in Hin as (g & Hit & Hg).
  by apply (flush_groups_same fetch now _ (with_pendingRequests [] st) g
              (to_item kv)).
Qed.

Lemma NoDup_fst_unique {A B} (l : list (A * B)) a b1 b2 :
  NoDup l.*1 → (a, b1) ∈ l → (a, b2) ∈ l → b1 = b2.
Proof.
  induction l as [|[a' b'] l IH]; intros Hnd H1 H2.
  { by apply elem_of_nil in H1. }
  rewrite fmap_cons in Hnd. apply NoDup_cons in Hnd as [Hnot Hnd].
  apply elem_of_cons in H1 as [H1|H1];
    apply elem_of_cons in H2 as [H2|H2]; simplify_eq.
  - done.
  - destruct Hnot. apply list_elem_of_fmap. by exists (a', b2).
  - destruct Hnot. apply list_elem_of_fmap. by exists (a', b1).
  - by apply IH.
Qed.

(** ** What the groups hold *)

Lemma elem_of_get {V} (m : list (string * V)) k x :
  NoDup m.*1 → (k, x) ∈ m → JSMap.get k m = Some x.
Proof.
  intros Hnd Hin. destruct (JSMap.get k m) as [y|] eqn:Hget.
  - apply get_Some_elem_of in Hget. f_equal.
    by eapply NoDup_fst_unique.
  - apply get_None_not_elem_of in Hget. destruct Hget.
    apply list_elem_of_fmap. by exists (k, x).
Qed.

Lemma get_group_push t t' it G :
  JSMap.get t' (group_push t it G)
  = if decide (t = t') then Some (default [] (JSMap.get t G) ++ [it])
    else JSMap.get t' G.
Proof.
  induction G as [|[t0 its] G IH]; simpl.
  - destruct (decide (t = t')); done.
  - destruct (decide (t0 = t)) as [->|Hne]; simpl.
    + destruct (decide (t = t')); done.
    + rewrite IH. destruct (decide (t0 = t')) as [->|?]; [|done].
      by rewrite decide_False.
Qed.

Lemma group_push_fst t it G :
  (group_push t it G).*1 = if decide (t ∈ G.*1) then G.*1 else G.*1 ++ [t].
Proof.
  induction G as [|[t0 its] G IH].
  - done.
  - cbn [group_push]. rewrite (fmap_cons fst _ G). cbn [fst].
    destruct (decide (t0 = t)) as [->|Hne].
    + rewrite fmap_cons. cbn [fst].
      by rewrite decide_True by (apply elem_of_cons; by left).
    + rewrite fmap_cons, IH. cbn [fst].
      destruct (decide (t ∈ G.*1)) as [Hin|Hnot].
      * by rewrite decide_True by (apply elem_of_cons; by right).
      * rewrite decide_False; [done|].
        intros [?|?]%elem_of_cons; [congruence|done].
Qed.

Lemma group_push_NoDup t it G : NoDup G.*1 → NoDup (group_push t it G).*1.
Proof.
  intros Hnd. rewrite group_push_fst. destruct (decide (t ∈ G.*1)); [done|].
  apply NoDup_app. split; [done|]. split; [|apply NoDup_singleton].
  intros k Hk ->%list_elem_of_singleton. done.
Qed.

Lemma foldl_group_NoDup p G :
  NoDup G.*1 → NoDup (foldl byTarget_add G p).*1.
Proof.
  revert G. induction p as [|kv p IH]; intros G Hnd; [done|]. simpl.
  apply IH. rewrite byTarget_add_push. by apply group_push_NoDup.
Qed.

Lemma foldl_group_get p G t :
  JSMap.get t (foldl byTarget_add G p)
  = match JSMap.get t G with
    | Some its =>
        Some (its ++ (to_item <$> filter (λ kv, group_key kv.2 = t) p))
    | None =>
        match to_item <$> filter (λ kv, group_key kv.2 = t) p with
        | [] => None
        | new => Some new
        end
    end.
Proof.
  revert G. induction p as [|kv p IH]; intros G.
  - simpl. destruct (JSMap.get t G); [by rewrite app_nil_r|done].
  - simpl. rewrite IH, byTarget_add_push, get_group_push, filter_cons.
    destruct (decide (group_key kv.2 = t)) as [Heq|Hne].
    + rewrite Heq. rewrite fmap_cons.
      destruct (JSMap.get t G) as [its|]; simpl.
      * by rewrite <- (assoc_L (++)).
      * done.
    + done.
Qed.

Lemma group_by_target_items p t its :
  (t, its) ∈ group_by_target p →
  its = to_item <$> filter (λ kv, group_key kv.2 = t) p.
Proof.
  intros Hin. apply elem_of_get in Hin.
  2:{ apply foldl_group_NoDup, NoDup_nil_2. }
  unfold group_by_target in Hin. rewrite foldl_group_get in Hin. simpl in Hin.
  destruct (to_item <$> filter _ p); by simplify_eq.
Qed.

Lemma group_by_target_covers p kv :
  kv ∈ p →
  ∃ its, (group_key kv.2, its) ∈ group_by_target p ∧ to_item kv ∈ its.
Proof.
  intros Hkv.
  assert (Hin : to_item kv
                ∈ to_item <$> filter (λ kv', group_key kv'.2 = group_key kv.2) p).
  { apply list_elem_of_fmap. exists kv. split; [done|].
    by apply list_elem_of_filter. }
  pose proof (foldl_group_get p [] (group_key kv.2)) as Hget. simpl in Hget.
  destruct (to_item <$> filter _ p) as [|it its] eqn:Hnew.
  { by apply elem_of_nil in Hin. }
  exists (it :: its). split; [|done]. by apply get_Some_elem_of.
Qed.

(** ** The outbound call of the group of a key *)

Lemma filter_none {A} (P : A → Prop) `{!∀ x, Decision (P x)} (l : list A) :
  (∀ x, x ∈ l → ¬ P x) → filter P l = [].
Proof.
  induction l as [|a l IH]; intros Hall; [done|].
  rewrite filter_cons, decide_False by (apply Hall, elem_of_cons; by left).
  apply IH. intros x Hx. apply Hall, elem_of_cons. by right.
Qed.

Lemma uncached_promote k key v st :
  key ≠ k → uncached k st → uncached k (promote key v st).
Proof.
  intros Hne [Hfast Hpc]. split; [|done]. simpl. by rewrite has_set_ne.
Qed.

Lemma uncached_writes R (K : string → Prop) now st st' k :
  writes R K now st st' → ¬ K k → uncached k st → uncached k st'.
Proof.
  intros Hw Hk [Hfast Hpc].
  destruct (writes_other_key R K now st st' k Hw Hk) as [Hf Hp].
  split.
  - apply has_false. rewrite Hf. by apply has_false.
  - by rewrite Hp.
Qed.

Lemma dedupe_id seen items :
  NoDup (Item.key <$> items) → (∀ it, it ∈ items → Item.key it ∉ seen) →
  dedupe seen items = items.
Proof.
  revert seen. induction items as [|it rest IH]; intros seen Hnd Hseen; [done|].
  rewrite fmap_cons in Hnd. apply NoDup_cons in Hnd as [Hnot Hnd]. simpl.
  rewrite decide_False by (apply Hseen, elem_of_cons; by left).
  f_equal. apply IH; [done|].
  intros it' Hit' [Hin|Hin]%elem_of_union.
  - apply elem_of_singleton in Hin. apply Hnot. rewrite <- Hin.
    apply list_elem_of_fmap. by exists it'.
  - revert Hin. apply Hseen, elem_of_cons. by right.
Qed.

Section one_key.
Context (text : string) (k : string).

Lemma recheck_count unique st st1 tt ti :
  recheck unique st = (st1, tt, ti) →
  (∀ it, it ∈ unique → (Item.text it = text ↔ Item.key it = k)) →
  NoDup (Item.key <$> unique) → uncached k st →
  length (filter (λ q, q = text) tt)
  = if decide (k ∈ Item.key <$> unique) then 1%nat else 0%nat.
Proof.
  revert st st1 tt ti.
  induction unique as [|it rest IH]; intros st st1 tt ti Hre Htext Hnd Hun.
  { injection Hre as _ <- _. done. }
  rewrite fmap_cons in Hnd. apply NoDup_cons in Hnd as [Hnot Hnd].
  assert (Hrest : ∀ it', it' ∈ rest →
            (Item.text it' = text ↔ Item.key it' = k)).
  { intros it' Hit'. apply Htext, elem_of_cons. by right. }
  assert (Hit : Item.text it = text ↔ Item.key it = k).
  { apply Htext, elem_of_cons. by left. }
  assert (Hpush : ∀ st' tt' ti', recheck rest st' = (st1, tt', ti') →
            uncached k st' →
            length (filter (λ q, q = text) (Item.text it :: tt'))
            = if decide (k ∈ Item.key <$> it :: rest) then 1%nat else 0%nat).
  { intros st' tt' ti' Hre' Hun'.
    rewrite filter_cons, fmap_cons.
    pose proof (IH _ _ _ _ Hre' Hrest Hnd Hun') as Hc.
    destruct (decide (Item.key it = k)) as [Hk|Hk].
    - rewrite decide_True by tauto. simpl. rewrite Hc.
      rewrite (decide_False (P := k ∈ Item.key <$> rest)) by congruence.
      by rewrite decide_True by (apply elem_of_cons; by left).
    - rewrite decide_False by tauto. rewrite Hc.
      destruct (decide (k ∈ Item.key <$> rest)) as [Hin|Hnin].
      + by rewrite decide_True by (apply elem_of_cons; by right).
      + rewrite decide_False; [done|].
        intros [?|?]%elem_of_cons; [congruence|done]. }
  assert (Hskip : ∀ st', recheck rest st' = (st1, tt, ti) →
            uncached k st' → Item.key it ≠ k →
            length (filter (λ q, q = text) tt)
            = if decide (k ∈ Item.key <$> it :: rest) then 1%nat else 0%nat).
  { intros st' Hre' Hun' Hk.
    rewrite fmap_cons, (IH _ _ _ _ Hre' Hrest Hnd Hun').
    destruct (decide (k ∈ Item.key <$> rest)) as [Hin|Hnin].
    - by rewrite decide_True by (apply elem_of_cons; by right).
    - rewrite decide_False; [done|].
      intros [?|?]%elem_of_cons; [congruence|done]. }
  simpl in Hre.
  destruct (JSMap.has (Item.key it) (_inMemoryCache st)) eqn:Hhas.
  { apply (Hskip st Hre Hun). intros Hk. destruct Hun as [Hf _]. congruence. }
  destruct (_persistentCache st !! Item.key it) as [[v t]|] eqn:Hpc.
  - destruct (truthy v) eqn:Hv.
    + assert (Hk : Item.key it ≠ k).
      { intros Hk. destruct Hun as [_ Hp]. rewrite Hk in Hpc.
        apply Hp in Hpc. simpl in Hpc. congruence. }
      apply (Hskip _ Hre); [|done]. by apply uncached_promote.
    + destruct (recheck rest st) as [[st' tt'] ti'] eqn:Hrest'.
      injection Hre as <- <- _. by eapply Hpush.
  - destruct (recheck rest st) as [[st' tt'] ti'] eqn:Hrest'.
    injection Hre as <- <- _. by eapply Hpush.
Qed.

Lemma flush_group_calls_target fetch now t items st c :
  c ∈ (flush_group fetch now (t, items) st).2 → req_target c = t.
Proof.
  rewrite flush_group_eq. cbv zeta.
  destruct (recheck (dedupe ∅ items) st) as [[st1 tt] ti].
  destruct (resolve_all now _ ti items (dedupe ∅ items) st1) as [st2 evs].
  simpl. unfold group_calls. destruct tt as [|q qs].
  { by intros ?%elem_of_nil. }
  intros ->%list_elem_of_singleton. apply build_request_q.
Qed.

Lemma flush_groups_calls_target fetch now groups st c :
  c ∈ (flush_groups fetch now groups st).2 → req_target c ∈ groups.*1.
Proof.
  revert st. induction groups as [|[t items] rest IH]; intros st.
  { by intros ?%elem_of_nil. }
  rewrite flush_groups_cons.
  pose proof (flush_group_calls_target fetch now t items st c) as H1.
  destruct (flush_group fetch now (t, items) st) as [[st1 evs1] calls1].
  specialize (IH st1).
  destruct (flush_groups fetch now rest st1) as [[st2 evs2] calls2].
  simpl in *. intros [Hc|Hc]%elem_of_app.
  - apply elem_of_cons. left. by apply H1.
  - apply elem_of_cons. right. by apply IH.
Qed.

Lemma flush_group_focus fetch now target items st :
  NoDup (Item.key <$> items) →
  (∀ it, it ∈ items → (Item.text it = text ↔ Item.key it = k)) →
  k ∈ Item.key <$> items → uncached k st →
  ∃ req, (flush_group fetch now (target, items) st).2 = [req]
         ∧ req_target req = target
         ∧ length (filter (λ q, q = text) (req_q req)) = 1%nat.
Proof.
  intros Hnd Htext Hk Hun. rewrite flush_group_eq. cbv zeta.
  rewrite dedupe_id by (try done; intros; apply not_elem_of_empty).
  destruct (recheck items st) as [[st1 tt] ti] eqn:Hre.
  pose proof (recheck_count items st st1 tt ti Hre Htext Hnd Hun) as Hcount.
  rewrite decide_True in Hcount by done.
  destruct (resolve_all now _ ti items items st1) as [st2 evs].
  simpl. unfold group_calls. destruct tt as [|q qs]; [done|].
  exists (build_request st1 target (q :: qs)).
  destruct (build_request_q st1 target (q :: qs)) as [Hq Ht].
  by rewrite Hq, Ht.
Qed.

Lemma flush_groups_focus fetch now groups st target items :
  NoDup groups.*1 → (target, items) ∈ groups →
  (∀ t its, (t, its) ∈ groups → t ≠ target → k ∉ Item.key <$> its) →
  NoDup (Item.key <$> items) →
  (∀ it, it ∈ items → (Item.text it = text ↔ Item.key it = k)) →
  k ∈ Item.key <$> items → uncached k st →
  ∃ req,
    filter (λ c, req_target c = target) (flush_groups fetch now groups st).2
    = [req]
    ∧ length (filter (λ q, q = text) (req_q req)) = 1%nat.
Proof.
  intros Hnd Hin Hother Hkeys Htext Hk. revert st Hnd Hin Hother.
  induction groups as [|[t its] rest IH]; intros st Hnd Hin Hother Hun.
  { by apply elem_of_nil in Hin. }
  rewrite fmap_cons in Hnd. apply NoDup_cons in Hnd as [Hnot Hnd].
  rewrite flush_groups_cons.
  pose proof (flush_group_focus fetch now t its st) as Hfocus.
  pose proof (flush_group_calls_target fetch now t its st) as Htarget.
  pose proof (flush_group_writes (λ _, True) (λ k', k' ∈ Item.key <$> its)
    fetch now t its st) as Hw.
  destruct (flush_group fetch now (t, its) st) as [[st1 evs1] calls1].
  pose proof (flush_groups_calls_target fetch now rest st1) as Htargets.
  specialize (IH st1).
  destruct (flush_groups fetch now rest st1) as [[st2 evs2] calls2].
  simpl in *. rewrite filter_app.
  destruct (decide (t = target)) as [->|Hne].
  - assert (its = items) as ->.
    { apply elem_of_cons in Hin as [[= ->]|Hin]; [done|].
      destruct Hnot. apply list_elem_of_fmap. by exists (target, items). }
    destruct (Hfocus Hkeys Htext Hk Hun) as (req & -> & Hreq & Hcount).
    exists req. split; [|done].
    rewrite filter_cons, decide_True by done. simpl.
    rewrite (filter_none _ calls2); [done|].
    intros c Hc Htc. apply Htargets in Hc. by rewrite Htc in Hc.
  - rewrite (filter_none _ calls1).
    2:{ intros c Hc Htc. apply Htarget in Hc. congruence. }
    simpl. apply IH; [done| | |].
    + apply elem_of_cons in Hin as [[= -> ->]|Hin]; done.
    + intros t' its' Hin'. apply Hother, elem_of_cons. by right.
    + eapply uncached_writes; [apply Hw| |done].
      * intros it Hit. apply list_elem_of_fmap. by exists it.
      * done.
      * apply (Hother t its); [|done]. apply elem_of_cons. by left.
Qed.

End one_key.

(** ** A burst of requests *)

Lemma set_fst {V} (k : string) (x : V) (m : list (string * V)) :
  (JSMap.set k x m).*1 = if decide (k ∈ m.*1) then m.*1 else m.*1 ++ [k].
Proof.
  induction m as [|[k0 y] m IH].
  - done.
  - cbn [JSMap.set]. rewrite (fmap_cons fst _ m). cbn [fst].
    destruct (decide (k0 = k)) as [->|Hne].
    + rewrite fmap_cons. cbn [fst].
      by rewrite decide_True by (apply elem_of_cons; by left).
    + rewrite fmap_cons, IH. cbn [fst].
      destruct (decide (k ∈ m.*1)) as [Hin|Hnot].
      * by rewrite decide_True by (apply elem_of_cons; by right).
      * rewrite decide_False; [done|].
        intros [?|?]%elem_of_cons; [congruence|done].
Qed.

Lemma set_NoDup {V} (k : string) (x : V) (m : list (string * V)) :
  NoDup m.*1 → NoDup (JSMap.set k x m).*1.
Proof.
  intros Hnd. rewrite set_fst. destruct (decide (k ∈ m.*1)); [done|].
  apply NoDup_app. split; [done|]. split; [|apply NoDup_singleton].
  intros k' Hk' ->%list_elem_of_singleton. done.
Qed.

Lemma set_resolvers_perm (m : list (string * pending)) key e r :
  JSMap.get key m = Some e →
  JSMap.set key
    (Pending.mk (Pending.text e) (Pending.target e)
       (Pending.resolvers e ++ [r])) m
  ≫= (λ kv, Pending.resolvers kv.2)
  ≡ₚ (m ≫= λ kv, Pending.resolvers kv.2) ++ [r].
Proof.
  induction m as [|[k0 e0] m IH]; [done|]. cbn [JSMap.get JSMap.set].
  destruct (decide (k0 = key)) as [->|Hne].
  - intros [= ->]. rewrite !bind_cons. simpl.
    rewrite <- !(assoc_L (++)). f_equiv. apply Permutation_app_comm.
  - intros Hget. rewrite !bind_cons, IH by done.
    by rewrite (assoc_L (++)).
Qed.

Lemma set_new {V} (k : string) (x : V) (m : list (string * V)) :
  JSMap.get k m = None → JSMap.set k x m = m ++ [(k, x)].
Proof.
  induction m as [|[k0 y] m IH]; [done|]. cbn [JSMap.get JSMap.set].
  destruct (decide (k0 = k)); [done|]. intros Hget. by rewrite IH.
Qed.

Lemma queue_frame r key text target st :
  let st' := queueTranslationRequest r key text target st in
  _inMemoryCache st' = _inMemoryCache st
  ∧ _persistentCache st' = _persistentCache st
  ∧ USE_CLOUD st' = USE_CLOUD st.
Proof.
  unfold queueTranslationRequest, schedulePendingFlush. simpl.
  by destruct (pendingFlushTimer st).
Qed.

Lemma queue_pending r key text target st :
  pendingRequests (queueTranslationRequest r key text target st)
  = match JSMap.get key (pendingRequests st) with
    | Some e =>
        JSMap.set key
          (Pending.mk (Pending.text e) (Pending.target e)
             (Pending.resolvers e ++ [r])) (pendingRequests st)
    | None =>
        JSMap.set key (Pending.mk text target [r]) (pendingRequests st)
    end.
Proof.
  unfold queueTranslationRequest, schedulePendingFlush. simpl.
  by destruct (pendingFlushTimer st).
Qed.

Lemma queue_registered r key text target st :
  registered (queueTranslationRequest r key text target st)
  ≡ₚ registered st ++ [r].
Proof.
  unfold registered. rewrite queue_pending.
  destruct (JSMap.get key (pendingRequests st)) as [e|] eqn:Hget.
  - by apply set_resolvers_perm.
  - rewrite set_new by done. by rewrite bind_app.
Qed.

(** What a request does: it is answered at once, and then at most a
    promotion happened, or it is queued. *)
Lemma doTranslate_cases r text target st :
  let key := cache_key (USE_CLOUD st) text target in
  (∃ x, (doTranslate r text target st).2 = Returned x
        ∧ ((doTranslate r text target st).1 = st
           ∨ ∃ e, _persistentCache st !! key = Some e
                  ∧ truthy (Entry.v e) = true
                  ∧ (doTranslate r text target st).1
                    = promote key (Entry.v e) st))
  ∨ (doTranslate r text target st
     = (queueTranslationRequest r key text target st, Queued)
     ∧ text ≠ "" ∧ target ≠ "").
Proof.
  intros key. unfold doTranslate. fold key.
  destruct (String.eqb_spec text ""); [left; eauto|].
  destruct (String.eqb_spec target ""); [left; eauto|]. simpl.
  destruct (JSMap.has key (_inMemoryCache st)); [left; eauto|].
  destruct (_persistentCache st !! key) as [e|] eqn:Hpc; [|by right].
  destruct (truthy (Entry.v e)) eqn:Hv; [|by right].
  left. exists (Entry.v e). split; [done|]. right. by exists e.
Qed.

Lemma doTranslate_registered r text target st :
  registered (doTranslate r text target st).1 = registered st
  ∨ registered (doTranslate r text target st).1 ≡ₚ registered st ++ [r].
Proof.
  destruct (doTranslate_cases r text target st)
    as [(x & _ & [->|(e & _ & _ & ->)])|[-> _]].
  - by left.
  - by left.
  - right. apply queue_registered.
Qed.

Lemma burst_cons req reqs st :
  burst (req :: reqs) st
  = burst reqs (doTranslate req.1.1 req.1.2 req.2 st).1.
Proof. by destruct req as [[r text] target]. Qed.

Lemma burst_registered_NoDup reqs st :
  NoDup (registered st ++ reqs.*1.*1) → NoDup (registered (burst reqs st)).
Proof.
  revert st. induction reqs as [|[[r text] target] reqs IH]; intros st Hnd.
  { simpl in *. by rewrite app_nil_r in Hnd. }
  rewrite burst_cons. apply IH. simpl in *.
  destruct (doTranslate_registered r text target st) as [->| ->].
  - apply NoDup_app in Hnd as (H1 & H2 & H3).
    apply NoDup_cons in H3 as [H3 H4].
    apply NoDup_app. split; [done|]. split; [|done].
    intros x Hx Hin. apply (H2 x Hx). apply elem_of_cons. by right.
  - by rewrite <- (assoc_L (++)).
Qed.

Section burst_facts.
Context (cloud : bool) (text target : string).
Context (Htext : text ≠ "") (Htarget : target ≠ "").
Local Abbreviation k := (cache_key cloud text target).

Lemma burst_inv_step r tx tg st :
  burst_inv cloud text target st →
  (cache_key cloud tx tg = k → tx = text ∧ tg = target) →
  let st' := (doTranslate r tx tg st).1 in
  burst_inv cloud text target st'
  ∧ (∀ r' e, JSMap.get k (pendingRequests st) = Some e →
       r' ∈ Pending.resolvers e →
       ∃ e', JSMap.get k (pendingRequests st') = Some e'
             ∧ r' ∈ Pending.resolvers e')
  ∧ (tx = text → tg = target →
       ∃ e', JSMap.get k (pendingRequests st') = Some e'
             ∧ r ∈ Pending.resolvers e').
Proof.
  intros (Hmode & [Hnd Hwf] & Hun & Hk) Hcoll st'. subst st'.
  destruct (doTranslate_cases r tx tg st)
    as [(x & Hret & Hst)|(Hq & Htx & Htg)].
  - assert (Hne : tx = text → tg = target → False).
    { intros -> ->. unfold doTranslate in Hret.
      rewrite (eqb_empty_false _ Htext), (eqb_empty_false _ Htarget) in Hret.
      simpl in Hret. rewrite Hmode in Hret.
      destruct Hun as [Hf Hp]. rewrite Hf in Hret.
      destruct (_persistentCache st !! k) as [e|] eqn:Hpc; [|done].
      by rewrite (Hp e eq_refl) in Hret. }
    destruct Hst as [->|(e & Hpc & Hv & ->)].
    + split; [done|]. split; [by eauto|]. intros. by destruct Hne.
    + split; [|split; [by eauto|intros; by destruct Hne]].
      split; [done|]. split; [done|]. split; [|done].
      apply uncached_promote; [|done]. rewrite Hmode. intros Heq.
      destruct Hun as [_ Hp]. rewrite Hmode, Heq in Hpc.
      apply Hp in Hpc. congruence.
  - rewrite Hq. simpl. rewrite Hmode in *.
    set (key := cache_key cloud tx tg) in *.
    destruct (queue_frame r key tx tg st) as (Hf & Hp & Hm).
    pose proof (queue_pending r key tx tg st) as Hpend.
    assert (Hget : ∀ k', JSMap.get k'
              (pendingRequests (queueTranslationRequest r key tx tg st))
            = if decide (key = k')
              then Some (match JSMap.get key (pendingRequests st) with
                         | Some e => Pending.mk (Pending.text e)
                                       (Pending.target e)
                                       (Pending.resolvers e ++ [r])
                         | None => Pending.mk tx tg [r]
                         end)
              else JSMap.get k' (pendingRequests st)).
    { intros k'. rewrite Hpend.
      destruct (JSMap.get key (pendingRequests st)); by rewrite get_set. }
    split; [|split].
    + split; [by rewrite Hm|]. split; [|split].
      * split.
        -- rewrite Hpend. destruct (JSMap.get key (pendingRequests st));
             by apply set_NoDup.
        -- intros k' e'. rewrite Hget.
           destruct (decide (key = k')) as [<-|Hne]; [|by apply Hwf].
           intros [= <-].
           destruct (JSMap.get key (pendingRequests st)) as [e|] eqn:He.
           ++ simpl. by apply Hwf.
           ++ simpl. done.
      * destruct Hun as [Hu1 Hu2]. split; [by rewrite Hf|by rewrite Hp].
      * intros e'. rewrite Hget.
        destruct (decide (key = k)) as [Heq|Hne]; [|by apply Hk].
        intros [= <-]. rewrite Heq.
        destruct (JSMap.get k (pendingRequests st)) as [e|] eqn:He.
        -- simpl. by apply Hk.
        -- simpl. by apply Hcoll.
    + intros r' e He Hr'. rewrite Hget.
      destruct (decide (key = k)) as [Heq|Hne]; [|by eauto].
      rewrite Heq, He. eexists. split; [done|]. simpl.
      apply elem_of_app. by left.
    + intros -> ->. subst key. rewrite Hget. rewrite decide_True by done.
      eexists. split; [done|].
      destruct (JSMap.get k (pendingRequests st)); simpl.
      * apply elem_of_app. right. by apply list_elem_of_singleton.
      * by apply list_elem_of_singleton.
Qed.

Lemma burst_inv_all reqs st :
  burst_inv cloud text target st →
  (∀ r tx tg, (r, tx, tg) ∈ reqs →
     cache_key cloud tx tg = k → tx = text ∧ tg = target) →
  burst_inv cloud text target (burst reqs st)
  ∧ (∀ r, ((r, text, target) ∈ reqs
           ∨ ∃ e, JSMap.get k (pendingRequests st) = Some e
                  ∧ r ∈ Pending.resolvers e) →
       ∃ e', JSMap.get k (pendingRequests (burst reqs st)) = Some e'
             ∧ r ∈ Pending.resolvers e').
Proof.
  revert st. induction reqs as [|[[r0 tx] tg] reqs IH]; intros st Hinv Hcoll.
  { split; [done|]. intros r [Hin|Hin]; [by apply elem_of_nil in Hin|done]. }
  rewrite burst_cons. simpl.
  destruct (burst_inv_step r0 tx tg st Hinv) as (Hinv' & Hkeep & Hnew).
  { apply (Hcoll r0). apply elem_of_cons. by left. }
  destruct (IH _ Hinv') as [Hinv'' Hres].
  { intros r' tx' tg' Hin. apply (Hcoll r'), elem_of_cons. by right. }
  split; [done|]. intros r [Hin|(e & He & Hr)].
  - apply elem_of_cons in Hin as [[= -> <- <-]|Hin].
    + apply Hres. right. by apply Hnew.
    + apply Hres. by left.
  - apply Hres. right. by eapply Hkeep.
Qed.

End burst_facts.

(** ** A burst followed by its flush *)

Lemma filter_keys_NoDup (P : string * pending → Prop)
    `{!∀ kv, Decision (P kv)} (p : list (string * pending)) :
  NoDup p.*1 → NoDup (Item.key <$> (to_item <$> filter P p)).
Proof.
  induction p as [|kv p IH]; intros Hnd; [apply NoDup_nil_2|].
  rewrite fmap_cons in Hnd. apply NoDup_cons in Hnd as [Hnot Hnd].
  rewrite filter_cons. destruct (decide (P kv)); [|by apply IH].
  rewrite !fmap_cons. apply NoDup_cons. split; [|by apply IH].
  intros (it & Hk & (kv' & -> & Hin)%list_elem_of_fmap)%list_elem_of_fmap.
  apply list_elem_of_filter in Hin as [_ Hin]. apply Hnot.
  simpl in Hk. rewrite Hk. apply list_elem_of_fmap. by exists kv'.
Qed.

Lemma group_key_target e :
  Pending.target e ≠ "" → group_key e = Pending.target e.
Proof. intros. unfold group_key. by rewrite eqb_empty_false. Qed.

Lemma burst_flush fetch now st reqs text target :
  pendingRequests st = [] → text ≠ "" → target ≠ "" →
  uncached (cache_key (USE_CLOUD st) text target) st →
  (∀ r tx tg, (r, tx, tg) ∈ reqs →
     cache_key (USE_CLOUD st) tx tg = cache_key (USE_CLOUD st) text target →
     tx = text ∧ tg = target) →
  (∃ r, (r, text, target) ∈ reqs) →
  let res := pendingFlushTimerFired fetch now (burst reqs st) in
  (∃ req, filter (λ c, req_target c = target) res.2 = [req]
          ∧ length (filter (λ q, q = text) (req_q req)) = 1%nat)
  ∧ (∃ x, ∀ r, (r, text, target) ∈ reqs → (r, x) ∈ res.1.2)
  ∧ (NoDup reqs.*1.*1 → NoDup res.1.2.*1).
Proof.
  intros Hempty Htext Htarget Hun Hcoll [r0 Hr0] res.
  set (cloud := USE_CLOUD st) in *.
  set (k := cache_key cloud text target) in *.
  assert (Hinv0 : burst_inv cloud text target st).
  { split; [done|]. split; [|split; [done|]].
    - rewrite Hempty. split; [apply NoDup_nil_2|done].
    - by rewrite Hempty. }
  destruct (burst_inv_all cloud text target Htext Htarget reqs st Hinv0 Hcoll)
    as [(Hmode & [Hnd Hwf] & Hun1 & Hk) Hres].
  set (st1 := burst reqs st) in *.
  destruct (Hres r0 (or_introl Hr0)) as (e0 & He0 & _).
  destruct (Hk e0 He0) as [Hte0 Htg0].
  assert (Hin0 : (k, e0) ∈ pendingRequests st1) by by apply get_Some_elem_of.
  set (st1' := with_pendingFlushTimer false st1).
  assert (Hres_eq : res = flushPendingRequests fetch now st1') by done.
  split; [|split].
  - rewrite Hres_eq. unfold flushPendingRequests.
    change (pendingRequests st1') with (pendingRequests st1).
    destruct (pendingRequests st1) as [|kv0 p0] eqn:Hp.
    { by apply elem_of_nil in Hin0. }
    rewrite <- Hp in *. set (p := pendingRequests st1) in *.
    destruct (group_by_target_covers p (k, e0) Hin0) as (items & Hg & Hit).
    simpl in Hg. rewrite group_key_target in Hg by (by rewrite Htg0).
    rewrite Htg0 in Hg.
    assert (Hitems : items
              = to_item <$> filter (λ kv, group_key kv.2 = target) p)
      by by apply group_by_target_items.
    assert (Hwf' : ∀ kv, kv ∈ p →
              kv.1 = cache_key cloud (Pending.text kv.2) (Pending.target kv.2)
              ∧ group_key kv.2 = Pending.target kv.2).
    { intros [k' e'] Hkv. apply elem_of_get in Hkv; [|done].
      destruct (Hwf k' e' Hkv) as [? ?]. split; [done|].
      by apply group_key_target. }
    apply (flush_groups_focus text k fetch now (group_by_target p)
             (with_pendingRequests [] st1') target items).
    + apply foldl_group_NoDup, NoDup_nil_2.
    + done.
    + intros t its Hin Hne (it & Hkit & Hit')%list_elem_of_fmap.
      apply group_by_target_items in Hin. rewrite Hin in Hit'.
      apply list_elem_of_fmap in Hit' as ([k' e'] & -> & Hkv).
      apply list_elem_of_filter in Hkv as [Hgk Hkv]. simpl in *. subst k'.
      assert (e' = e0) as -> by by eapply NoDup_fst_unique.
      rewrite group_key_target in Hgk by (by rewrite Htg0). congruence.
    + rewrite Hitems. by apply filter_keys_NoDup.
    + intros it Hit'. rewrite Hitems in Hit'.
      apply list_elem_of_fmap in Hit' as ([k' e'] & -> & Hkv).
      apply list_elem_of_filter in Hkv as [Hgk Hkv]. simpl in *.
      destruct (Hwf' _ Hkv) as [Hk' Hgk']. simpl in *.
      rewrite Hgk' in Hgk. split.
      * intros Hte. by rewrite Hk', Hte, Hgk.
      * intros ->. apply elem_of_get in Hkv; [|done]. by apply Hk.
    + apply list_elem_of_fmap. by exists (to_item (k, e0)).
    + done.
  - destruct (flush_same fetch now st1' (k, e0) Hin0) as [x Hx].
    exists x. intros r Hr. rewrite Hres_eq. apply Hx. simpl.
    destruct (Hres r (or_introl Hr)) as (e & He & Hre).
    by assert (e = e0) as -> by congruence.
  - intros Hids. rewrite Hres_eq, flush_fst.
    change (registered st1') with (registered st1).
    apply burst_registered_NoDup. unfold registered. by rewrite Hempty.
Qed.

(** ** C1: identical requests of one burst share one slot of one call *)

(** C1. Take a burst that starts with nothing pending, in which some
    callers request the non-empty [text] for the non-empty [target], whose
    key is in neither tier, and in which no request for another text or
    target has that same key. When the debounce timer fires, exactly one
    outbound call goes to [target], [text] occurs exactly once among its
    [q] parameters, and there is one value with which the resolver of every
    such caller is called (and with no other value, the callers being
    distinct). *)
Theorem identical_requests_coalesce (fetch : request → response) (now : Z)
    (st : state) (reqs : list (nat * string * string)) (text target : string) :
  pendingRequests st = [] → text ≠ "" → target ≠ "" →
  uncached (cache_key (USE_CLOUD st) text target) st →
  (∀ r tx tg, (r, tx, tg) ∈ reqs →
     cache_key (USE_CLOUD st) tx tg = cache_key (USE_CLOUD st) text target →
     tx = text ∧ tg = target) →
  (∃ r, (r, text, target) ∈ reqs) →
  NoDup reqs.*1.*1 →
  let '(st', evs, calls) := pendingFlushTimerFired fetch now (burst reqs st) in
  (∃ req, filter (λ c, req_target c = target) calls = [req]
          ∧ length (filter (λ q, q = text) (req_q req)) = 1%nat)
  ∧ ∃ x, ∀ r, (r, text, target) ∈ reqs → ∀ y, (r, y) ∈ evs ↔ y = x.
Proof.
  intros Hempty Htext Htarget Hun Hcoll Hsome Hids.
  destruct (burst_flush fetch now st reqs text target Hempty Htext Htarget
              Hun Hcoll Hsome) as (Hcall & [x Hx] & Hnd).
  specialize (Hnd Hids).
  destruct (pendingFlushTimerFired fetch now (burst reqs st))
    as [[st' evs] calls].
  simpl in *. split; [done|]. exists x. intros r Hr y. split.
  - intros Hy. by eapply NoDup_fst_unique; [| |apply Hx].
  - intros ->. by apply Hx.
Qed.

Lemma identical_requests_coalesce_witness :
  let '(st', evs, calls) :=
    pendingFlushTimerFired offline 0 (burst shalom_twice initial) in
  (∃ req, filter (λ c, req_target c = "en"%string) calls = [req]
          ∧ length (filter (λ q, q = "shalom"%string) (req_q req)) = 1%nat)
  ∧ ∃ x, ∀ r, (r, "shalom"%string, "en"%string) ∈ shalom_twice →
           ∀ y, (r, y) ∈ evs ↔ y = x.
Proof.
  apply (identical_requests_coalesce offline 0 initial shalom_twice
           "shalom" "en").
  - reflexivity.
  - discriminate.
  - discriminate.
  - split; [reflexivity|]. intros e He. cbn in He. by rewrite lookup_empty in He.
  - intros r tx tg Hin Hkey. unfold shalom_twice in Hin.
    repeat (apply elem_of_cons in Hin as [Hin|Hin];
            [injection Hin as -> -> ->; try done; by vm_compute in Hkey|]).
    by apply elem_of_nil in Hin.
  - exists 1%nat. apply elem_of_cons. by left.
  - simpl. repeat (apply NoDup_cons; split;
                   [rewrite ?elem_of_cons, elem_of_nil; lia|]).
    apply NoDup_nil_2.
Defined.

(** ** The writes of a whole flush *)

Lemma flush_writes R fetch now st :
  (∀ x, provided fetch (flushPendingRequests fetch now st).2 x → R x) →
  ∃ st0, writes R (λ _, True) now st0 (flushPendingRequests fetch now st).1.1
         ∧ _inMemoryCache st0 = _inMemoryCache st
         ∧ _persistentCache st0 = _persistentCache st
         ∧ USE_CLOUD st0 = USE_CLOUD st.
Proof.
  unfold flushPendingRequests.
  destruct (pendingRequests st) as [|kv p] eqn:Hp; intros HR.
  - exists st. split; [apply writes_none|done].
  - exists (with_pendingRequests [] st). split; [|done].
    by apply flush_groups_writes.
Qed.

Lemma filter_singleton_elem {A} (P : A → Prop) `{!∀ x, Decision (P x)}
    (l : list A) a :
  filter P l = [a] → a ∈ l ∧ P a.
Proof.
  intros Hf. assert (Hin : a ∈ filter P l).
  { rewrite Hf. by apply list_elem_of_singleton. }
  apply list_elem_of_filter in Hin. tauto.
Qed.

Lemma filter_length_one_elem (l : list string) (s : string) :
  length (filter (λ q, q = s) l) = 1%nat → s ∈ l.
Proof.
  destruct (filter (λ q, q = s) l) as [|q qs] eqn:Hf; [done|]. intros _.
  assert (Hin : q ∈ filter (λ q, q = s) l).
  { rewrite Hf. apply elem_of_cons. by left. }
  by apply list_elem_of_filter in Hin as [-> ?].
Qed.

(** ** The scenarios of the specification, evaluated *)

(** Scenario A with a provider that answers: one call with one instance of
    the text, and both callers get the same string. *)
Example scenario_same_text :
  let '(st', evs, calls) :=
    pendingFlushTimerFired echo_public 7
      (burst [(1%nat, "shalom"%string, "en"%string);
              (2%nat, "shalom"%string, "en"%string)] initial) in
  calls = [Request false "" "en" ["shalom"%string]]
  ∧ evs = [(1%nat, JStr "<shalom"); (2%nat, JStr "<shalom")]
  ∧ JSMap.get "public|shalom||en" (_inMemoryCache st') = Some (JStr "<shalom")
  ∧ _persistentCache st' !! "public|shalom||en"%string
    = Some (Entry.mk (JStr "<shalom") 7).
Proof. by vm_compute. Qed.

(** Scenario B: two targets give two calls, each with its own text. *)
Example scenario_two_targets :
  (pendingFlushTimerFired echo_public 7 (burst two_targets initial)).2
  = [Request false "" "en" ["A"%string]; Request false "" "fr" ["B"%string]].
Proof. by vm_compute. Qed.

(** Scenario C: the provider is unreachable; the caller gets the empty
    string and neither tier holds anything afterwards. *)
Example scenario_offline :
  let '(st', evs, calls) :=
    pendingFlushTimerFired offline 7
      (burst [(1%nat, "shalom"%string, "en"%string)] initial) in
  evs = [(1%nat, JS.empty)]
  ∧ _inMemoryCache st' = []
  ∧ _persistentCache st' = ∅.
Proof. by vm_compute. Qed.

(** Scenario E: a nested response for two texts gives each text the
    segments of its own array. *)
Example scenario_nested_segments :
  parse_response false 2
    (Response true
       (Some (JArr [JArr [JArr [JArr [JStr "a"; JNull]; JArr [JStr "b"; JNull]];
                          JArr [JArr [JStr "c"; JNull]]]])))
  = [JStr "ab"; JStr "c"].
Proof. reflexivity. Qed.

(** The TTL test of the specification: a month-old entry is gone after a
    reload under a TTL of thirty days and kept under a TTL that is off. *)
Example scenario_ttl_reload :
  _persistentCache
    (loadSettingsAndCache (Some (month_old 30)) 2678400001 initial)
  = ∅
  ∧ _persistentCache
      (loadSettingsAndCache (Some (month_old 0)) 2678400001 initial)
    = {[ "public|a||en"%string := Entry.mk (JStr "b") 1 ]}.
Proof. by vm_compute. Qed.

(** * The listeners: what every reachable state satisfies *)

(** ** Both tiers hold non-empty values only *)

Lemma sound_tiers_caches st st' :
  _inMemoryCache st' = _inMemoryCache st →
  _persistentCache st' = _persistentCache st →
  sound_tiers st → sound_tiers st'.
Proof. unfold sound_tiers. by intros -> ->. Qed.

Lemma load_fold_NoDup ttl now (l : list (string * raw_entry)) acc :
  NoDup acc.2.*1 → NoDup (foldl (load_step ttl now) acc l).2.*1.
Proof.
  revert acc. induction l as [|kv l IH]; intros acc Hacc; [done|].
  cbn [foldl]. apply IH. unfold load_step.
  destruct (load_entry ttl now kv.2); [|done]. by apply set_NoDup.
Qed.

Lemma load_entry_value ttl now raw e :
  load_entry ttl now raw = Some e →
  truthy (Entry.v e) = true
  ∧ match raw with
    | RawString s => Entry.v e = JStr s
    | RawObject v _ => Entry.v e = v
    | RawOther => False
    end.
Proof.
  unfold load_entry, raw_value. destruct raw as [s|v t|]; [| |done].
  - destruct (String.eqb s "") eqn:Hs; [done|].
    intros He. assert (Entry.v e = JStr s) as ->.
    { repeat case_match; by simplify_eq. }
    split; [|done]. cbn. by rewrite Hs.
  - destruct (truthy v) eqn:Hv; [|done].
    intros He. assert (Entry.v e = v) as ->; [|done].
    repeat case_match; by simplify_eq.
Qed.

Lemma sound_tiers_load res now st :
  sound_tiers (loadSettingsAndCache res now st).
Proof.
  destruct res as [r|].
  - pose proof (load_lookup r now st) as Hl. cbn zeta in Hl.
    assert (Hm : ∀ k e,
      _persistentCache (loadSettingsAndCache (Some r) now st) !! k = Some e →
      truthy (Entry.v e) = true).
    { intros k e He. destruct (Hl k) as [Hp _]. rewrite Hp in He.
      apply bind_Some in He as (raw & _ & He).
      by apply load_entry_value in He as [? _]. }
    split; [|split; [|done]].
    + cbn. apply load_fold_NoDup. constructor.
    + intros k x Hx. destruct (Hl k) as [_ Hf]. rewrite Hf in Hx.
      destruct (_persistentCache _ !! k) as [e|] eqn:He; [|done].
      injection Hx as <-. by eapply Hm.
  - split; [constructor|]. split; intros k ? H; [done|].
    cbn in H. by rewrite lookup_empty in H.
Qed.

Lemma sound_tiers_promote key v st :
  truthy v = true → sound_tiers st → sound_tiers (promote key v st).
Proof.
  intros Hv (Hnd & Hf & Hm). split; [|split; [|done]].
  - cbn. by apply set_NoDup.
  - intros k x. cbn. rewrite get_set. destruct (decide (key = k)).
    + by intros [= <-].
    + apply Hf.
Qed.

Lemma sound_tiers_store now key x st :
  truthy x = true → sound_tiers st → sound_tiers (store now key x st).
Proof.
  intros Hx (Hnd & Hf & Hm). split; [|split].
  - cbn. by apply set_NoDup.
  - intros k y. cbn. rewrite get_set. destruct (decide (key = k)).
    + by intros [= <-].
    + apply Hf.
  - intros k e. cbn. destruct (decide (key = k)) as [->|Hne].
    + rewrite lookup_insert_eq. by intros [= <-].
    + rewrite lookup_insert_ne by done. apply Hm.
Qed.

Lemma sound_tiers_arm st :
  sound_tiers st → sound_tiers (scheduleSavePersistentCache st).
Proof.
  apply sound_tiers_caches; unfold scheduleSavePersistentCache;
    by destruct (_saveTimer st).
Qed.

Lemma sound_tiers_writes R K now st st' :
  writes R K now st st' → sound_tiers st → sound_tiers st'.
Proof.
  induction 1 as [|st' key e _ IH _ _ Hv _|st' key x _ IH _ Hx _|st' _ IH];
    intros Hs.
  - done.
  - by apply sound_tiers_promote; [|apply IH].
  - by apply sound_tiers_store; [|apply IH].
  - by apply sound_tiers_arm, IH.
Qed.

Lemma sound_tiers_doTranslate r text target st :
  sound_tiers st → sound_tiers (doTranslate r text target st).1.
Proof.
  intros Hs.
  destruct (doTranslate_cases r text target st)
    as [(x & _ & [->|(e & _ & Hv & ->)])|[-> _]]; [done| |].
  - by apply sound_tiers_promote.
  - cbn [fst]. revert Hs. apply sound_tiers_caches; apply queue_frame.
Qed.

Lemma sound_tiers_flush fetch now st :
  sound_tiers st → sound_tiers (flushPendingRequests fetch now st).1.1.
Proof.
  intros Hs.
  destruct (flush_writes (λ _, True) fetch now st) as (st0 & Hw & Hf & Hm & _);
    [done|].
  eapply sound_tiers_writes; [exact Hw|].
  revert Hs. by apply sound_tiers_caches.
Qed.

Lemma purgeExpired_fast now st :
  _inMemoryCache (purgeExpired now st).1 = _inMemoryCache st
  ∧ pendingRequests (purgeExpired now st).1 = pendingRequests st
  ∧ pendingFlushTimer (purgeExpired now st).1 = pendingFlushTimer st
  ∧ USE_CLOUD (purgeExpired now st).1 = USE_CLOUD st.
Proof. unfold purgeExpired. by destruct (purge_loop _ _ _ _ _). Qed.

Lemma sound_tiers_purge now st :
  sound_tiers st → sound_tiers (purgeExpired now st).1.
Proof.
  intros (Hnd & Hf & Hm).
  destruct (purgeExpired_fast now st) as (Hfast & _).
  split; [|split]; rewrite ?Hfast; [done..|].
  intros k e. rewrite purgeExpired_lookup.
  destruct (purge_test _ _ _); [done|apply Hm].
Qed.

Lemma sound_tiers_save_end ok obj st :
  map_Forall (λ _ e, truthy (Entry.v e) = true) obj →
  sound_tiers st → sound_tiers (save_end ok obj st).
Proof.
  intros Hobj (Hnd & Hf & Hm). destruct ok; [|done].
  split; [done|]. split; [done|]. intros k e He. by eapply Hobj.
Qed.

Lemma save_begin_truthy now st :
  map_Forall (λ _ e, truthy (Entry.v e) = true) (save_begin now st).2.
Proof. apply save_loop_truthy. intros k e He. by rewrite lookup_empty in He. Qed.

Lemma sound_tiers_save now ok st :
  sound_tiers st → sound_tiers (savePersistentCache now ok st).1.
Proof.
  intros Hs. unfold savePersistentCache.
  pose proof (save_begin_truthy now st) as Ht.
  destruct (save_begin now st) as [st1 obj] eqn:Hb. cbn [fst].
  apply sound_tiers_save_end; [done|].
  injection Hb as <- _. revert Hs. by apply sound_tiers_caches.
Qed.

Lemma sound_tiers_clearCache st : sound_tiers (clearCache st).
Proof.
  split; [constructor|]. split; intros k ? H; [done|].
  cbn in H. by rewrite lookup_empty in H.
Qed.

Lemma sound_tiers_onMessage r now ok msg st :
  sound_tiers st → sound_tiers (onMessage r now ok msg st).1.1.
Proof.
  intros Hs. unfold onMessage. destruct msg as [m|]; [|done].
  destruct (String.eqb (msg_type m) ""); [done|].
  destruct (String.eqb (msg_type m) "translate").
  { pose proof (sound_tiers_doTranslate r (msg_text m) (msg_target m) st Hs).
    by destruct (doTranslate _ _ _ _). }
  destruct (String.eqb (msg_type m) "clearCache").
  { apply sound_tiers_clearCache. }
  destruct (String.eqb (msg_type m) "purgeExpired"); [|done].
  pose proof (sound_tiers_purge now st Hs). by destruct (purgeExpired _ _).
Qed.

Lemma sound_tiers_onStorageChanged area ch res now st :
  sound_tiers st → sound_tiers (onStorageChanged area ch res now st).
Proof.
  intros Hs. unfold onStorageChanged.
  destruct (negb _); [done|].
  destruct (ch_translationCache ch); [apply sound_tiers_load|done].
Qed.

Lemma sound_tiers_handle h st : sound_tiers st → sound_tiers (handle h st).
Proof.
  intros Hs. destruct h as [res now|r now ok msg|area ch res now|fetch now|now ok];
    cbn [handle].
  - apply sound_tiers_load.
  - by apply sound_tiers_onMessage.
  - by apply sound_tiers_onStorageChanged.
  - destruct (pendingFlushTimer st); [|done].
    apply sound_tiers_flush. revert Hs. by apply sound_tiers_caches.
  - destruct (_saveTimer st); [|done]. by apply sound_tiers_save.
Qed.

Lemma sound_tiers_initial : sound_tiers initial.
Proof.
  split; [constructor|]. split; intros k ? H; [done|].
  cbn in H. by rewrite lookup_empty in H.
Qed.

Lemma reachable_sound_tiers st : reachable st → sound_tiers st.
Proof.
  induction 1 as [|h st _ IH|st0 st now _ _ _ IH].
  - apply sound_tiers_initial.
  - by apply sound_tiers_handle.
  - apply sound_tiers_save_end; [apply save_begin_truthy|done].
Qed.

Lemma doTranslate_served r text target st x :
  sound_tiers st →
  (doTranslate r text target st).2 = Returned x →
  ((text = "" ∨ target = "") ∧ x = JS.empty)
  ∨ (text ≠ "" ∧ target ≠ "" ∧ truthy x = true).
Proof.
  intros (_ & Hf & Hm). unfold doTranslate.
  destruct (String.eqb text "") eqn:Htext.
  { apply String.eqb_eq in Htext. cbn. intros [= <-]. left. auto. }
  destruct (String.eqb target "") eqn:Htarget.
  { apply String.eqb_eq in Htarget. cbn. intros [= <-]. left. auto. }
  apply String.eqb_neq in Htext, Htarget. cbn [orb].
  set (key := cache_key (USE_CLOUD st) text target).
  destruct (JSMap.has key (_inMemoryCache st)) eqn:Hhas.
  - apply has_true in Hhas as [y Hy]. rewrite Hy. cbn. intros [= <-].
    right. eauto.
  - destruct (_persistentCache st !! key) as [e|] eqn:He; [|done].
    destruct (truthy (Entry.v e)) eqn:Hv; [|done].
    cbn. intros [= <-]. right. eauto.
Qed.

(** X1. In every state the worker can reach, the keys of the fast tier
    are distinct and both tiers hold non-empty values only; hence a
    [translate] request that is answered at once gets the empty string
    only when its text or target is empty, and a non-empty cached value
    otherwise. *)
Theorem reachable_serves_nonempty (st : state) (resolve : nat)
    (text target : string) (x : jsval) :
  reachable st →
  sound_tiers st
  ∧ ((doTranslate resolve text target st).2 = Returned x →
     ((text = "" ∨ target = "") ∧ x = JS.empty)
     ∨ (text ≠ "" ∧ target ≠ "" ∧ truthy x = true)).
Proof.
  intros Hr. pose proof (reachable_sound_tiers st Hr) as Hs.
  split; [done|]. by apply doTranslate_served.
Qed.

Lemma reachable_serves_nonempty_witness :
  sound_tiers loaded
  ∧ ((doTranslate 7 "shalom" "en" loaded).2 = Returned (JStr "hello") →
     (("shalom"%string = ""%string ∨ "en"%string = ""%string)
      ∧ JStr "hello" = JS.empty)
     ∨ ("shalom"%string ≠ ""%string ∧ "en"%string ≠ ""%string
        ∧ truthy (JStr "hello") = true)).
Proof.
  apply (reachable_serves_nonempty loaded 7 "shalom" "en" (JStr "hello")).
  unfold loaded.
  exact (reachable_handle (Startup (Some _) 1000) initial reachable_initial).
Defined.

(** ** What the adapter hands to the resolution loop *)

Lemma mapM_elem_of {A B} (f : A → option B) (l : list A) (k : list B) y :
  mapM f l = Some k → y ∈ k → ∃ x, x ∈ l ∧ f x = Some y.
Proof.
  rewrite mapM_Some. intros HF Hy.
  apply list_elem_of_lookup in Hy as [i Hi].
  destruct (Forall2_lookup_r _ _ _ _ _ HF Hi) as (x & Hx & Hfx).
  exists x. split; [|done]. by eapply list_elem_of_lookup_2.
Qed.

Lemma join_segments_string seg r :
  join_segments seg = Some r → ∃ s, r = JStr s.
Proof.
  unfold join_segments. intros H.
  apply bind_Some in H as (ps & _ & H).
  apply bind_Some in H as (s & _ & H). injection H as <-. by exists s.
Qed.

Lemma string_empty_or_truthy s : JStr s = JS.empty ∨ truthy (JStr s) = true.
Proof. destruct s; [by left|by right]. Qed.

Lemma public_results_strings n data rs x :
  public_results n data = Some rs → x ∈ rs → ∃ s, x = JStr s.
Proof.
  unfold public_results. intros H Hx.
  destruct data as [| | | | |[|[| | | | |d0|] rest]|];
    try (injection H as <-; by apply elem_of_nil in Hx).
  destruct (_ && _).
  - destruct (mapM_elem_of _ _ _ _ H Hx) as (seg & _ & Hseg).
    by eapply join_segments_string.
  - apply bind_Some in H as (r & Hr & H). injection H as <-.
    apply list_elem_of_singleton in Hx as ->. by eapply join_segments_string.
Qed.

Lemma public_results_length n data rs :
  public_results n data = Some rs → length rs = n ∨ (length rs ≤ 1)%nat.
Proof.
  unfold public_results. intros H.
  destruct data as [| | | | |[|[| | | | |d0|] rest]|];
    try (injection H as <-; right; cbn; lia).
  destruct (isArray _); cbn [andb] in H; [case_bool_decide as Hn|].
  - left. apply length_mapM in H. congruence.
  - apply bind_Some in H as (r & _ & H). injection H as <-. right. cbn. lia.
  - apply bind_Some in H as (r & _ & H). injection H as <-. right. cbn. lia.
Qed.

Lemma cloud_results_values data rs x :
  cloud_results data = Some rs → x ∈ rs → x = JS.empty ∨ truthy x = true.
Proof.
  unfold cloud_results. intros H Hx.
  destruct (truthy data); [|injection H as <-; by apply elem_of_nil in Hx].
  apply bind_Some in H as (d & _ & H).
  destruct (truthy d); [|injection H as <-; by apply elem_of_nil in Hx].
  apply bind_Some in H as (tr & _ & H).
  destruct tr as [| | | | |ts|];
    try (injection H as <-; by apply elem_of_nil in Hx).
  cbn in H. destruct (mapM_elem_of _ _ _ _ H Hx) as (t & _ & Ht).
  apply bind_Some in Ht as (y & _ & Ht). injection Ht as <-.
  destruct (truthy y) eqn:Hy; [by right|by left].
Qed.

Lemma parse_response_values cloud n resp x :
  x ∈ parse_response cloud n resp → x = JS.empty ∨ truthy x = true.
Proof.
  unfold parse_response.
  destruct resp as [|[] [data|]]; try (intros H; by apply elem_of_nil in H).
  destruct cloud.
  - destruct (cloud_results data) as [rs|] eqn:Hc;
      [|intros H; by apply elem_of_nil in H].
    by apply (cloud_results_values data).
  - destruct (public_results n data) as [rs|] eqn:Hp;
      [|intros H; by apply elem_of_nil in H].
    intros Hx. destruct (public_results_strings _ _ _ _ Hp Hx) as [s ->].
    apply string_empty_or_truthy.
Qed.

(** X2. Whatever the provider answers, every result the adapter hands on
    is the empty string or a non-empty value, never [undefined], [null],
    [false] or [0]; the public variant yields strings only, and as many
    as texts were sent, or at most one. *)
Theorem adapter_values (cloud : bool) (n : nat) (resp : response) :
  Forall (λ x, x = JS.empty ∨ truthy x = true) (parse_response cloud n resp)
  ∧ Forall (λ x, ∃ s, x = JStr s) (parse_response false n resp)
  ∧ (length (parse_response false n resp) = n
     ∨ (length (parse_response false n resp) ≤ 1)%nat).
Proof.
  split; [|split].
  - apply Forall_forall. intros x. apply parse_response_values.
  - apply Forall_forall. intros x. unfold parse_response.
    destruct resp as [|[] [data|]]; try (intros H; by apply elem_of_nil in H).
    destruct (public_results n data) as [rs|] eqn:Hp;
      [|intros H; by apply elem_of_nil in H].
    by apply (public_results_strings n data).
  - unfold parse_response.
    destruct resp as [|[] [data|]]; try (right; cbn; lia).
    destruct (public_results n data) as [rs|] eqn:Hp; [|right; cbn; lia].
    by apply public_results_length in Hp.
Qed.

Lemma cached_value_sound st x :
  sound_tiers st → cached_value st x → truthy x = true.
Proof.
  intros (_ & Hf & Hm) [[k Hk]|(k & e & He & <-)]; [by eapply Hf|by eapply Hm].
Qed.

Lemma flush_values (R : jsval → Prop) fetch now st ev :
  (∀ x, provided fetch (flushPendingRequests fetch now st).2 x → R x) →
  ev ∈ (flushPendingRequests fetch now st).1.2 →
  ev.2 = JS.empty ∨ R ev.2 ∨ cached_value st ev.2.
Proof.
  unfold flushPendingRequests.
  destruct (pendingRequests st) as [|kv p] eqn:Hp.
  - intros _ H. by apply elem_of_nil in H.
  - intros HR Hev.
    by apply (flush_groups_values R fetch now _ _ ev HR) in Hev.
Qed.

(** X3. In every reachable state, for every provider behaviour, each
    resolver of a flush is called with the empty string or with a
    non-empty value: a caller never receives [undefined], [null] or
    another empty value. *)
Theorem flush_answers_text_or_blank (fetch : request → response) (now : Z)
    (st : state) :
  reachable st →
  Forall (λ ev : event, ev.2 = JS.empty ∨ truthy ev.2 = true)
    (flushPendingRequests fetch now st).1.2.
Proof.
  intros Hr. apply reachable_sound_tiers in Hr.
  apply Forall_forall. intros ev Hev.
  apply (flush_values (λ x, x = JS.empty ∨ truthy x = true)) in Hev.
  - destruct Hev as [?|[[?|?]|Hc]]; auto.
    right. by eapply cached_value_sound.
  - intros x (c & _ & Hx). by eapply parse_response_values.
Qed.

Lemma flush_answers_text_or_blank_witness :
  Forall (λ ev : event, ev.2 = JS.empty ∨ truthy ev.2 = true)
    (flushPendingRequests echo_public 5 asked).1.2.
Proof.
  apply flush_answers_text_or_blank.
  apply reachable_handle, reachable_initial.
Defined.

(** ** The pending map and its timer *)

Lemma sound_pending_frame st st' :
  pendingRequests st' = pendingRequests st →
  pendingFlushTimer st' = pendingFlushTimer st →
  sound_pending st → sound_pending st'.
Proof. unfold sound_pending. by intros -> ->. Qed.

Lemma sound_pending_nil st : pendingRequests st = [] → sound_pending st.
Proof.
  intros Hp. unfold sound_pending. rewrite Hp.
  split; [done|]. split; [constructor|]. by intros k e.
Qed.

Lemma queue_timer r key text target st :
  pendingFlushTimer (queueTranslationRequest r key text target st) = true.
Proof.
  unfold queueTranslationRequest, schedulePendingFlush. cbn.
  by destruct (pendingFlushTimer st) eqn:Ht.
Qed.

Lemma sound_pending_queue r text target st :
  text ≠ "" → target ≠ "" → sound_pending st →
  sound_pending
    (queueTranslationRequest r (cache_key (USE_CLOUD st) text target)
       text target st).
Proof.
  intros Htext Htarget (Ht & Hnd & He).
  set (key := cache_key (USE_CLOUD st) text target).
  split; [by rewrite queue_timer|]. rewrite queue_pending.
  destruct (JSMap.get key (pendingRequests st)) as [e0|] eqn:Hk.
  - split; [by apply set_NoDup|]. intros k e. rewrite get_set.
    destruct (decide (key = k)) as [<-|Hne]; [|apply He].
    intros [= <-]. cbn. destruct (He key e0 Hk) as (? & ? & ? & ?).
    repeat split; [done..| |done]. by destruct (Pending.resolvers e0).
  - split; [by apply set_NoDup|]. intros k e. rewrite get_set.
    destruct (decide (key = k)) as [<-|Hne]; [|apply He].
    intros [= <-]. cbn. repeat split; [done..|]. by exists (USE_CLOUD st).
Qed.

Lemma sound_pending_doTranslate r text target st :
  sound_pending st → sound_pending (doTranslate r text target st).1.
Proof.
  intros Hs.
  destruct (doTranslate_cases r text target st)
    as [(x & _ & [->|(e & _ & Hv & ->)])|[-> [Htext Htarget]]]; [done..|].
  by apply sound_pending_queue.
Qed.

Lemma sound_pending_flush fetch now st :
  sound_pending (flushPendingRequests fetch now st).1.1.
Proof. apply sound_pending_nil, flush_pending. Qed.

Lemma sound_pending_onMessage r now ok msg st :
  sound_pending st → sound_pending (onMessage r now ok msg st).1.1.
Proof.
  intros Hs. unfold onMessage. destruct msg as [m|]; [|done].
  destruct (String.eqb (msg_type m) ""); [done|].
  destruct (String.eqb (msg_type m) "translate").
  { pose proof (sound_pending_doTranslate r (msg_text m) (msg_target m) st Hs).
    by destruct (doTranslate _ _ _ _). }
  destruct (String.eqb (msg_type m) "clearCache"); [done|].
  destruct (String.eqb (msg_type m) "purgeExpired"); [|done].
  destruct (purgeExpired_fast now st) as (_ & Hp & Ht & _).
  pose proof (sound_pending_frame st _ Hp Ht Hs). by destruct (purgeExpired _ _).
Qed.

Lemma load_frame res now st :
  pendingRequests (loadSettingsAndCache res now st) = pendingRequests st
  ∧ pendingFlushTimer (loadSettingsAndCache res now st) = pendingFlushTimer st
  ∧ _saveTimer (loadSettingsAndCache res now st) = _saveTimer st.
Proof. by destruct res. Qed.

Lemma sound_pending_load res now st :
  sound_pending st → sound_pending (loadSettingsAndCache res now st).
Proof. apply sound_pending_frame; apply load_frame. Qed.

Lemma sound_pending_onStorageChanged area ch res now st :
  sound_pending st → sound_pending (onStorageChanged area ch res now st).
Proof.
  intros Hs. unfold onStorageChanged.
  destruct (negb _); [done|].
  destruct (ch_translationCache ch); [by apply sound_pending_load|done].
Qed.

Lemma sound_pending_save_end ok obj st :
  sound_pending st → sound_pending (save_end ok obj st).
Proof. by destruct ok. Qed.

Lemma sound_pending_handle h st : sound_pending st → sound_pending (handle h st).
Proof.
  intros Hs. destruct h as [res now|r now ok msg|area ch res now|fetch now|now ok];
    cbn [handle].
  - by apply sound_pending_load.
  - by apply sound_pending_onMessage.
  - by apply sound_pending_onStorageChanged.
  - destruct (pendingFlushTimer st); [|done]. apply sound_pending_flush.
  - destruct (_saveTimer st); [|done]. unfold savePersistentCache.
    cbn. by apply sound_pending_save_end.
Qed.

Lemma reachable_sound_pending st : reachable st → sound_pending st.
Proof.
  induction 1 as [|h st _ IH|st0 st now _ _ _ IH].
  - by apply sound_pending_nil.
  - by apply sound_pending_handle.
  - by apply sound_pending_save_end.
Qed.

(** X4. In every reachable state: while a request is pending the
    debounce timer is armed, so no caller waits without a flush to come;
    every pending entry has a non-empty text, a non-empty target and at
    least one resolver, under the key of its text and target in some
    mode; hence a flush files each entry under its own target and the
    ['en'] fallback of the grouping loop is never taken. *)
Theorem reachable_pending_sound (st : state) :
  reachable st →
  sound_pending st
  ∧ (registered st ≠ [] → pendingFlushTimer st = true)
  ∧ ∀ kv, kv ∈ pendingRequests st → group_key kv.2 = Pending.target kv.2.
Proof.
  intros Hr. pose proof (reachable_sound_pending st Hr) as Hs.
  split; [done|]. destruct Hs as (Ht & Hnd & He). split.
  - intros Hreg. apply Ht. intros Hp. apply Hreg.
    unfold registered. by rewrite Hp.
  - intros [k e] Hkv. apply group_key_target.
    apply (elem_of_get _ _ _ Hnd) in Hkv. by destruct (He k e Hkv) as (_ & ? & _).
Qed.

Lemma reachable_pending_sound_witness :
  sound_pending asked
  ∧ (registered asked ≠ [] → pendingFlushTimer asked = true)
  ∧ ∀ kv, kv ∈ pendingRequests asked → group_key kv.2 = Pending.target kv.2.
Proof.
  apply reachable_pending_sound.
  apply reachable_handle, reachable_initial.
Defined.

(** ** The blob of a persistence flush *)

Lemma save_loop_fold max now entries obj count :
  save_loop max now entries obj count
  = foldl (λ o kv, <[kv.1 := Entry.mk kv.2 now]> o) obj
      (saved_entries (max - count) entries).
Proof.
  unfold saved_entries. revert obj count.
  induction entries as [|[k val] rest IH]; intros obj count.
  { by rewrite filter_nil, take_nil. }
  cbn [save_loop]. destruct (max <=? count) eqn:Hmax.
  { apply Z.leb_le in Hmax. by replace (Z.to_nat (max - count)) with 0%nat by lia. }
  apply Z.leb_gt in Hmax. destruct (truthy val) eqn:Hv.
  - rewrite filter_cons_True by done. rewrite IH.
    replace (Z.to_nat (max - count))
      with (S (Z.to_nat (max - (count + 1)))) by lia.
    done.
  - rewrite filter_cons_False by (cbn; congruence). apply IH.
Qed.

Lemma foldl_insert_lookup now (l : list (string * jsval))
    (obj : gmap string entry) k :
  NoDup l.*1 →
  foldl (λ o kv, <[kv.1 := Entry.mk kv.2 now]> o) obj l !! k
  = match JSMap.get k l with
    | Some x => Some (Entry.mk x now)
    | None => obj !! k
    end.
Proof.
  revert obj. induction l as [|[k0 x0] l IH]; intros obj Hnd; [done|].
  rewrite fmap_cons in Hnd. apply NoDup_cons in Hnd as [Hk0 Hnd].
  cbn [foldl JSMap.get]. rewrite IH by done. cbn [fst snd].
  destruct (decide (k0 = k)) as [->|Hne].
  - apply get_None_not_elem_of in Hk0. cbn [fst] in Hk0. rewrite Hk0.
    by rewrite lookup_insert_eq.
  - by rewrite lookup_insert_ne.
Qed.

Lemma saved_entries_sublist max fast : saved_entries max fast `sublist_of` fast.
Proof.
  unfold saved_entries. etrans; [apply sublist_take|apply sublist_filter].
Qed.

Lemma saved_entries_NoDup max (fast : list (string * jsval)) :
  NoDup fast.*1 → NoDup (saved_entries max fast).*1.
Proof.
  intros Hnd. eapply sublist_NoDup; [exact Hnd|].
  apply fmap_sublist, saved_entries_sublist.
Qed.

Lemma saved_entries_get max (fast : list (string * jsval)) k x :
  NoDup fast.*1 →
  JSMap.get k (saved_entries max fast) = Some x →
  JSMap.get k fast = Some x ∧ truthy x = true.
Proof.
  intros Hnd Hk. apply get_Some_elem_of in Hk. split.
  - apply elem_of_get; [done|].
    eapply elem_of_sublist; [exact Hk|apply saved_entries_sublist].
  - unfold saved_entries in Hk.
    eapply elem_of_sublist in Hk; [|apply sublist_take].
    by apply list_elem_of_filter in Hk as [? _].
Qed.

Lemma saved_entries_all max (fast : list (string * jsval)) :
  (∀ k x, (k, x) ∈ fast → truthy x = true) →
  Z.of_nat (length fast) ≤ max →
  saved_entries max fast = fast.
Proof.
  intros Ht Hlen. unfold saved_entries.
  rewrite take_ge.
  - induction fast as [|[k x] fast IH]; [done|].
    rewrite filter_cons_True.
    + f_equal. apply IH; [|cbn in Hlen; lia].
      intros k' x' Hin. apply (Ht k'), elem_of_cons. by right.
    + cbn. apply (Ht k), elem_of_cons. by left.
  - etrans; [apply length_filter|]. lia.
Qed.

Lemma save_begin_lookup now st k :
  NoDup (_inMemoryCache st).*1 →
  (save_begin now st).2 !! k
  = (λ x, Entry.mk x now)
    <$> JSMap.get k (saved_entries (MAX_PERSIST_ENTRIES st) (_inMemoryCache st)).
Proof.
  intros Hnd. cbn [save_begin snd]. rewrite save_loop_fold, Z.sub_0_r.
  rewrite foldl_insert_lookup by by apply saved_entries_NoDup.
  destruct (JSMap.get k _); [done|]. by rewrite lookup_empty.
Qed.

Lemma foldl_insert_size now (l : list (string * jsval))
    (obj : gmap string entry) :
  NoDup l.*1 → (∀ k, k ∈ l.*1 → obj !! k = None) →
  size (foldl (λ o kv, <[kv.1 := Entry.mk kv.2 now]> o) obj l)
  = (size obj + length l)%nat.
Proof.
  revert obj. induction l as [|[k0 x0] l IH]; intros obj Hnd Hfresh.
  { cbn. lia. }
  rewrite fmap_cons in Hnd, Hfresh. apply NoDup_cons in Hnd as [Hk0 Hnd].
  cbn [foldl]. rewrite IH; [|done|].
  - rewrite map_size_insert, Hfresh by (apply elem_of_cons; by left).
    cbn. lia.
  - intros k Hk. cbn [fst]. rewrite lookup_insert_ne.
    + apply Hfresh, elem_of_cons. by right.
    + by intros ->.
Qed.

(** ** C10: a persistence flush restamps every entry *)

Lemma saved_entries_within_cap max (fast : list (string * jsval)) k x :
  NoDup fast.*1 → Z.of_nat (length fast) ≤ max →
  JSMap.get k fast = Some x → truthy x = true →
  JSMap.get k (saved_entries max fast) = Some x.
Proof.
  intros Hnd Hlen Hk Hx.
  apply elem_of_get; [by apply saved_entries_NoDup|].
  unfold saved_entries. rewrite take_ge.
  - apply list_elem_of_filter. split; [done|]. by apply get_Some_elem_of.
  - etrans; [apply length_filter|]. lia.
Qed.

(** C10. A persistence flush writes every fast-tier entry with a non-empty
    value that the cap admits (every such entry when the fast tier is
    within the cap), stamped with the time of the flush, whatever [t] the
    mirror held for the key before: the blob handed to the storage and,
    once the write has succeeded, the mirror hold the value with
    [t = now]. Every entry of the blob and of the mirror after the write
    carries that time. So the age of a written entry is zero at the flush:
    a purge at a later time that is no more than the TTL after the flush
    (or under a TTL that is off) removes nothing and keeps the entry, and a
    reload of the written blob at such a time keeps every entry. *)
Theorem save_restamps_entries (st : state) (now : Z) :
  map_Forall (λ _ e, Entry.t e = now) (save_begin now st).2
  ∧ map_Forall (λ _ e, Entry.t e = now)
      (_persistentCache (savePersistentCache now true st).1)
  ∧ (∀ now',
       CACHE_TTL_DAYS st ≤ 0 ∨ now' - now ≤ CACHE_TTL_DAYS st * 86400000 →
       (purgeExpired now' (savePersistentCache now true st).1).2 = 0%nat)
  ∧ (∀ now' r,
       translationCache r = Some (to_raw <$> (save_begin now st).2) →
       let st2 := loadSettingsAndCache (Some r) now'
                    (savePersistentCache now true st).1 in
       CACHE_TTL_DAYS st2 ≤ 0 ∨ now' - now ≤ CACHE_TTL_DAYS st2 * 86400000 →
       ∀ k, is_Some (_persistentCache st2 !! k)
            ↔ is_Some ((save_begin now st).2 !! k))
  ∧ (NoDup (_inMemoryCache st).*1 →
     ∀ k x,
       JSMap.get k (saved_entries (MAX_PERSIST_ENTRIES st) (_inMemoryCache st))
       = Some x
       ∨ (Z.of_nat (length (_inMemoryCache st)) ≤ MAX_PERSIST_ENTRIES st
          ∧ JSMap.get k (_inMemoryCache st) = Some x ∧ truthy x = true) →
       (∃ obj, (savePersistentCache now true st).2 = Some obj
               ∧ obj !! k = Some (Entry.mk x now))
       ∧ _persistentCache (savePersistentCache now true st).1 !! k
         = Some (Entry.mk x now)
       ∧ ∀ now',
           CACHE_TTL_DAYS st ≤ 0
           ∨ now' - now ≤ CACHE_TTL_DAYS st * 86400000 →
           _persistentCache
             (purgeExpired now' (savePersistentCache now true st).1).1 !! k
           = Some (Entry.mk x now)).
Proof.
  assert (Hstamp : map_Forall (λ _ e, Entry.t e = now)
            (save_loop (MAX_PERSIST_ENTRIES st) now (_inMemoryCache st) ∅ 0)).
  { apply save_loop_stamp, map_Forall_empty. }
  assert (Htruthy : map_Forall (λ _ e, truthy (Entry.v e) = true)
            (save_loop (MAX_PERSIST_ENTRIES st) now (_inMemoryCache st) ∅ 0)).
  { apply save_loop_truthy, map_Forall_empty. }
  assert (Hfresh : ∀ now' x,
            CACHE_TTL_DAYS st ≤ 0 ∨ now' - now ≤ CACHE_TTL_DAYS st * 86400000 →
            purge_test (CACHE_TTL_DAYS st) now' (Some (Entry.mk x now))
            = false).
  { intros now' x Hwithin.
    destruct (purge_test _ now' (Some _)) eqn:Htest; [|done].
    apply purge_test_Some in Htest. unfold isExpired, or_now in Htest.
    cbn in Htest. destruct (now =? 0); lia. }
  split; [exact Hstamp|]. split; [exact Hstamp|]. split; [|split].
  - intros now' Hwithin. rewrite purgeExpired_removed.
    rewrite purge_loop_id; [done|].
    intros k _. simpl.
    destruct (save_loop _ _ _ _ _ !! k) as [e|] eqn:Hk;
      [|apply purge_test_None].
    apply Hstamp in Hk. simpl in Hk. destruct e as [x t]. simpl in Hk.
    subst t. by apply Hfresh.
  - intros now' r Hr st2 Hwithin k. unfold st2 in *.
    destruct (load_lookup r now' (savePersistentCache now true st).1 k)
      as [Hk _].
    rewrite Hk, Hr. simpl. rewrite lookup_fmap.
    destruct (save_loop _ _ _ _ _ !! k) as [e|] eqn:He; simpl.
    2:{ split; by intros [? ?]. }
    pose proof (Hstamp k e He) as Ht. pose proof (Htruthy k e He) as Hv.
    simpl in Ht, Hv. rewrite load_entry_spec. simpl. rewrite Hv. simpl.
    rewrite decide_False; [split; intros _; by eexists|].
    simpl in Hwithin. unfold isExpired, or_now. rewrite Ht.
    destruct (now =? 0); lia.
  - intros Hnd k x Hk.
    assert (Hkept : JSMap.get k (saved_entries (MAX_PERSIST_ENTRIES st)
                                   (_inMemoryCache st)) = Some x).
    { destruct Hk as [Hk|(Hlen & Hk & Hx)]; [done|].
      by apply saved_entries_within_cap. }
    pose proof (save_begin_lookup now st k Hnd) as Hblob.
    rewrite Hkept in Hblob. cbn [fmap option_fmap option_map] in Hblob.
    split; [|split].
    + exists (save_begin now st).2. by split.
    + exact Hblob.
    + intros now' Hwithin. rewrite purgeExpired_lookup.
      change (_persistentCache (savePersistentCache now true st).1)
        with (save_begin now st).2.
      change (CACHE_TTL_DAYS (savePersistentCache now true st).1)
        with (CACHE_TTL_DAYS st).
      rewrite Hblob. by rewrite Hfresh.
Qed.

Lemma save_restamps_entries_witness :
  _persistentCache stale_mirror !! "public|a||en"%string
  = Some (Entry.mk (JStr "b") 1)
  ∧ ((∃ obj, (savePersistentCache 5000000000 true stale_mirror).2 = Some obj
             ∧ obj !! "public|a||en"%string
               = Some (Entry.mk (JStr "b") 5000000000))
     ∧ _persistentCache (savePersistentCache 5000000000 true stale_mirror).1
         !! "public|a||en"%string
       = Some (Entry.mk (JStr "b") 5000000000)
     ∧ _persistentCache
         (purgeExpired 7000000000
            (savePersistentCache 5000000000 true stale_mirror).1).1
         !! "public|a||en"%string
       = Some (Entry.mk (JStr "b") 5000000000))
  ∧ map_Forall (λ _ e, Entry.t e = 5000000000)
      (save_begin 5000000000 stale_mirror).2
  ∧ map_Forall (λ _ e, Entry.t e = 5000000000)
      (_persistentCache (savePersistentCache 5000000000 true stale_mirror).1)
  ∧ (purgeExpired 7000000000
       (savePersistentCache 5000000000 true stale_mirror).1).2 = 0%nat
  ∧ ∀ k, is_Some (_persistentCache
                    (loadSettingsAndCache
                       (Some (Storage
                                (Some (to_raw
                                       <$> (save_begin 5000000000
                                              stale_mirror).2))
                                None None false ""))
                       7000000000
                       (savePersistentCache 5000000000 true stale_mirror).1)
                  !! k)
         ↔ is_Some ((save_begin 5000000000 stale_mirror).2 !! k).
Proof.
  pose proof (save_restamps_entries stale_mirror 5000000000)
    as (H1 & H2 & H3 & H4 & H5).
  split; [by vm_compute|]. split; [|split; [exact H1|split; [exact H2|split]]].
  - destruct (H5 ltac:(apply (bool_decide_unpack _); by vm_compute)
                "public|a||en"%string (JStr "b"))
      as (Hobj & Hmirror & Hpurge).
    + right. split; [simpl; lia|]. split; reflexivity.
    + split; [exact Hobj|]. split; [exact Hmirror|].
      apply (Hpurge 7000000000). right. simpl. lia.
  - apply (H3 7000000000). right. simpl. lia.
  - apply (H4 7000000000
             (Storage (Some (to_raw <$> (save_begin 5000000000
                                           stale_mirror).2))
                None None false "")).
    + reflexivity.
    + right. simpl. lia.
Defined.

(** ** The entries of the blob *)

(** X5. The blob a persistence flush builds holds exactly the first
    [MAX_PERSIST_ENTRIES] fast-tier entries with a non-empty value, in
    insertion order, each stamped with the time of the flush; entries
    beyond the cap are left out however recently they were added. Its
    size is the number of those entries. *)
Theorem save_blob_first_entries (st : state) (now : Z) (k : string) :
  NoDup (_inMemoryCache st).*1 →
  let kept := saved_entries (MAX_PERSIST_ENTRIES st) (_inMemoryCache st) in
  (save_begin now st).2 !! k = (λ x, Entry.mk x now) <$> JSMap.get k kept
  ∧ size (save_begin now st).2 = length kept
  ∧ (∀ x, JSMap.get k kept = Some x →
       JSMap.get k (_inMemoryCache st) = Some x ∧ truthy x = true)
  ∧ _persistentCache (savePersistentCache now true st).1
    = (save_begin now st).2.
Proof.
  intros Hnd kept. split; [by apply save_begin_lookup|]. split; [|split].
  - cbn [save_begin snd]. rewrite save_loop_fold, Z.sub_0_r.
    rewrite foldl_insert_size; [done|by apply saved_entries_NoDup|].
    intros ? _. apply lookup_empty.
  - intros x. by apply saved_entries_get.
  - done.
Qed.

Lemma save_blob_first_entries_witness :
  let kept := saved_entries (MAX_PERSIST_ENTRIES over_cap)
                (_inMemoryCache over_cap) in
  (save_begin 5 over_cap).2 !! "public|c||en"%string
  = (λ x, Entry.mk x 5) <$> JSMap.get "public|c||en"%string kept
  ∧ size (save_begin 5 over_cap).2 = length kept
  ∧ (∀ x, JSMap.get "public|c||en"%string kept = Some x →
       JSMap.get "public|c||en"%string (_inMemoryCache over_cap) = Some x
       ∧ truthy x = true)
  ∧ _persistentCache (savePersistentCache 5 true over_cap).1
    = (save_begin 5 over_cap).2.
Proof.
  apply (save_blob_first_entries over_cap 5 "public|c||en").
  apply (bool_decide_unpack _). by vm_compute.
Defined.

(** ** The mirror is part of the fast tier while handlers run whole *)

Lemma mirror_in_fast_caches st st' :
  _inMemoryCache st' = _inMemoryCache st →
  _persistentCache st' = _persistentCache st →
  mirror_in_fast st → mirror_in_fast st'.
Proof. unfold mirror_in_fast. by intros -> ->. Qed.

Lemma mirror_in_fast_load res now st :
  mirror_in_fast (loadSettingsAndCache res now st).
Proof.
  destruct res as [r|]; intros k e He.
  - destruct (load_lookup r now st k) as [_ Hf]. rewrite Hf, He. done.
  - cbn in He. by rewrite lookup_empty in He.
Qed.

Lemma mirror_in_fast_promote key e st :
  _persistentCache st !! key = Some e →
  mirror_in_fast st → mirror_in_fast (promote key (Entry.v e) st).
Proof.
  intros He Hm k e' Hk. cbn in *. rewrite get_set.
  destruct (decide (key = k)) as [<-|Hne]; [|by apply Hm]. congruence.
Qed.

Lemma mirror_in_fast_store now key x st :
  mirror_in_fast st → mirror_in_fast (store now key x st).
Proof.
  intros Hm k e. cbn. rewrite get_set.
  destruct (decide (key = k)) as [<-|Hne].
  - rewrite lookup_insert_eq. by intros [= <-].
  - rewrite lookup_insert_ne by done. apply Hm.
Qed.

Lemma mirror_in_fast_writes R K now st st' :
  writes R K now st st' → mirror_in_fast st → mirror_in_fast st'.
Proof.
  induction 1 as [|st' key e _ IH _ He _ _|st' key x _ IH _ _ _|st' _ IH];
    intros Hm.
  - done.
  - by apply mirror_in_fast_promote; [|apply IH].
  - by apply mirror_in_fast_store, IH.
  - specialize (IH Hm). revert IH.
    apply mirror_in_fast_caches; unfold scheduleSavePersistentCache;
      by destruct (_saveTimer st').
Qed.

Lemma mirror_in_fast_doTranslate r text target st :
  mirror_in_fast st → mirror_in_fast (doTranslate r text target st).1.
Proof.
  intros Hm.
  destruct (doTranslate_cases r text target st)
    as [(x & _ & [->|(e & He & _ & ->)])|[-> _]]; [done| |].
  - by apply mirror_in_fast_promote.
  - cbn [fst]. revert Hm. apply mirror_in_fast_caches; apply queue_frame.
Qed.

Lemma mirror_in_fast_flush fetch now st :
  mirror_in_fast st → mirror_in_fast (flushPendingRequests fetch now st).1.1.
Proof.
  intros Hm.
  destruct (flush_writes (λ _, True) fetch now st) as (st0 & Hw & Hf & Hp & _);
    [done|].
  eapply mirror_in_fast_writes; [exact Hw|].
  revert Hm. by apply mirror_in_fast_caches.
Qed.

Lemma mirror_in_fast_purge now st :
  mirror_in_fast st → mirror_in_fast (purgeExpired now st).1.
Proof.
  intros Hm k e. destruct (purgeExpired_fast now st) as (-> & _).
  rewrite purgeExpired_lookup. destruct (purge_test _ _ _); [done|apply Hm].
Qed.

Lemma mirror_in_fast_save now ok st :
  NoDup (_inMemoryCache st).*1 →
  mirror_in_fast st → mirror_in_fast (savePersistentCache now ok st).1.
Proof.
  intros Hnd Hm. destruct ok; [|done]. intros k e.
  change (_persistentCache (savePersistentCache now true st).1)
    with (save_begin now st).2.
  change (_inMemoryCache (savePersistentCache now true st).1)
    with (_inMemoryCache st).
  rewrite save_begin_lookup by done.
  destruct (JSMap.get k (saved_entries _ _)) as [x|] eqn:Hk; [|done].
  intros [= <-]. by apply saved_entries_get in Hk as [? _].
Qed.

Lemma mirror_in_fast_handle h st :
  NoDup (_inMemoryCache st).*1 →
  mirror_in_fast st → mirror_in_fast (handle h st).
Proof.
  intros Hnd Hm.
  destruct h as [res now|r now ok msg|area ch res now|fetch now|now ok];
    cbn [handle].
  - apply mirror_in_fast_load.
  - unfold onMessage. destruct msg as [m|]; [|done].
    destruct (String.eqb (msg_type m) ""); [done|].
    destruct (String.eqb (msg_type m) "translate").
    { pose proof (mirror_in_fast_doTranslate r (msg_text m) (msg_target m)
                    st Hm).
      by destruct (doTranslate _ _ _ _). }
    destruct (String.eqb (msg_type m) "clearCache").
    { intros k e He. cbn in He. by rewrite lookup_empty in He. }
    destruct (String.eqb (msg_type m) "purgeExpired"); [|done].
    pose proof (mirror_in_fast_purge now st Hm). by destruct (purgeExpired _ _).
  - unfold onStorageChanged. destruct (negb _); [done|].
    destruct (ch_translationCache ch); [apply mirror_in_fast_load|done].
  - destruct (pendingFlushTimer st); [|done].
    apply mirror_in_fast_flush. revert Hm. by apply mirror_in_fast_caches.
  - destruct (_saveTimer st); [|done]. by apply mirror_in_fast_save.
Qed.

Lemma mirror_in_fast_lookup r text target st :
  mirror_in_fast st →
  (doTranslate r text target st).1 = st
  ∨ doTranslate r text target st
    = (queueTranslationRequest r (cache_key (USE_CLOUD st) text target)
         text target st, Queued).
Proof.
  intros Hm. unfold doTranslate.
  destruct (String.eqb text "" || String.eqb target ""); [by left|].
  destruct (JSMap.has _ (_inMemoryCache st)) eqn:Hhas; [by left|].
  apply has_false in Hhas.
  destruct (_persistentCache st !! _) as [e|] eqn:He; [|by right].
  apply Hm in He. congruence.
Qed.

(** X6. While handlers run to completion the mirror stays part of the
    fast tier: if every mirror entry is in the fast tier with the same
    value, this still holds after any message, storage change, debounce
    flush, persistence flush or reload. In such a state a lookup never
    takes the promotion branch: a request is answered from the fast tier
    or, when its text or target is empty, with the empty string, leaving
    the state as it is, or it is queued. *)
Theorem handlers_keep_mirror_in_fast (h : handler) (st : state)
    (resolve : nat) (text target : string) :
  NoDup (_inMemoryCache st).*1 →
  mirror_in_fast st →
  mirror_in_fast (handle h st)
  ∧ NoDup (_inMemoryCache (handle h st)).*1
  ∧ ((doTranslate resolve text target st).1 = st
     ∨ doTranslate resolve text target st
       = (queueTranslationRequest resolve
            (cache_key (USE_CLOUD st) text target) text target st, Queued)).
Proof.
  intros Hnd Hm. split; [by apply mirror_in_fast_handle|]. split.
  - clear Hm text target resolve.
    destruct h as [res now|r now ok msg|area ch res now|fetch now|now ok];
      cbn [handle].
    + apply sound_tiers_load.
    + unfold onMessage. destruct msg as [m|]; [|done].
      destruct (String.eqb (msg_type m) ""); [done|].
      destruct (String.eqb (msg_type m) "translate").
      { destruct (doTranslate_cases r (msg_text m) (msg_target m) st)
          as [(x & _ & [Hst|(e & _ & _ & Hst)])|[Hst _]];
          destruct (doTranslate _ _ _ _) as [st' o]; cbn [fst snd] in *.
        - by subst.
        - subst. cbn. by apply set_NoDup.
        - injection Hst as -> _.
          by destruct (queue_frame r
                         (cache_key (USE_CLOUD st) (msg_text m) (msg_target m))
                         (msg_text m) (msg_target m) st) as (-> & _). }
      destruct (String.eqb (msg_type m) "clearCache"); [constructor|].
      destruct (String.eqb (msg_type m) "purgeExpired"); [|done].
      destruct (purgeExpired_fast now st) as (Hf & _).
      destruct (purgeExpired _ _). cbn [fst] in *. by rewrite Hf.
    + unfold onStorageChanged. destruct (negb _); [done|].
      destruct (ch_translationCache ch); [apply sound_tiers_load|done].
    + destruct (pendingFlushTimer st); [|done].
      destruct (flush_writes (λ _, True) fetch now
                  (with_pendingFlushTimer false st))
        as (st0 & Hw & Hf & _); [done|].
      clear -Hw Hf Hnd. change (_inMemoryCache (with_pendingFlushTimer false st))
        with (_inMemoryCache st) in Hf. rewrite <- Hf in Hnd. clear Hf.
      unfold pendingFlushTimerFired.
      induction Hw as [|st' key e _ IH _ _ _ _|st' key x _ IH _ _ _|st' _ IH].
      * done.
      * cbn. by apply set_NoDup.
      * cbn. by apply set_NoDup.
      * unfold scheduleSavePersistentCache. by destruct (_saveTimer st').
    + destruct (_saveTimer st); [|done]. by destruct ok.
  - by apply mirror_in_fast_lookup.
Qed.

Lemma handlers_keep_mirror_in_fast_witness :
  mirror_in_fast (handle (SaveTimer 5 true) stale_mirror)
  ∧ NoDup (_inMemoryCache (handle (SaveTimer 5 true) stale_mirror)).*1
  ∧ ((doTranslate 1 "a" "en" stale_mirror).1 = stale_mirror
     ∨ doTranslate 1 "a" "en" stale_mirror
       = (queueTranslationRequest 1
            (cache_key (USE_CLOUD stale_mirror) "a" "en") "a" "en"
            stale_mirror, Queued)).
Proof.
  apply (handlers_keep_mirror_in_fast (SaveTimer 5 true) stale_mirror 1
           "a" "en").
  - apply (bool_decide_unpack _). by vm_compute.
  - intros k e He. cbn in He.
    apply lookup_singleton_Some in He as [<- <-]. reflexivity.
Defined.

(** ** Writes of the blob and the reloads they trigger *)

Lemma load_entry_fresh ttl now' x now :
  truthy x = true →
  ttl ≤ 0 ∨ now' - now ≤ ttl * 86400000 →
  load_entry ttl now' (RawObject x (Some now))
  = Some (Entry.mk x (or_now now now')).
Proof.
  intros Hx Hfresh. unfold load_entry, raw_value. rewrite Hx. cbn [default].
  destruct (0 <? ttl) eqn:Httl; [|done]. apply Z.ltb_lt in Httl.
  destruct (_ <? _) eqn:Hexp; [|done]. apply Z.ltb_lt in Hexp.
  unfold or_now, id in Hexp. destruct (now =? 0); lia.
Qed.

Lemma onStorageChanged_reload ch res now st :
  ch_translationCache ch = true →
  ∃ st', onStorageChanged "local" ch res now st
         = loadSettingsAndCache res now st'.
Proof.
  intros Hch. unfold onStorageChanged. rewrite Hch.
  eexists. reflexivity.
Qed.

(** X7. A persistence flush followed by the reload that its storage
    write triggers, within the TTL of the flush (or with the TTL off),
    leaves in the fast tier exactly the entries the blob kept: the first
    [MAX_PERSIST_ENTRIES] non-empty ones. Entries beyond the cap are
    dropped from the fast tier as well; when the fast tier is sound and
    within the cap, every lookup gives what it gave before. *)
Theorem save_reload_roundtrip (st st1 : state) (now now' : Z) (ch : changes)
    (r : storage) :
  NoDup (_inMemoryCache st).*1 →
  ch_translationCache ch = true →
  translationCache r = Some (to_raw <$> (save_begin now st).2) →
  let st2 := onStorageChanged "local" ch (Some r) now' st1 in
  CACHE_TTL_DAYS st2 ≤ 0 ∨ now' - now ≤ CACHE_TTL_DAYS st2 * 86400000 →
  (∀ k, JSMap.get k (_inMemoryCache st2)
        = JSMap.get k (saved_entries (MAX_PERSIST_ENTRIES st)
                         (_inMemoryCache st)))
  ∧ (sound_tiers st →
     Z.of_nat (length (_inMemoryCache st)) ≤ MAX_PERSIST_ENTRIES st →
     ∀ k, JSMap.get k (_inMemoryCache st2) = JSMap.get k (_inMemoryCache st)).
Proof.
  intros Hnd Hch Hr st2 Hfresh.
  assert (Hget : ∀ k, JSMap.get k (_inMemoryCache st2)
                      = JSMap.get k (saved_entries (MAX_PERSIST_ENTRIES st)
                                       (_inMemoryCache st))).
  { intros k. subst st2.
    destruct (onStorageChanged_reload ch (Some r) now' st1 Hch) as [st' Hst'].
    rewrite Hst' in *. destruct (load_lookup r now' st' k) as [Hp Hf].
    rewrite Hf, Hp, Hr. cbn [default id]. rewrite lookup_fmap.
    rewrite save_begin_lookup by done.
    destruct (JSMap.get k (saved_entries _ _)) as [x|] eqn:Hk; [|done].
    apply saved_entries_get in Hk as [_ Hx]; [|done]. cbn in Hfresh |- *.
    unfold to_raw. cbn [Entry.v Entry.t].
    by rewrite (load_entry_fresh _ _ _ _ Hx Hfresh). }
  split; [done|]. intros (_ & Hf & _) Hlen k. rewrite Hget.
  rewrite saved_entries_all; [done| |done].
  intros k' x Hin. apply (Hf k'). by apply elem_of_get.
Qed.

Lemma save_reload_roundtrip_witness :
  let st2 := onStorageChanged "local" cache_changed
               (Some (stored (save_begin 5 over_cap).2)) 6 over_cap in
  (∀ k, JSMap.get k (_inMemoryCache st2)
        = JSMap.get k (saved_entries (MAX_PERSIST_ENTRIES over_cap)
                         (_inMemoryCache over_cap)))
  ∧ (sound_tiers over_cap →
     Z.of_nat (length (_inMemoryCache over_cap))
     ≤ MAX_PERSIST_ENTRIES over_cap →
     ∀ k, JSMap.get k (_inMemoryCache st2)
          = JSMap.get k (_inMemoryCache over_cap)).
Proof.
  apply (save_reload_roundtrip over_cap over_cap 5 6 cache_changed
           (stored (save_begin 5 over_cap).2)).
  - apply (bool_decide_unpack _). by vm_compute.
  - reflexivity.
  - reflexivity.
  - right. cbn. lia.
Defined.

(** X8. A [purgeExpired] message hands the purged mirror to the storage;
    after the reload this write triggers, neither tier holds an entry
    that the purge found expired: every value the fast tier then serves
    comes from a mirror entry that was not expired at the purge. *)
Theorem purge_reload_drops_expired (st : state) (resolve : nat)
    (now now' : Z) (ok : bool) (m : message) (ch : changes) (r : storage) :
  msg_type m = "purgeExpired"%string →
  ch_translationCache ch = true →
  let res := onMessage resolve now ok (Some m) st in
  translationCache r = Some (to_raw <$> _persistentCache res.1.1) →
  let st2 := onStorageChanged "local" ch (Some r) now' res.1.1 in
  res.2 = Some (SetCache (_persistentCache res.1.1))
  ∧ ∀ k x, JSMap.get k (_inMemoryCache st2) = Some x →
      ∃ e, _persistentCache st !! k = Some e ∧ Entry.v e = x
           ∧ ¬ isExpired (CACHE_TTL_DAYS st) now (or_now (Entry.t e) now).
Proof.
  intros Hm Hch res.
  assert (Hres : res = ((purgeExpired now st).1,
                        if ok then Removed (purgeExpired now st).2
                        else Rejected,
                        Some (SetCache (_persistentCache (purgeExpired now st).1)))).
  { subst res. unfold onMessage. rewrite Hm. cbn.
    by destruct (purgeExpired now st). }
  clearbody res. subst res. cbn [fst snd]. intros Hr. split; [done|].
  intros k x Hx.
  destruct (onStorageChanged_reload ch (Some r) now' (purgeExpired now st).1 Hch)
    as [st' Hst']. rewrite Hst' in Hx.
  destruct (load_lookup r now' st' k) as [Hp Hf].
  rewrite Hf, Hp, Hr in Hx. cbn [default id] in Hx.
  rewrite lookup_fmap in Hx.
  rewrite purgeExpired_lookup in Hx.
  destruct (_persistentCache st !! k) as [e|] eqn:He.
  - destruct (purge_test _ _ _) eqn:Htest; [done|].
    cbn in Hx. destruct (load_entry _ _ _) as [e'|] eqn:He'; [|done].
    injection Hx as <-. apply load_entry_value in He' as [_ He'].
    exists e. split; [done|]. split; [done|].
    intros Hexp. apply purge_test_Some in Hexp. congruence.
  - by rewrite purge_test_None in Hx.
Qed.

Lemma purge_reload_drops_expired_witness :
  let res := onMessage 1 5000000000 true purge_msg stale_mirror in
  let st2 := onStorageChanged "local" cache_changed
               (Some (stored (_persistentCache res.1.1))) 5000000001
               res.1.1 in
  res.2 = Some (SetCache (_persistentCache res.1.1))
  ∧ ∀ k x, JSMap.get k (_inMemoryCache st2) = Some x →
      ∃ e, _persistentCache stale_mirror !! k = Some e ∧ Entry.v e = x
           ∧ ¬ isExpired (CACHE_TTL_DAYS stale_mirror) 5000000000
                 (or_now (Entry.t e) 5000000000).
Proof.
  apply (purge_reload_drops_expired stale_mirror 1 5000000000 5000000001 true
           (Message "purgeExpired" "" "") cache_changed
           (stored (_persistentCache
                      (onMessage 1 5000000000 true purge_msg stale_mirror).1.1)));
    reflexivity.
Defined.

(** X9. Until a reload, [purgeExpired] changes no answer: in a state
    whose mirror is part of the fast tier, every [translate] request gets
    after the purge the outcome it would have got before it, so a
    translation the purge removed from the mirror as expired is still
    served from the fast tier. *)
Theorem purge_keeps_answers (st : state) (now : Z) (resolve : nat)
    (text target : string) :
  mirror_in_fast st →
  (doTranslate resolve text target (purgeExpired now st).1).2
  = (doTranslate resolve text target st).2
  ∧ _inMemoryCache (purgeExpired now st).1 = _inMemoryCache st.
Proof.
  intros Hm. destruct (purgeExpired_fast now st) as (Hf & _ & _ & Hc).
  split; [|done]. unfold doTranslate.
  destruct (String.eqb text "" || String.eqb target ""); [done|].
  rewrite Hf, Hc. set (key := cache_key (USE_CLOUD st) text target).
  destruct (JSMap.has key (_inMemoryCache st)) eqn:Hhas; [done|].
  apply has_false in Hhas. rewrite purgeExpired_lookup.
  destruct (_persistentCache st !! key) as [e|] eqn:He.
  { apply Hm in He. congruence. }
  by rewrite purge_test_None.
Qed.

Lemma purge_keeps_answers_witness :
  (doTranslate 1 "a" "en" (purgeExpired 5000000000 stale_mirror).1).2
  = (doTranslate 1 "a" "en" stale_mirror).2
  ∧ _inMemoryCache (purgeExpired 5000000000 stale_mirror).1
    = _inMemoryCache stale_mirror.
Proof.
  apply (purge_keeps_answers stale_mirror 5000000000 1 "a" "en").
  intros k e He. cbn in He.
  apply lookup_singleton_Some in He as [<- <-]. reflexivity.
Defined.

(** ** Clearing the caches *)

(** X10. After a [clearCache] message nothing is served from a cache:
    every request with a non-empty text and target is queued. The
    message leaves the pending requests and both timers as they are, and
    a persistence flush that was armed before it writes an empty blob. *)
Theorem clear_then_requests_queue (st : state) (r0 resolve : nat)
    (now now' : Z) (ok : bool) (m : message) (text target : string) :
  msg_type m = "clearCache"%string → text ≠ "" → target ≠ "" →
  let res := onMessage r0 now ok (Some m) st in
  res.2 = Some RemoveCache
  ∧ (doTranslate resolve text target res.1.1).2 = Queued
  ∧ pendingRequests res.1.1 = pendingRequests st
  ∧ pendingFlushTimer res.1.1 = pendingFlushTimer st
  ∧ _saveTimer res.1.1 = _saveTimer st
  ∧ (savePersistentCache now' true res.1.1).2 = Some ∅.
Proof.
  intros Hm Htext Htarget res.
  assert (Hres : res = (clearCache st, if ok then Cleared else Rejected,
                        Some RemoveCache)).
  { subst res. unfold onMessage. by rewrite Hm. }
  clearbody res. subst res. cbn [fst snd]. split; [done|].
  split; [|done]. unfold doTranslate.
  by rewrite !eqb_empty_false.
Qed.

Lemma clear_then_requests_queue_witness :
  let res := onMessage 1 5 true clear_msg stale_mirror in
  res.2 = Some RemoveCache
  ∧ (doTranslate 2 "a" "en" res.1.1).2 = Queued
  ∧ pendingRequests res.1.1 = pendingRequests stale_mirror
  ∧ pendingFlushTimer res.1.1 = pendingFlushTimer stale_mirror
  ∧ _saveTimer res.1.1 = _saveTimer stale_mirror
  ∧ (savePersistentCache 6 true res.1.1).2 = Some ∅.
Proof.
  apply (clear_then_requests_queue stale_mirror 1 2 5 6 true
           (Message "clearCache" "" "") "a" "en"); [reflexivity|done|done].
Defined.

(** ** The two provider modes do not share cache entries *)

Lemma cache_key_mode text target text' target' :
  cache_key true text target ≠ cache_key false text' target'.
Proof. unfold cache_key. cbv [String.append]. discriminate. Qed.

(** X11. A key built in cloud mode never equals a key built in public
    mode. Hence, when both tiers hold only keys of the current mode and a
    storage change switches the mode without touching the blob, no
    request is answered from a cache: every request with a non-empty text
    and target is queued for the provider of the new mode. *)
Theorem mode_switch_isolates (st : state) (ch : changes)
    (res : option storage) (now : Z) (resolve : nat) (text target : string) :
  (∀ k, is_Some (JSMap.get k (_inMemoryCache st))
        ∨ is_Some (_persistentCache st !! k) →
        ∃ t g, k = cache_key (USE_CLOUD st) t g) →
  ch_translationCache ch = false →
  ch_useCloudTranslate ch = Some (negb (USE_CLOUD st)) →
  text ≠ "" → target ≠ "" →
  let st' := onStorageChanged "local" ch res now st in
  USE_CLOUD st' = negb (USE_CLOUD st)
  ∧ (doTranslate resolve text target st').2 = Queued
  ∧ ∀ t g t' g', cache_key true t g ≠ cache_key false t' g'.
Proof.
  intros Hkeys Hch Hmode Htext Htarget st'.
  assert (Hst' : USE_CLOUD st' = negb (USE_CLOUD st)
                 ∧ _inMemoryCache st' = _inMemoryCache st
                 ∧ _persistentCache st' = _persistentCache st).
  { subst st'. unfold onStorageChanged. by rewrite Hch, Hmode. }
  clearbody st'. destruct Hst' as (Hc & Hf & Hp).
  split; [done|]. split; [|intros; apply cache_key_mode].
  unfold doTranslate. rewrite !eqb_empty_false by done. cbn [orb].
  rewrite Hc, Hf, Hp.
  set (key := cache_key (negb (USE_CLOUD st)) text target).
  assert (Hfresh : ¬ ∃ t g, key = cache_key (USE_CLOUD st) t g).
  { intros (t & g & Hk). subst key. destruct (USE_CLOUD st); cbn in Hk.
    - by apply symmetry, cache_key_mode in Hk.
    - by apply cache_key_mode in Hk. }
  destruct (JSMap.has key (_inMemoryCache st)) eqn:Hhas.
  { apply has_true in Hhas. destruct Hfresh. apply Hkeys. by left. }
  destruct (_persistentCache st !! key) as [e|] eqn:He; [|done].
  destruct Hfresh. apply Hkeys. right. by rewrite He.
Qed.

Lemma mode_switch_isolates_witness :
  let st' := onStorageChanged "local" (mode_changed true) None 5
               stale_mirror in
  USE_CLOUD st' = negb (USE_CLOUD stale_mirror)
  ∧ (doTranslate 1 "a" "en" st').2 = Queued
  ∧ ∀ t g t' g', cache_key true t g ≠ cache_key false t' g'.
Proof.
  apply (mode_switch_isolates stale_mirror (mode_changed true) None 5 1
           "a" "en"); [|reflexivity|reflexivity|done|done].
  intros k [[x Hx]|[e He]]; exists "a"%string, "en"%string.
  - cbn in Hx. destruct (decide _) as [<-|]; [reflexivity|done].
  - cbn in He. apply lookup_singleton_Some in He as [<- _]. reflexivity.
Defined.

(** ** Every non-empty answer of a flush is cached *)

Lemma arm_caches st :
  _inMemoryCache (scheduleSavePersistentCache st) = _inMemoryCache st
  ∧ _persistentCache (scheduleSavePersistentCache st) = _persistentCache st
  ∧ _saveTimer (scheduleSavePersistentCache st) = true.
Proof.
  unfold scheduleSavePersistentCache. by destruct (_saveTimer st) eqn:Ht.
Qed.

Lemma writes_saveTimer R K now st st' :
  writes R K now st st' → _saveTimer st = true → _saveTimer st' = true.
Proof.
  induction 1 as [|st' key e _ IH _ _ _ _|st' key x _ IH _ _ _|st' _ IH];
    intros Ht; [done|by apply IH|by apply IH|apply arm_caches].
Qed.

Lemma resolve_one_cached now results translateIndex items u st ev :
  ev ∈ (resolve_one now results translateIndex items u st).2 →
  truthy ev.2 = true →
  let st1 := (resolve_one now results translateIndex items u st).1 in
  JSMap.get (Item.key u) (_inMemoryCache st1) = Some ev.2
  ∧ _persistentCache st1 !! Item.key u = Some (Entry.mk ev.2 now).
Proof.
  intros Hev Hx. apply resolve_one_values in Hev as [Hv _].
  rewrite resolve_one_eq. cbn zeta. cbn [fst]. rewrite <- Hv, Hx.
  cbn. rewrite get_set, lookup_insert_eq. by rewrite decide_True.
Qed.

Lemma resolve_all_cached now results translateIndex items unique st ev :
  NoDup (Item.key <$> unique) →
  ev ∈ (resolve_all now results translateIndex items unique st).2 →
  truthy ev.2 = true →
  let st' := (resolve_all now results translateIndex items unique st).1 in
  ∃ it, it ∈ items ∧ ev.1 ∈ Item.resolvers it
        ∧ JSMap.get (Item.key it) (_inMemoryCache st') = Some ev.2
        ∧ _persistentCache st' !! Item.key it = Some (Entry.mk ev.2 now).
Proof.
  revert st. induction unique as [|u rest IH]; intros st Hnd Hev Hx.
  { by apply elem_of_nil in Hev. }
  rewrite fmap_cons in Hnd. apply NoDup_cons in Hnd as [Hu Hnd].
  rewrite resolve_all_cons in Hev |- *.
  pose proof (resolve_one_cached now results translateIndex items u st ev)
    as Hone.
  pose proof (resolve_one_values now results translateIndex items u st ev)
    as Hval.
  destruct (resolve_one now results translateIndex items u st)
    as [st1 evs1].
  pose proof (resolve_all_writes (λ _, True)
                (λ k, k ∈ Item.key <$> rest) now results translateIndex
                items rest st1) as Hw.
  specialize (IH st1 Hnd).
  destruct (resolve_all now results translateIndex items rest st1)
    as [st2 evs2].
  cbn [fst snd] in *. apply elem_of_app in Hev as [Hev|Hev].
  - destruct (Hval Hev) as (_ & it & Hit & Hkey & Hr).
    destruct (Hone Hev Hx) as [Hf Hm].
    exists it. split; [done|]. split; [done|]. rewrite Hkey.
    destruct (writes_other_key _ _ _ _ _ (Item.key u)
                (Hw ltac:(intros u' Hu'; by apply list_elem_of_fmap_2)
                    ltac:(done)) Hu) as [-> ->].
    done.
  - by apply IH.
Qed.

Lemma flush_group_cached fetch now target items st ev :
  ev ∈ (flush_group fetch now (target, items) st).1.2 →
  truthy ev.2 = true →
  let st' := (flush_group fetch now (target, items) st).1.1 in
  _saveTimer st' = true
  ∧ ∃ it, it ∈ items ∧ ev.1 ∈ Item.resolvers it
          ∧ JSMap.get (Item.key it) (_inMemoryCache st') = Some ev.2
          ∧ _persistentCache st' !! Item.key it = Some (Entry.mk ev.2 now).
Proof.
  rewrite flush_group_eq. cbn zeta.
  destruct (recheck (dedupe ∅ items) st) as [[st1 tt] ti].
  pose proof (resolve_all_cached now (group_results fetch st1 target tt) ti
                items (dedupe ∅ items) st1 ev) as Hc.
  destruct (resolve_all now _ ti items (dedupe ∅ items) st1) as [st2 evs].
  cbn [fst snd] in *. intros Hev Hx.
  destruct (arm_caches st2) as (-> & -> & ->). split; [done|].
  apply Hc; [apply dedupe_keys|done..].
Qed.

Lemma flush_group_saveTimer fetch now g st :
  _saveTimer (flush_group fetch now g st).1.1 = true.
Proof.
  destruct g as [target items]. rewrite flush_group_eq. cbn zeta.
  destruct (recheck (dedupe ∅ items) st) as [[st1 tt] ti].
  destruct (resolve_all now _ ti items (dedupe ∅ items) st1) as [st2 evs].
  apply arm_caches.
Qed.

Lemma flush_groups_saveTimer fetch now groups st :
  groups ≠ [] ∨ _saveTimer st = true →
  _saveTimer (flush_groups fetch now groups st).1.1 = true.
Proof.
  revert st. induction groups as [|g rest IH]; intros st Hs.
  { by destruct Hs. }
  rewrite flush_groups_cons.
  pose proof (flush_group_saveTimer fetch now g st) as Hg.
  destruct (flush_group fetch now g st) as [[st1 evs1] calls1].
  specialize (IH st1 (or_intror Hg)).
  by destruct (flush_groups fetch now rest st1) as [[st2 evs2] calls2].
Qed.

Lemma flush_groups_cached fetch now groups st ev :
  NoDup (Item.key <$> (groups ≫= snd)) →
  ev ∈ (flush_groups fetch now groups st).1.2 →
  truthy ev.2 = true →
  let st' := (flush_groups fetch now groups st).1.1 in
  ∃ it, it ∈ groups ≫= snd ∧ ev.1 ∈ Item.resolvers it
        ∧ JSMap.get (Item.key it) (_inMemoryCache st') = Some ev.2
        ∧ _persistentCache st' !! Item.key it = Some (Entry.mk ev.2 now).
Proof.
  revert st. induction groups as [|[target items] rest IH];
    intros st Hnd Hev Hx.
  { by apply elem_of_nil in Hev. }
  rewrite bind_cons in Hnd |- *. cbn [snd] in Hnd |- *.
  rewrite fmap_app in Hnd. apply NoDup_app in Hnd as (_ & Hdisj & Hnd).
  rewrite flush_groups_cons in Hev |- *.
  pose proof (flush_group_cached fetch now target items st ev) as Hone.
  destruct (flush_group fetch now (target, items) st)
    as [[st1 evs1] calls1].
  pose proof (flush_groups_writes (λ _, True)
                (λ k, k ∈ Item.key <$> (rest ≫= snd)) fetch now rest st1)
    as Hw.
  specialize (IH st1 Hnd).
  destruct (flush_groups fetch now rest st1) as [[st2 evs2] calls2].
  cbn [fst snd] in *. apply elem_of_app in Hev as [Hev|Hev].
  - destruct (Hone Hev Hx) as (_ & it & Hit & Hr & Hf & Hm).
    exists it. split; [apply elem_of_app; by left|]. split; [done|].
    assert (Hk : Item.key it ∉ Item.key <$> (rest ≫= snd)).
    { apply Hdisj. by apply list_elem_of_fmap_2. }
    destruct (writes_other_key _ _ _ _ _ (Item.key it)
                (Hw ltac:(intros g it' Hg Hit';
                          apply list_elem_of_fmap_2, list_elem_of_bind;
                          by exists g)
                    ltac:(done)) Hk) as [-> ->].
    done.
  - destruct (IH Hev Hx) as (it & Hit & Hrest).
    exists it. split; [apply elem_of_app; by right|done].
Qed.

Lemma flush_cached fetch now st ev :
  NoDup (pendingRequests st).*1 →
  ev ∈ (flushPendingRequests fetch now st).1.2 →
  truthy ev.2 = true →
  let st' := (flushPendingRequests fetch now st).1.1 in
  ∃ k e, (k, e) ∈ pendingRequests st ∧ ev.1 ∈ Pending.resolvers e
         ∧ JSMap.get k (_inMemoryCache st') = Some ev.2
         ∧ _persistentCache st' !! k = Some (Entry.mk ev.2 now).
Proof.
  unfold flushPendingRequests. intros Hnd.
  destruct (pendingRequests st) as [|kv p] eqn:Hp.
  { intros Hev. by apply elem_of_nil in Hev. }
  rewrite <- Hp in *. intros Hev Hx. cbn zeta.
  assert (Hperm : group_by_target (pendingRequests st) ≫= snd
                  ≡ₚ to_item <$> pendingRequests st)
    by apply group_by_target_perm.
  destruct (flush_groups_cached fetch now
              (group_by_target (pendingRequests st))
              (with_pendingRequests [] st) ev)
    as (it & Hit & Hr & Hf & Hm); [|done..|].
  { rewrite Hperm, <- list_fmap_compose. exact Hnd. }
  rewrite Hperm in Hit. apply list_elem_of_fmap in Hit as ([k e] & -> & Hkv).
  by exists k, e.
Qed.

Lemma flush_saveTimer fetch now st :
  pendingRequests st ≠ [] →
  _saveTimer (flushPendingRequests fetch now st).1.1 = true.
Proof.
  unfold flushPendingRequests. intros Hne.
  destruct (pendingRequests st) as [|kv p] eqn:Hp; [done|].
  apply flush_groups_saveTimer. left. intros Hnil.
  pose proof (group_by_target_perm (kv :: p)) as Hperm.
  rewrite Hnil in Hperm. by apply Permutation_nil_cons in Hperm.
Qed.

(** X12. Every non-empty answer of a flush is cached: when a resolver is
    called with a non-empty value, that value is afterwards in the fast
    tier and in the mirror, stamped with the time of the flush, under
    the key of the pending request the resolver belonged to; and a flush
    of a non-empty pending map leaves the persistence timer armed. *)
Theorem flush_answers_cached (fetch : request → response) (now : Z)
    (st : state) (ev : event) :
  NoDup (pendingRequests st).*1 →
  ev ∈ (flushPendingRequests fetch now st).1.2 →
  truthy ev.2 = true →
  let st' := (flushPendingRequests fetch now st).1.1 in
  _saveTimer st' = true
  ∧ ∃ k e, (k, e) ∈ pendingRequests st ∧ ev.1 ∈ Pending.resolvers e
           ∧ JSMap.get k (_inMemoryCache st') = Some ev.2
           ∧ _persistentCache st' !! k = Some (Entry.mk ev.2 now).
Proof.
  intros Hnd Hev Hx st'. split; [|by apply flush_cached].
  apply flush_saveTimer. intros Hp. unfold flushPendingRequests in Hev.
  rewrite Hp in Hev. by apply elem_of_nil in Hev.
Qed.

Lemma flush_answers_cached_witness :
  let st' := (flushPendingRequests echo_public 5 asked).1.1 in
  _saveTimer st' = true
  ∧ ∃ k e, (k, e) ∈ pendingRequests asked
           ∧ (1%nat, JStr "<shalom").1 ∈ Pending.resolvers e
           ∧ JSMap.get k (_inMemoryCache st') = Some (1%nat, JStr "<shalom").2
           ∧ _persistentCache st' !! k
             = Some (Entry.mk (1%nat, JStr "<shalom").2 5).
Proof.
  apply (flush_answers_cached echo_public 5 asked (1%nat, JStr "<shalom")).
  - apply (bool_decide_unpack _). by vm_compute.
  - vm_compute. apply elem_of_cons. by left.
  - reflexivity.
Defined.

(** * The options page *)

Lemma options_purge_loop_cons ttl now k keys cache removed :
  options_purge_loop ttl now (k :: keys) cache removed
  = if stored_test ttl now (cache !! k)
    then options_purge_loop ttl now keys (delete k cache) (S removed)
    else options_purge_loop ttl now keys cache removed.
Proof. reflexivity. Qed.

Lemma stored_test_true ttl now o :
  stored_test ttl now o = true
  ↔ ∃ v t, o = Some (RawObject v (Some t)) ∧ t ≠ 0
           ∧ isExpired ttl now t.
Proof.
  unfold stored_test, isExpired. rewrite andb_true_iff, !Z.ltb_lt. split.
  - intros [Httl Hexp]. destruct o as [[s|v [t|]|]|]; cbn in Hexp; try lia.
    destruct (t =? 0) eqn:Ht; [lia|]. apply Z.eqb_neq in Ht.
    exists v, t. split; [done|]. split; [done|]. lia.
  - intros (v & t & -> & Ht & Httl & Hexp). cbn.
    apply Z.eqb_neq in Ht. rewrite Ht. lia.
Qed.

Lemma stored_test_None ttl now : stored_test ttl now None = false.
Proof.
  apply not_true_is_false. rewrite stored_test_true. by intros (? & ? & ? & _).
Qed.

Lemma stored_test_to_raw ttl now (o : option entry) :
  stored_test ttl now (to_raw <$> o) = purge_test ttl now o.
Proof. by destruct o. Qed.

Lemma options_purge_loop_lookup ttl now keys cache removed k :
  (options_purge_loop ttl now keys cache removed).1 !! k
  = if decide (k ∈ keys)
    then (if stored_test ttl now (cache !! k) then None else cache !! k)
    else cache !! k.
Proof.
  revert cache removed. induction keys as [|k0 keys IH]; intros cache removed.
  - destruct (decide (k ∈ [])) as [Hin|]; [by apply elem_of_nil in Hin|done].
  - rewrite options_purge_loop_cons.
    destruct (decide (k = k0)) as [->|Hne].
    + rewrite (decide_True (P := k0 ∈ k0 :: keys))
        by (apply elem_of_cons; by left).
      destruct (stored_test ttl now (cache !! k0)) eqn:Htest; rewrite IH.
      * rewrite lookup_delete_eq, stored_test_None. by destruct (decide _).
      * rewrite Htest. by destruct (decide _).
    + assert (Hiff : k ∈ k0 :: keys ↔ k ∈ keys).
      { rewrite elem_of_cons. split; [intros [?|?]; [congruence|done] | by right]. }
      destruct (stored_test ttl now (cache !! k0)); rewrite IH.
      * rewrite lookup_delete_ne by done.
        destruct (decide (k ∈ keys)), (decide (k ∈ k0 :: keys)); tauto || done.
      * destruct (decide (k ∈ keys)), (decide (k ∈ k0 :: keys)); tauto || done.
Qed.

Lemma options_purge_loop_count ttl now keys cache removed :
  ((options_purge_loop ttl now keys cache removed).2
   + size (options_purge_loop ttl now keys cache removed).1
   = removed + size cache)%nat.
Proof.
  revert cache removed. induction keys as [|k keys IH]; intros cache removed.
  - done.
  - rewrite options_purge_loop_cons.
    destruct (stored_test ttl now (cache !! k)) eqn:Htest; [|apply IH].
    rewrite IH. destruct (cache !! k) as [e|] eqn:Hk.
    + rewrite map_size_delete, Hk.
      assert (size cache ≠ 0%nat); [|lia].
      intros Hz. apply map_size_empty_inv in Hz. by rewrite Hz in Hk.
    + by rewrite stored_test_None in Htest.
Qed.

Lemma options_purge_lookup ttl now (cache : gmap string raw_entry) k :
  (options_purge_loop ttl now (map_to_list cache).*1 cache 0).1 !! k
  = if stored_test ttl now (cache !! k) then None else cache !! k.
Proof.
  rewrite options_purge_loop_lookup.
  destruct (decide _) as [|Hnot]; [done|].
  destruct (cache !! k) as [e|] eqn:Hk; [|by rewrite stored_test_None].
  destruct Hnot. apply list_elem_of_fmap. exists (k, e).
  split; [done|]. by apply elem_of_map_to_list.
Qed.

(** X13. On a blob the worker wrote, the purge of the options page and
    the [purgeExpired] message of the worker agree: under the same TTL
    and at the same time the page writes back exactly the worker's purged
    mirror and reports the same count. *)
Theorem options_purge_agrees (st : state) (r : storage) (field : option Z)
    (now : Z) :
  translationCache r = Some (to_raw <$> _persistentCache st) →
  cacheTTLDays r = Some (CACHE_TTL_DAYS st) →
  purgeExpiredCache (Some r) field now
  = Some (to_raw <$> _persistentCache (purgeExpired now st).1,
          (purgeExpired now st).2).
Proof.
  intros Hblob Httl. unfold purgeExpiredCache. rewrite Hblob, Httl.
  cbn [default id]. f_equal.
  set (ttl := CACHE_TTL_DAYS st). set (cache := _persistentCache st).
  pose proof (options_purge_loop_count ttl now
                (map_to_list (to_raw <$> cache)).*1 (to_raw <$> cache) 0)
    as Hcount.
  pose proof (λ k, options_purge_lookup ttl now (to_raw <$> cache) k)
    as Hlookup.
  destruct (options_purge_loop _ _ _ _ _) as [blob removed].
  cbn [fst snd] in *.
  assert (Hblob' : blob = to_raw <$> _persistentCache (purgeExpired now st).1).
  { apply map_eq. intros k. rewrite Hlookup, !lookup_fmap.
    rewrite stored_test_to_raw, purgeExpired_lookup. fold ttl cache.
    by destruct (purge_test ttl now (cache !! k)). }
  f_equal; [done|].
  pose proof (purge_loop_count (CACHE_TTL_DAYS st) now
                (map_to_list (_persistentCache st)).*1 (_persistentCache st) 0)
    as Hcount'.
  rewrite <- purgeExpired_cache, <- purgeExpired_removed in Hcount'.
  rewrite Hblob', !map_size_fmap in Hcount. subst ttl cache. lia.
Qed.

Lemma options_purge_agrees_witness :
  purgeExpiredCache (Some (Storage (Some (to_raw <$> _persistentCache
                                                       stale_mirror))
                             None (Some 30) false ""))
    None 5000000000
  = Some (to_raw <$> _persistentCache (purgeExpired 5000000000 stale_mirror).1,
          (purgeExpired 5000000000 stale_mirror).2).
Proof.
  apply (options_purge_agrees stale_mirror
           (Storage (Some (to_raw <$> _persistentCache stale_mirror))
              None (Some 30) false "") None 5000000000); reflexivity.
Defined.

(** X14. The purge of the options page removes only entries that carry a
    non-zero timestamp of their own older than the TTL: legacy strings
    and entries without a timestamp always stay. What it removes the
    worker would drop on loading anyway, so a reload at the same or a
    later time, under the same stored TTL, builds the same mirror and the
    same fast-tier lookups from the purged blob as from the blob before
    the purge. *)
Theorem options_purge_keeps_load (r : storage) (field : option Z)
    (now now' : Z) (st : state) (blob : gmap string raw_entry) (n : nat)
    (ttl : Z) :
  cacheTTLDays r = Some ttl → now ≤ now' →
  purgeExpiredCache (Some r) field now = Some (blob, n) →
  let raw := default ∅ (translationCache r) in
  let st1 := loadSettingsAndCache (Some r) now' st in
  let st2 := loadSettingsAndCache (Some (with_translationCache blob r)) now'
               st in
  (∀ k, blob !! k = None
        ∨ blob !! k = raw !! k)
  ∧ (∀ k s, raw !! k = Some (RawString s) → blob !! k = Some (RawString s))
  ∧ (∀ k v, raw !! k = Some (RawObject v None) →
       blob !! k = Some (RawObject v None))
  ∧ (n + size blob = size raw)%nat
  ∧ _persistentCache st2 = _persistentCache st1
  ∧ ∀ k, JSMap.get k (_inMemoryCache st2) = JSMap.get k (_inMemoryCache st1).
Proof.
  intros Httl Hnow Hpurge raw st1 st2.
  unfold purgeExpiredCache in Hpurge. rewrite Httl in Hpurge. fold raw in Hpurge.
  pose proof (options_purge_loop_count ttl now (map_to_list raw).*1 raw 0)
    as Hcount.
  pose proof (λ k, options_purge_lookup ttl now raw k) as Hlookup.
  injection Hpurge as Hpurge. rewrite Hpurge in Hcount, Hlookup.
  cbn [fst snd] in *. clear Hpurge.
  assert (Hmirror : ∀ k, _persistentCache st2 !! k = _persistentCache st1 !! k).
  { intros k. subst st1 st2.
    destruct (load_lookup r now' st k) as [-> _].
    destruct (load_lookup (with_translationCache blob r) now' st k) as [-> _].
    cbn [loadSettingsAndCache CACHE_TTL_DAYS with_translationCache
         cacheTTLDays translationCache default id]. rewrite Httl.
    cbn [default id]. fold raw. rewrite Hlookup.
    destruct (stored_test ttl now (raw !! k)) eqn:Htest; [|done].
    apply stored_test_true in Htest as (v & t & -> & Ht & Httl' & Hexp).
    cbn. unfold load_entry, raw_value. destruct (truthy v); [|done].
    cbn [default id]. unfold or_now. apply Z.eqb_neq in Ht. rewrite Ht.
    assert ((0 <? ttl) = true) as -> by (apply Z.ltb_lt; lia).
    assert ((ttl * 24 * 60 * 60 * 1000 <? now' - t) = true) as ->
      by (apply Z.ltb_lt; lia).
    done. }
  split; [|split; [|split; [|split; [|split]]]].
  - intros k. rewrite Hlookup. destruct (stored_test _ _ _); auto.
  - intros k s Hk. rewrite Hlookup, Hk.
    destruct (stored_test _ _ _) eqn:Htest; [|done].
    by apply stored_test_true in Htest as (? & ? & ? & _).
  - intros k v Hk. rewrite Hlookup, Hk.
    destruct (stored_test _ _ _) eqn:Htest; [|done].
    by apply stored_test_true in Htest as (? & ? & ? & _).
  - lia.
  - by apply map_eq.
  - intros k. subst st1 st2.
    destruct (load_lookup r now' st k) as [_ ->].
    destruct (load_lookup (with_translationCache blob r) now' st k) as [_ ->].
    by rewrite Hmirror.
Qed.

Lemma options_purge_keeps_load_witness :
  let blob := (options_purge_loop 30 5000000000
                 (map_to_list (default ∅ (translationCache mixed_blob))).*1
                 (default ∅ (translationCache mixed_blob)) 0).1 in
  let n := (options_purge_loop 30 5000000000
              (map_to_list (default ∅ (translationCache mixed_blob))).*1
              (default ∅ (translationCache mixed_blob)) 0).2 in
  let raw := default ∅ (translationCache mixed_blob) in
  let st1 := loadSettingsAndCache (Some mixed_blob) 5000000001 initial in
  let st2 := loadSettingsAndCache
               (Some (with_translationCache blob mixed_blob)) 5000000001
               initial in
  (∀ k, blob !! k = None ∨ blob !! k = raw !! k)
  ∧ (∀ k s, raw !! k = Some (RawString s) → blob !! k = Some (RawString s))
  ∧ (∀ k v, raw !! k = Some (RawObject v None) →
       blob !! k = Some (RawObject v None))
  ∧ (n + size blob = size raw)%nat
  ∧ _persistentCache st2 = _persistentCache st1
  ∧ ∀ k, JSMap.get k (_inMemoryCache st2) = JSMap.get k (_inMemoryCache st1).
Proof.
  apply (options_purge_keeps_load mixed_blob None 5000000000 5000000001
           initial _ _ 30).
  - reflexivity.
  - lia.
  - unfold purgeExpiredCache. cbn [cacheTTLDays mixed_blob].
    by destruct (options_purge_loop _ _ _ _ _).
Defined.

(** * More on the worker: what a flush leaves alone *)

(** ** Which code overwrites an entry of the fast tier *)

Lemma has_set_same {V} k (x : V) m : JSMap.has k (JSMap.set k x m) = true.
Proof. apply has_true. rewrite get_set, decide_True by done. by eexists. Qed.

Lemma recheck_keeps unique st k x :
  JSMap.get k (_inMemoryCache st) = Some x →
  JSMap.get k (_inMemoryCache (recheck unique st).1.1) = Some x.
Proof.
  revert st. induction unique as [|u rest IH]; intros st Hk; [done|].
  cbn [recheck].
  destruct (JSMap.has (Item.key u) (_inMemoryCache st)) eqn:Hhas.
  { by apply IH. }
  assert (Hqueue :
    JSMap.get k
      (_inMemoryCache
         (let '(st', toTranslate, translateIndex) := recheck rest st in
          (st', Item.text u :: toTranslate, Item.key u :: translateIndex)).1.1)
    = Some x).
  { specialize (IH st Hk). by destruct (recheck rest st) as [[st' tt'] ti']. }
  destruct (_persistentCache st !! Item.key u) as [[v t]|] eqn:He; [|done].
  destruct (truthy v) eqn:Hv; [|done].
  apply IH. cbn. rewrite get_set_ne; [done|].
  intros <-. apply has_false in Hhas. congruence.
Qed.

Lemma resolve_one_value now results translateIndex items u st k x :
  JSMap.get k (_inMemoryCache st) = Some x →
  let y := from_results results translateIndex (Item.key u) in
  JSMap.get k
    (_inMemoryCache (resolve_one now results translateIndex items u st).1)
  = Some (if decide (Item.key u = k ∧ truthy y = true) then y else x).
Proof.
  intros Hk y. rewrite resolve_one_eq. cbn zeta. cbn [fst].
  unfold translated_for. fold y.
  destruct (decide (Item.key u = k)) as [Hkey|Hne].
  - rewrite Hkey in *.
    assert (Hhas : JSMap.has k (_inMemoryCache st) = true).
    { apply has_true. by eexists. }
    rewrite Hhas, Hk. cbn [default]. unfold id.
    destruct (truthy y) eqn:Hy; cbn [negb andb].
    + rewrite Hy, decide_True by done. cbn. by rewrite get_set, decide_True.
    + rewrite decide_False by (intros [_ ?]; congruence).
      destruct (truthy x); [|done]. cbn. by rewrite get_set, decide_True.
  - rewrite decide_False by (intros [? _]; congruence).
    destruct (truthy _); [|done]. cbn. by rewrite get_set_ne.
Qed.

Lemma resolve_one_has now results translateIndex items u st k :
  k ≠ Item.key u →
  JSMap.has k
    (_inMemoryCache (resolve_one now results translateIndex items u st).1)
  = JSMap.has k (_inMemoryCache st).
Proof.
  intros Hne. rewrite resolve_one_eq. cbn zeta. cbn [fst].
  destruct (truthy (translated_for _ _ _ _)); [|done].
  cbn. by rewrite has_set_ne.
Qed.

Lemma doTranslate_fast r text target st k x :
  JSMap.get k (_inMemoryCache st) = Some x →
  JSMap.get k (_inMemoryCache (doTranslate r text target st).1) = Some x.
Proof.
  intros Hk. unfold doTranslate.
  destruct (String.eqb text "" || String.eqb target ""); [done|].
  destruct (JSMap.has _ (_inMemoryCache st)) eqn:Hhas; [done|].
  apply has_false in Hhas.
  destruct (_persistentCache st !! _) as [e|]; [destruct (truthy (Entry.v e))|];
    cbn; try by rewrite ?(proj1 (queue_frame _ _ _ _ _)).
  rewrite get_set_ne; [done|]. intros <-. congruence.
Qed.

(** X15. An entry of the fast tier is neither overwritten nor dropped by a
    request, a purge, a persistence write or a storage change that leaves
    the blob alone, nor by the second cache check of a flush, in whatever
    state that check runs. The resolution loop of a flush is the code that
    overwrites it: in whatever state the loop runs (the state may have
    changed since the flush issued its call), the round for a key sets the
    entry of that key to the result read for it whenever that result is
    non-empty, without looking at what the tier holds, and leaves every
    entry as it is otherwise. *)
Theorem fast_value_kept_or_resolved (st : state) (k : string) (x : jsval) :
  JSMap.get k (_inMemoryCache st) = Some x →
  (∀ h, keeps_fast h → JSMap.get k (_inMemoryCache (handle h st)) = Some x)
  ∧ (∀ unique,
       JSMap.get k (_inMemoryCache (recheck unique st).1.1) = Some x)
  ∧ (∀ now results translateIndex items u,
       let y := from_results results translateIndex (Item.key u) in
       JSMap.get k
         (_inMemoryCache
            (resolve_one now results translateIndex items u st).1)
       = Some (if decide (Item.key u = k ∧ truthy y = true) then y else x)).
Proof.
  intros Hk. split; [|split].
  - intros h Hh.
    destruct h as [res now|r now ok msg|area ch res now|fetch now|now ok];
      cbn [handle keeps_fast] in *.
    + done.
    + unfold onMessage. destruct msg as [m|]; [|done].
      destruct (String.eqb (msg_type m) ""); [done|].
      destruct (String.eqb (msg_type m) "translate").
      { pose proof (doTranslate_fast r (msg_text m) (msg_target m) st k x Hk).
        by destruct (doTranslate _ _ _ _). }
      destruct (String.eqb (msg_type m) "clearCache") eqn:Hc.
      { by apply String.eqb_eq in Hc. }
      destruct (String.eqb (msg_type m) "purgeExpired"); [|done].
      destruct (purgeExpired_fast now st) as (Hf & _).
      destruct (purgeExpired _ _). cbn [fst] in *. by rewrite Hf.
    + unfold onStorageChanged.
      destruct (String.eqb area "local") eqn:Ha; [|done].
      apply String.eqb_eq in Ha. destruct Hh as [?|Hch]; [done|].
      by rewrite Hch.
    + done.
    + destruct (_saveTimer st); [|done]. by destruct ok.
  - intros unique. by apply recheck_keeps.
  - intros now results translateIndex items u. by apply resolve_one_value.
Qed.

Lemma fast_value_kept_or_resolved_witness :
  JSMap.get "public|a||en"
    (_inMemoryCache
       (handle (Msg 1 5000000000 true purge_msg) stale_mirror))
  = Some (JStr "b")
  ∧ JSMap.get "public|a||en"
      (_inMemoryCache
         (recheck [Item.mk "public|a||en" "a" [1%nat]] stale_mirror).1.1)
    = Some (JStr "b")
  ∧ JSMap.get "public|a||en"
      (_inMemoryCache
         (resolve_one 5000000000 [JStr "c"] ["public|a||en"%string]
            [Item.mk "public|a||en" "a" [1%nat]]
            (Item.mk "public|a||en" "a" [1%nat]) stale_mirror).1)
    = Some (JStr "c")
  ∧ JSMap.get "public|a||en"
      (_inMemoryCache
         (resolve_one 5000000000 [] ["public|a||en"%string]
            [Item.mk "public|a||en" "a" [1%nat]]
            (Item.mk "public|a||en" "a" [1%nat]) stale_mirror).1)
    = Some (JStr "b").
Proof.
  destruct (fast_value_kept_or_resolved stale_mirror "public|a||en"
              (JStr "b") eq_refl) as (Hh & Hrc & Hres).
  split; [|split; [|split]].
  - apply (Hh (Msg 1 5000000000 true purge_msg)). discriminate.
  - apply Hrc.
  - exact (Hres 5000000000 [JStr "c"] ["public|a||en"%string]
             [Item.mk "public|a||en" "a" [1%nat]]
             (Item.mk "public|a||en" "a" [1%nat])).
  - exact (Hres 5000000000 [] ["public|a||en"%string]
             [Item.mk "public|a||en" "a" [1%nat]]
             (Item.mk "public|a||en" "a" [1%nat])).
Defined.

(** ** The outbound calls of a flush *)

Lemma uncached_promote_back k key v st :
  uncached k (promote key v st) → uncached k st.
Proof.
  intros [Hhas Hm]. split; [|done]. cbn in Hhas.
  apply has_false in Hhas. apply has_false. rewrite get_set in Hhas.
  by destruct (decide (key = k)).
Qed.

Lemma uncached_writes_back R K now st st' k :
  writes R K now st st' → uncached k st' → uncached k st.
Proof.
  induction 1 as [|st' key e _ IH _ _ _ _|st' key x _ IH _ _ _|st' _ IH];
    intros Hu.
  - done.
  - by apply IH, (uncached_promote_back k key (Entry.v e)).
  - apply IH. destruct Hu as [Hhas Hm]. cbn in Hhas, Hm.
    apply has_false in Hhas. rewrite get_set in Hhas.
    destruct (decide (key = k)) as [|Hne]; [done|].
    split; [by apply has_false|]. intros e He. apply Hm.
    by rewrite lookup_insert_ne.
  - apply IH. destruct Hu as [Hhas Hm].
    destruct (arm_caches st') as (Hf & Hp & _). split; [by rewrite <- Hf|].
    intros e He. apply Hm. by rewrite Hp.
Qed.

Lemma recheck_texts unique st st1 tt ti q :
  recheck unique st = (st1, tt, ti) → q ∈ tt →
  ∃ u, u ∈ unique ∧ Item.text u = q ∧ uncached (Item.key u) st.
Proof.
  revert st st1 tt ti.
  induction unique as [|u rest IH]; intros st st1 tt ti Hre Hq.
  { injection Hre as <- <- <-. by apply elem_of_nil in Hq. }
  assert (Hrest : ∀ st0 tt0, (∃ st' ti', recheck rest st0 = (st', tt0, ti')) →
            (∀ k, uncached k st0 → uncached k st) →
            q ∈ tt0 →
            ∃ u0, u0 ∈ u :: rest ∧ Item.text u0 = q
                  ∧ uncached (Item.key u0) st).
  { intros st0 tt0 (st' & ti' & Hr) Hback Hin.
    destruct (IH _ _ _ _ Hr Hin) as (u0 & Hu0 & Ht & Hun).
    exists u0. split; [apply elem_of_cons; by right|]. split; [done|].
    by apply Hback. }
  cbn [recheck] in Hre.
  destruct (JSMap.has (Item.key u) (_inMemoryCache st)) eqn:Hhas.
  { apply (Hrest st tt); [by exists st1, ti|done..]. }
  assert (Hqueue : ∀ st' tt' ti',
            (∀ e, _persistentCache st !! Item.key u = Some e →
                  truthy (Entry.v e) = false) →
            recheck rest st = (st', tt', ti') →
            (st1, tt, ti) = (st', Item.text u :: tt', Item.key u :: ti') →
            ∃ u0, u0 ∈ u :: rest ∧ Item.text u0 = q
                  ∧ uncached (Item.key u0) st).
  { intros st' tt' ti' Hm Hr [= -> -> ->].
    apply elem_of_cons in Hq as [->|Hq].
    - exists u. split; [apply elem_of_cons; by left|done].
    - apply (Hrest st tt'); [by exists st', ti'|done..]. }
  destruct (_persistentCache st !! Item.key u) as [[v t]|] eqn:He.
  - destruct (truthy v) eqn:Hv.
    + apply (Hrest (promote (Item.key u) v st) tt); [by exists st1, ti| |done].
      intros k. apply uncached_promote_back.
    + destruct (recheck rest st) as [[st' tt'] ti'] eqn:Hr.
      apply (Hqueue st' tt' ti'); [|done..]. by intros e [= <-].
  - destruct (recheck rest st) as [[st' tt'] ti'] eqn:Hr.
    by apply (Hqueue st' tt' ti').
Qed.

Lemma build_request_mode st target toTranslate :
  let c := build_request st target toTranslate in
  req_cloud c = USE_CLOUD st && negb (String.eqb (GOOGLE_API_KEY st) "")
  ∧ req_key c = (if req_cloud c then GOOGLE_API_KEY st else ""%string).
Proof.
  unfold build_request.
  by destruct (USE_CLOUD st && negb (String.eqb (GOOGLE_API_KEY st) "")).
Qed.

Lemma flush_group_calls fetch now target items st c :
  c ∈ (flush_group fetch now (target, items) st).2 →
  (flush_group fetch now (target, items) st).2 = [c]
  ∧ req_target c = target
  ∧ req_q c ≠ []
  ∧ (∀ q, q ∈ req_q c →
       ∃ it, it ∈ items ∧ Item.text it = q ∧ uncached (Item.key it) st)
  ∧ req_cloud c = USE_CLOUD st && negb (String.eqb (GOOGLE_API_KEY st) "")
  ∧ req_key c = (if req_cloud c then GOOGLE_API_KEY st else ""%string).
Proof.
  rewrite flush_group_eq. cbn zeta.
  destruct (recheck (dedupe ∅ items) st) as [[st1 tt] ti] eqn:Hre.
  pose proof (recheck_writes (λ _, True) (λ _, True) now _ _ _ _ _ Hre
                ltac:(done)) as Hw.
  apply writes_frame in Hw as (_ & _ & Hc & Hk & _).
  destruct (resolve_all now _ ti items (dedupe ∅ items) st1) as [st2 evs].
  cbn [snd]. unfold group_calls. destruct tt as [|q0 tt]; [by intros ?%elem_of_nil|].
  intros ->%list_elem_of_singleton. split; [done|].
  destruct (build_request_q st1 target (q0 :: tt)) as [Hq Ht].
  destruct (build_request_mode st1 target (q0 :: tt)) as [Hm Hkey].
  rewrite Hq, Ht, Hm, Hkey, Hm, Hc, Hk. repeat split; [done|].
  intros q Hin.
  destruct (recheck_texts _ _ _ _ _ q Hre Hin) as (u & Hu & Htext & Hun).
  exists u. split; [|done]. by eapply dedupe_subseteq.
Qed.

Lemma flush_group_frame fetch now g st :
  USE_CLOUD (flush_group fetch now g st).1.1 = USE_CLOUD st
  ∧ GOOGLE_API_KEY (flush_group fetch now g st).1.1 = GOOGLE_API_KEY st
  ∧ ∀ k, uncached k (flush_group fetch now g st).1.1 → uncached k st.
Proof.
  destruct g as [target items].
  pose proof (flush_group_writes (λ _, True) (λ _, True) fetch now target
                items st ltac:(done) ltac:(done)) as Hw.
  split; [|split].
  - by apply writes_frame in Hw as (_ & _ & ? & ? & _).
  - by apply writes_frame in Hw as (_ & _ & ? & ? & _).
  - intros k. by apply (uncached_writes_back _ _ _ _ _ _ Hw).
Qed.

Lemma flush_groups_calls fetch now groups st c :
  c ∈ (flush_groups fetch now groups st).2 →
  ∃ items, (req_target c, items) ∈ groups
    ∧ req_q c ≠ []
    ∧ (∀ q, q ∈ req_q c →
         ∃ it, it ∈ items ∧ Item.text it = q ∧ uncached (Item.key it) st)
    ∧ req_cloud c = USE_CLOUD st && negb (String.eqb (GOOGLE_API_KEY st) "")
    ∧ req_key c = (if req_cloud c then GOOGLE_API_KEY st else ""%string).
Proof.
  revert st. induction groups as [|[target items] rest IH]; intros st Hc.
  { by apply elem_of_nil in Hc. }
  rewrite flush_groups_cons in Hc.
  pose proof (flush_group_calls fetch now target items st c) as Hone.
  destruct (flush_group_frame fetch now (target, items) st) as (Hcl & Hk & Hun).
  destruct (flush_group fetch now (target, items) st)
    as [[st1 evs1] calls1].
  specialize (IH st1).
  destruct (flush_groups fetch now rest st1) as [[st2 evs2] calls2].
  cbn [fst snd] in *. apply elem_of_app in Hc as [Hc|Hc].
  - destruct (Hone Hc) as (_ & <- & Hrest). exists items.
    split; [apply elem_of_cons; by left|done].
  - destruct (IH Hc) as (its & Hin & Hq & Htexts & Hmode). exists its.
    split; [apply elem_of_cons; by right|]. split; [done|].
    split; [|by rewrite <- Hcl, <- Hk].
    intros q Hqin. destruct (Htexts q Hqin) as (it & Hit & Htext & Hu).
    exists it. auto.
Qed.

Lemma flush_groups_targets fetch now groups st :
  req_target <$> (flush_groups fetch now groups st).2 `sublist_of` groups.*1.
Proof.
  revert st. induction groups as [|[target items] rest IH]; intros st; [done|].
  rewrite flush_groups_cons.
  pose proof (flush_group_calls fetch now target items st) as Hone.
  destruct (flush_group fetch now (target, items) st)
    as [[st1 evs1] calls1].
  specialize (IH st1).
  destruct (flush_groups fetch now rest st1) as [[st2 evs2] calls2].
  cbn [fst snd] in *. rewrite fmap_app, fmap_cons. cbn [fst].
  destruct calls1 as [|c calls1].
  - by apply sublist_cons.
  - destruct (Hone c ltac:(apply elem_of_cons; by left)) as ([= ->] & <- & _).
    by apply sublist_skip.
Qed.

(** X16. The outbound calls of a flush: at most one call goes to each
    target, whatever the number of pending texts; a call carries at
    least one text, and every text it carries is the text of a request
    that was pending for that target under a key that neither tier could
    serve. A call goes to the cloud endpoint exactly when cloud mode is
    on and an API key is set, and only such a call carries the key:
    nothing is sent to the public endpoint with the key, and cloud mode
    without a key uses the public endpoint. *)
Theorem flush_calls (fetch : request → response) (now : Z) (st : state) :
  let calls := (flushPendingRequests fetch now st).2 in
  NoDup (req_target <$> calls)
  ∧ ∀ c, c ∈ calls →
      req_q c ≠ []
      ∧ (∀ q, q ∈ req_q c →
           ∃ kv, kv ∈ pendingRequests st ∧ Pending.text kv.2 = q
                 ∧ group_key kv.2 = req_target c ∧ uncached kv.1 st)
      ∧ req_cloud c
        = USE_CLOUD st && negb (String.eqb (GOOGLE_API_KEY st) "")
      ∧ req_key c = (if req_cloud c then GOOGLE_API_KEY st else ""%string).
Proof.
  unfold flushPendingRequests.
  destruct (pendingRequests st) as [|kv p] eqn:Hp.
  { split; [constructor|]. by intros c ?%elem_of_nil. }
  rewrite <- Hp. cbn zeta. split.
  - eapply sublist_NoDup; [|apply flush_groups_targets].
    apply foldl_group_NoDup. constructor.
  - intros c Hc. apply flush_groups_calls in Hc
      as (items & Hin & Hq & Htexts & Hmode & Hkey).
    split; [done|]. split; [|done].
    intros q Hqin. destruct (Htexts q Hqin) as (it & Hit & Htext & Hun).
    apply group_by_target_items in Hin. rewrite Hin in Hit.
    apply list_elem_of_fmap in Hit as (kv' & -> & Hkv).
    apply list_elem_of_filter in Hkv as [Hg Hkv]. by exists kv'.
Qed.

(** ** The second cache check *)

Lemma not_uncached k st :
  ¬ uncached k st ↔
  JSMap.has k (_inMemoryCache st) = true
  ∨ ∃ e, _persistentCache st !! k = Some e ∧ truthy (Entry.v e) = true.
Proof.
  unfold uncached. split.
  - intros Hnot. destruct (JSMap.has k (_inMemoryCache st)); [by left|].
    destruct (_persistentCache st !! k) as [e|] eqn:He.
    + destruct (truthy (Entry.v e)) eqn:Hv; [right; by exists e|].
      destruct Hnot. split; [done|]. by intros e' [= <-].
    + destruct Hnot. by split.
  - intros [Hhas|(e & He & Hv)] [Hhas' Hm]; [congruence|].
    specialize (Hm e He). congruence.
Qed.

Lemma writes_has R K now st st' k :
  writes R K now st st' →
  JSMap.has k (_inMemoryCache st) = true →
  JSMap.has k (_inMemoryCache st') = true.
Proof.
  induction 1 as [|st' key e _ IH _ _ _ _|st' key x _ IH _ _ _|st' _ IH];
    intros Hhas.
  - done.
  - cbn. destruct (decide (key = k)) as [->|Hne];
      [apply has_set_same|rewrite has_set_ne by done; by apply IH].
  - cbn. destruct (decide (key = k)) as [->|Hne];
      [apply has_set_same|rewrite has_set_ne by done; by apply IH].
  - destruct (arm_caches st') as (-> & _). by apply IH.
Qed.

Lemma recheck_all_served unique st :
  (∀ u, u ∈ unique → ¬ uncached (Item.key u) st) →
  ∃ st1, recheck unique st = (st1, [], [])
         ∧ ∀ u, u ∈ unique → JSMap.has (Item.key u) (_inMemoryCache st1) = true.
Proof.
  revert st. induction unique as [|u rest IH]; intros st Hall.
  { exists st. split; [done|]. by intros u ?%elem_of_nil. }
  assert (Hstep : ∀ st0,
            (∀ k, ¬ uncached k st → ¬ uncached k st0) →
            JSMap.has (Item.key u) (_inMemoryCache st0) = true →
            ∃ st1, recheck rest st0 = (st1, [], [])
                   ∧ ∀ u0, u0 ∈ u :: rest →
                       JSMap.has (Item.key u0) (_inMemoryCache st1) = true).
  { intros st0 Hmono Hhas.
    destruct (IH st0) as (st1 & Hre & Hrest).
    { intros u' Hu'. apply Hmono, Hall, elem_of_cons. by right. }
    exists st1. split; [done|].
    intros u0 [->|Hu0]%elem_of_cons; [|by apply Hrest].
    pose proof (recheck_writes (λ _, True) (λ _, True) 0 rest st0 st1 [] []
                  Hre ltac:(done)) as Hw.
    by apply (writes_has _ _ _ _ _ _ Hw). }
  cbn [recheck].
  destruct (JSMap.has (Item.key u) (_inMemoryCache st)) eqn:Hhas.
  { by apply Hstep. }
  assert (Hu : ¬ uncached (Item.key u) st).
  { apply Hall, elem_of_cons. by left. }
  apply not_uncached in Hu as [Hu|([v t] & He & Hv)]; [congruence|].
  rewrite He. cbn in Hv. rewrite Hv. apply Hstep.
  - intros k Hk Hun. by apply Hk, (uncached_promote_back k (Item.key u) v).
  - apply has_set_same.
Qed.

Lemma resolve_all_nothing now items unique st ev :
  (∀ u, u ∈ unique → JSMap.has (Item.key u) (_inMemoryCache st) = true) →
  ev ∈ (resolve_all now [] [] items unique st).2 →
  ∃ k, JSMap.get k (_inMemoryCache st) = Some ev.2.
Proof.
  revert st. induction unique as [|u rest IH]; intros st Hall Hev.
  { by apply elem_of_nil in Hev. }
  rewrite resolve_all_cons in Hev.
  pose proof (resolve_one_values now [] [] items u st ev) as Hval.
  pose proof (resolve_one_eq now [] [] items u st) as Heq.
  assert (Hx : ∃ x, JSMap.get (Item.key u) (_inMemoryCache st) = Some x
                    ∧ translated_for [] [] (Item.key u) st = x).
  { destruct (proj1 (has_true _ _)
                (Hall u ltac:(apply elem_of_cons; by left))) as [x Hx].
    exists x. split; [done|]. unfold translated_for, from_results. cbn.
    rewrite (proj2 (has_true _ _)) by by exists x. by rewrite Hx. }
  destruct Hx as (x & Hget & Hx). rewrite Hx in Heq, Hval. cbn zeta in Heq.
  destruct (resolve_one now [] [] items u st) as [st1 evs1].
  injection Heq as -> ->. specialize (IH (if truthy x then store now (Item.key u) x st else st)).
  destruct (resolve_all now [] [] items rest _) as [st2 evs2].
  cbn [fst snd] in *. apply elem_of_app in Hev as [Hev|Hev].
  - destruct (Hval Hev) as [-> _]. by exists (Item.key u).
  - destruct IH as [k Hk]; [|done|].
    + intros u' Hu'.
      assert (JSMap.has (Item.key u') (_inMemoryCache st) = true) as Hhas
        by (apply Hall, elem_of_cons; by right).
      destruct (truthy x); [|done]. cbn.
      destruct (decide (Item.key u = Item.key u')) as [->|Hne];
        [apply has_set_same|by rewrite has_set_ne].
    + destruct (truthy x); [|by exists k]. cbn in Hk. rewrite get_set in Hk.
      destruct (decide (Item.key u = k)) as [<-|]; [|by exists k].
      injection Hk as <-. by exists (Item.key u).
Qed.

Lemma flush_group_served fetch now target items st :
  (∀ it, it ∈ items → ¬ uncached (Item.key it) st) →
  (flush_group fetch now (target, items) st).2 = []
  ∧ ∀ ev, ev ∈ (flush_group fetch now (target, items) st).1.2 →
      cached_value st ev.2.
Proof.
  intros Hall. rewrite flush_group_eq. cbn zeta.
  destruct (recheck_all_served (dedupe ∅ items) st) as (st1 & Hre & Hhas).
  { intros u Hu. by apply Hall, (dedupe_subseteq ∅). }
  rewrite Hre. cbn [group_results group_calls].
  pose proof (resolve_all_nothing now items (dedupe ∅ items) st1) as Hev.
  destruct (resolve_all now [] [] items (dedupe ∅ items) st1) as [st2 evs].
  cbn [fst snd] in *. split; [done|]. intros ev Hin.
  destruct (Hev ev Hhas Hin) as [k Hk].
  pose proof (recheck_writes (λ _, False) (λ _, True) now _ _ _ _ _ Hre
                ltac:(done)) as Hw.
  destruct (writes_origin _ _ _ _ _ Hw) as [Hf _].
  by destruct (Hf k _ Hk).
Qed.

Lemma flush_groups_served fetch now groups st :
  (∀ g it, g ∈ groups → it ∈ g.2 → ¬ uncached (Item.key it) st) →
  (flush_groups fetch now groups st).2 = []
  ∧ ∀ ev, ev ∈ (flush_groups fetch now groups st).1.2 →
      cached_value st ev.2.
Proof.
  revert st. induction groups as [|[target items] rest IH]; intros st Hall.
  { split; [done|]. by intros ev ?%elem_of_nil. }
  rewrite flush_groups_cons.
  destruct (flush_group_served fetch now target items st) as [Hcalls Hevs].
  { intros it Hit. apply (Hall (target, items)); [|done].
    apply elem_of_cons. by left. }
  destruct (flush_group_frame fetch now (target, items) st) as (_ & _ & Hun).
  pose proof (flush_group_writes (λ _, False) (λ _, True) fetch now target
                items st ltac:(done)) as Hw.
  destruct (flush_group fetch now (target, items) st)
    as [[st1 evs1] calls1].
  cbn [fst snd] in *. subst calls1.
  specialize (Hw ltac:(by intros x (c & ?%elem_of_nil & _))).
  destruct (IH st1) as [Hcalls' Hevs'].
  { intros g it Hg Hit Hu. apply (Hall g it); [apply elem_of_cons; by right|done|].
    by apply Hun. }
  destruct (flush_groups fetch now rest st1) as [[st2 evs2] calls2].
  cbn [fst snd] in *. subst calls2. split; [done|].
  intros ev [Hev|Hev]%elem_of_app; [by apply Hevs|].
  destruct (writes_cached_value _ _ _ _ _ ev.2 Hw (Hevs' ev Hev)); done.
Qed.

(** X17. The second cache check: when the key of every pending request
    can be served by the fast tier or by a non-empty mirror entry at the
    time of the flush, the flush makes no outbound call at all, and every
    resolver is called with a value that a tier held. *)
Theorem flush_served_without_call (fetch : request → response) (now : Z)
    (st : state) :
  (∀ kv, kv ∈ pendingRequests st → ¬ uncached kv.1 st) →
  (flushPendingRequests fetch now st).2 = []
  ∧ Forall (λ ev : event, cached_value st ev.2)
      (flushPendingRequests fetch now st).1.2.
Proof.
  intros Hall. unfold flushPendingRequests.
  destruct (pendingRequests st) as [|kv p] eqn:Hp; [done|].
  rewrite <- Hp in *.
  destruct (flush_groups_served fetch now (group_by_target (pendingRequests st))
              (with_pendingRequests [] st)) as [Hcalls Hevs].
  - intros [t its] it Hg Hit. cbn [snd] in Hit.
    apply group_by_target_items in Hg. rewrite Hg in Hit.
    apply list_elem_of_fmap in Hit as (kv' & -> & Hkv).
    apply list_elem_of_filter in Hkv as [_ Hkv].
    intros Hun. by apply (Hall kv' Hkv).
  - split; [done|]. by apply Forall_forall.
Qed.

Lemma flush_served_without_call_witness :
  (flushPendingRequests offline 2000 asked_then_loaded).2 = []
  ∧ Forall (λ ev : event, cached_value asked_then_loaded ev.2)
      (flushPendingRequests offline 2000 asked_then_loaded).1.2.
Proof.
  apply (flush_served_without_call offline 2000 asked_then_loaded).
  intros kv Hin. apply not_uncached. left.
  apply list_elem_of_singleton in Hin as ->. reflexivity.
Defined.

(** * The unbatched worker *)

Lemma arm_mode st :
  USE_CLOUD (scheduleSavePersistentCache st) = USE_CLOUD st.
Proof. unfold scheduleSavePersistentCache. by destruct (_saveTimer st). Qed.

Lemma direct_fetch_and_cache fetch now key text target st :
  let res := Direct.fetch_and_cache fetch now key text target st in
  JSMap.get key (_inMemoryCache res.1.1) = Some res.1.2
  ∧ USE_CLOUD res.1.1 = USE_CLOUD st
  ∧ res.2 = [build_request st target [text]]
  ∧ (truthy res.1.2 = false → _persistentCache res.1.1 = _persistentCache st)
  ∧ (truthy res.1.2 = true →
     _persistentCache res.1.1 !! key = Some (Entry.mk res.1.2 now)
     ∧ _saveTimer res.1.1 = true).
Proof.
  unfold Direct.fetch_and_cache. cbn zeta.
  set (result := Direct.translate_result _ _). cbn [fst snd].
  destruct (truthy result) eqn:Hr.
  - destruct (arm_caches
                (with_persistentCache
                   (<[key:=Entry.mk result now]>
                      (_persistentCache
                         (with_inMemoryCache
                            (JSMap.set key result (_inMemoryCache st)) st)))
                   (with_inMemoryCache
                      (JSMap.set key result (_inMemoryCache st)) st)))
      as (Hf & Hp & Ht).
    rewrite Hf, Hp, Ht. cbn. rewrite get_set, decide_True by done.
    split; [done|]. split.
    { by rewrite arm_mode. }
    split; [done|]. split; [done|]. intros _.
    by rewrite lookup_insert_eq.
  - cbn. rewrite get_set, decide_True by done. done.
Qed.

(** X18. The unbatched worker remembers every answer, blank ones
    included: after a request with a non-empty text and target, the same
    request is answered with the same value and without a provider call,
    whatever the provider would answer now. A request makes at most one
    call; a blank result of a call is kept in the fast tier only, the
    mirror is left as it was. *)
Theorem direct_repeat_is_cached (fetch : request → response) (now : Z)
    (text target : string) (st : state) :
  text ≠ "" → target ≠ "" →
  let res := Direct.doTranslate fetch now text target st in
  (∀ fetch' now',
     Direct.doTranslate fetch' now' text target res.1.1
     = (res.1.1, res.1.2, []))
  ∧ (length res.2 ≤ 1)%nat
  ∧ (res.2 ≠ [] → truthy res.1.2 = false →
     JSMap.get (cache_key (USE_CLOUD st) text target)
       (_inMemoryCache res.1.1) = Some res.1.2
     ∧ _persistentCache res.1.1 = _persistentCache st).
Proof.
  intros Htext Htarget res.
  set (key := cache_key (USE_CLOUD st) text target).
  assert (Hres : JSMap.get key (_inMemoryCache res.1.1) = Some res.1.2
                 ∧ USE_CLOUD res.1.1 = USE_CLOUD st
                 ∧ (length res.2 ≤ 1)%nat
                 ∧ (res.2 ≠ [] → truthy res.1.2 = false →
                    _persistentCache res.1.1 = _persistentCache st)).
  { subst res. unfold Direct.doTranslate.
    rewrite !eqb_empty_false by done. cbn [orb]. fold key.
    pose proof (direct_fetch_and_cache fetch now key text target st) as Hf.
    cbn zeta in Hf. destruct Hf as (Hf1 & Hf2 & Hf3 & Hf4 & _).
    assert (Hlen : (length (Direct.fetch_and_cache fetch now key text target
                              st).2 ≤ 1)%nat) by by rewrite Hf3.
    destruct (JSMap.has key (_inMemoryCache st)) eqn:Hhas.
    { apply has_true in Hhas as [x Hx]. rewrite Hx. cbn.
      split; [done|]. split; [done|]. split; [lia|done]. }
    destruct (_persistentCache st !! key) as [e|] eqn:He; [|by auto].
    destruct (truthy (Entry.v e)) eqn:Hv; [|by auto].
    cbn. rewrite get_set, decide_True by done.
    split; [done|]. split; [done|]. split; [lia|done]. }
  clearbody res. destruct res as [[st1 x] calls]. cbn [fst snd] in *.
  destruct Hres as (Hget & Hc & Hlen & Hblank).
  split; [|split; [done|]].
  - intros fetch' now'. unfold Direct.doTranslate.
    rewrite !eqb_empty_false by done. cbn [orb]. rewrite Hc. fold key.
    rewrite (proj2 (has_true _ _)) by by exists x. by rewrite Hget.
  - intros Hcalls Hx. split; [done|by apply Hblank].
Qed.

Lemma direct_repeat_is_cached_witness :
  let res := Direct.doTranslate offline 5 "shalom" "en" initial in
  (∀ fetch' now',
     Direct.doTranslate fetch' now' "shalom" "en" res.1.1
     = (res.1.1, res.1.2, []))
  ∧ (length res.2 ≤ 1)%nat
  ∧ (res.2 ≠ [] → truthy res.1.2 = false →
     JSMap.get (cache_key (USE_CLOUD initial) "shalom" "en")
       (_inMemoryCache res.1.1) = Some res.1.2
     ∧ _persistentCache res.1.1 = _persistentCache initial).
Proof.
  apply (direct_repeat_is_cached offline 5 "shalom" "en" initial); done.
Defined.

Lemma join_segments_null xs :
  JNull ∈ xs → join_segments (JArr xs) = None.
Proof.
  intros Hin. unfold join_segments, array_map.
  assert (mapM get_index0 xs = None) as ->; [|done].
  apply mapM_None, Exists_exists. by exists JNull.
Qed.

Lemma public_results_one_segment xs :
  public_results 1 (JArr [JArr [JArr xs]])
  = r ← join_segments (JArr xs); Some [r].
Proof.
  unfold public_results. cbn [head default isArray andb length].
  rewrite bool_decide_true by done. cbn [mapM].
  by destruct (join_segments (JArr xs)).
Qed.

(** X19. The two workers read a public reply to one text differently.
    When the first-level array does not hold exactly one array, the
    batched adapter takes its fallback and yields what the unbatched
    worker returned: the string joined from the first-level segments. On
    a reply with exactly one segment the unbatched worker returns the
    text of the segment, while the batched adapter reads the segment as
    the list of segments: it joins the first characters of its fields,
    and yields no result at all when a field is [null]. *)
Theorem public_adapters_compared (d0 rest : list jsval) (s : string)
    (fields : list jsval) :
  (isArray (default JUndefined (head d0)) && bool_decide (length d0 = 1%nat)
   = false →
   parse_response false 1 (Response true (Some (JArr (JArr d0 :: rest))))
   = match Direct.public_result (JArr (JArr d0 :: rest)) with
     | Some r => [r]
     | None => []
     end)
  ∧ Direct.translate_result false (one_segment s fields) = JStr s
  ∧ parse_response false 1 (one_segment s fields)
    = match join_segments (JArr (JStr s :: fields)) with
      | Some r => [r]
      | None => []
      end
  ∧ (JNull ∈ fields → parse_response false 1 (one_segment s fields) = []).
Proof.
  assert (Hone : parse_response false 1 (one_segment s fields)
                 = match join_segments (JArr (JStr s :: fields)) with
                   | Some r => [r]
                   | None => []
                   end).
  { unfold parse_response, one_segment. rewrite public_results_one_segment.
    by destruct (join_segments _). }
  split; [|split; [|split; [done|]]].
  - intros Hcond. unfold parse_response, public_results, Direct.public_result.
    rewrite Hcond. by destruct (join_segments (JArr d0)).
  - unfold Direct.translate_result, one_segment, Direct.public_result,
      join_segments. cbn. by destruct s.
  - intros Hnull. rewrite Hone, join_segments_null; [done|].
    apply elem_of_cons. by right.
Qed.

(** * The content script *)

Lemma append_nil_r (s : string) : s +:+ "" = s.
Proof.
  induction s as [|c s IH]; [done|].
  cbv [String.append]; fold String.append. by rewrite IH.
Qed.

Lemma append_cons (c : ascii) (s1 s2 : string) :
  String c s1 +:+ s2 = String c (s1 +:+ s2).
Proof. reflexivity. Qed.

Lemma strip_prefix_Some p s r :
  Content.strip_prefix p s = Some r ↔ s = p +:+ r.
Proof.
  revert s. induction p as [|a p IH]; intros s.
  - cbn. split; [by intros [= ->]|by intros ->].
  - destruct s as [|b s]; cbn; [done|].
    rewrite append_cons. destruct (Ascii.eqb a b) eqn:Hab.
    + apply Ascii.eqb_eq in Hab as ->. rewrite IH.
      split; [by intros ->|by intros [= ->]].
    + apply Ascii.eqb_neq in Hab. split; [done|]. intros [= <- _]. done.
Qed.

Lemma split_from_nonempty fuel sep acc s : Content.split_from fuel sep acc s ≠ [].
Proof.
  revert acc s. induction fuel as [|fuel IH]; intros acc s; [done|].
  cbn. destruct (Content.strip_prefix sep s); [done|].
  destruct s; [done|apply IH].
Qed.

Lemma join_cons sep x rest :
  rest ≠ [] → Content.join sep (x :: rest) = x +:+ sep +:+ Content.join sep rest.
Proof. by destruct rest. Qed.

Lemma join_split_from fuel sep acc s :
  Content.join sep (Content.split_from fuel sep acc s) = acc +:+ s.
Proof.
  revert acc s. induction fuel as [|fuel IH]; intros acc s; [done|].
  cbn [Content.split_from].
  destruct (Content.strip_prefix sep s) as [rest|] eqn:Hp.
  - apply strip_prefix_Some in Hp as ->.
    rewrite join_cons by apply split_from_nonempty. by rewrite IH.
  - destruct s as [|c s]; [by rewrite append_nil_r|].
    rewrite IH, append_assoc. done.
Qed.

Lemma split_from_absent fuel sep acc s :
  ¬ Content.occurs sep s → Content.split_from fuel sep acc s = [acc +:+ s].
Proof.
  revert acc s. induction fuel as [|fuel IH]; intros acc s Hno; [done|].
  cbn [Content.split_from].
  destruct (Content.strip_prefix sep s) as [rest|] eqn:Hp.
  - apply strip_prefix_Some in Hp. destruct Hno. by exists ""%string, rest.
  - destruct s as [|c s]; [by rewrite append_nil_r|].
    rewrite IH, append_assoc; [done|].
    intros (a & b & ->). apply Hno. by exists (String c a), b.
Qed.

Lemma split_from_occurs fuel sep acc a b :
  sep ≠ "" →
  (String.length (a +:+ sep +:+ b) < fuel)%nat →
  (2 ≤ length (Content.split_from fuel sep acc (a +:+ sep +:+ b)))%nat.
Proof.
  intros Hsep. revert fuel acc.
  induction a as [|c a IH]; intros fuel acc Hfuel.
  - change ("" +:+ sep +:+ b) with (sep +:+ b) in *.
    destruct fuel as [|fuel]; [lia|]. cbn [Content.split_from].
    assert (Content.strip_prefix sep (sep +:+ b) = Some b) as Hp
      by by apply strip_prefix_Some.
    rewrite Hp. cbn [length].
    pose proof (split_from_nonempty fuel sep "" b).
    destruct (Content.split_from fuel sep "" b); [done|cbn; lia].
  - destruct fuel as [|fuel]; [lia|]. cbn [Content.split_from].
    destruct (Content.strip_prefix sep _) as [rest|].
    + cbn [length]. pose proof (split_from_nonempty fuel sep "" rest).
      destruct (Content.split_from fuel sep "" rest); [done|cbn; lia].
    + rewrite append_cons. apply IH. rewrite append_cons in Hfuel.
      cbn in Hfuel. lia.
Qed.

Lemma join_length sep pieces :
  pieces ≠ [] →
  String.length (Content.join sep pieces)
  = (sum_list (String.length <$> pieces)
     + (length pieces - 1) * String.length sep)%nat.
Proof.
  induction pieces as [|x rest IH]; [done|]. intros _.
  destruct rest as [|y rest].
  { cbn. lia. }
  rewrite join_cons by done. rewrite !length_append, IH by done.
  rewrite !fmap_cons. cbn [sum_list sum_list_with length].
  rewrite !Nat.sub_succ, !Nat.sub_0_r. cbn [Nat.mul]. unfold id. lia.
Qed.

Lemma join_occurs lit sep pieces :
  (2 ≤ length pieces)%nat → Content.occurs lit sep →
  Content.occurs lit (Content.join sep pieces).
Proof.
  intros Hlen (a & b & ->).
  destruct pieces as [|x [|y rest]]; [cbn in Hlen; lia..|].
  rewrite join_cons by done.
  exists (x +:+ a), (b +:+ Content.join ((a +:+ lit +:+ b)) (y :: rest)).
  by rewrite !append_assoc.
Qed.

Lemma makeMatcher_literal valid find :
  find ≠ "" → Content.isRegexString find = false →
  Content.makeMatcher valid find = Some (Content.Literal find).
Proof.
  intros Hf Hre. unfold Content.makeMatcher.
  by rewrite eqb_empty_false, Hre.
Qed.

Lemma apply_mapping_literal valid regex_replace text m :
  Content.find m ≠ "" → Content.isRegexString (Content.find m) = false →
  Content.apply_mapping valid regex_replace text m
  = Content.join (Content.replace m) (Content.split (Content.find m) text).
Proof.
  intros Hf Hre. unfold Content.apply_mapping.
  rewrite (makeMatcher_literal _ _ Hf Hre). by rewrite !eqb_empty_false.
Qed.

(** X20. A pass over a text node whose text holds none of the literal
    [find] strings, or whose literal mappings replace each [find] by
    itself, leaves the text as it is and assigns nothing to the node. *)
Theorem replaceInTextNode_untouched (valid : string → string → bool)
    (regex_replace : string → string → string → string → string)
    (text : string) (mappings : list Content.mapping) :
  (∀ m, m ∈ mappings →
     Content.isRegexString (Content.find m) = false
     ∧ (¬ Content.occurs (Content.find m) text
        ∨ Content.replace m = Content.find m)) →
  Content.replaceInText valid regex_replace text mappings = text
  ∧ Content.replaceInTextNode valid regex_replace text mappings = None.
Proof.
  intros Hall.
  assert (Hsame : Content.replaceInText valid regex_replace text mappings
                  = text).
  { unfold Content.replaceInText.
    induction mappings as [|m ms IH]; [done|]. cbn [foldl].
    assert (Content.apply_mapping valid regex_replace text m = text) as ->.
    { destruct (Hall m ltac:(apply elem_of_cons; by left)) as [Hre Hm].
      destruct (decide (Content.find m = "")) as [He|Hne].
      { unfold Content.apply_mapping. by rewrite He. }
      rewrite apply_mapping_literal by done. unfold Content.split.
      destruct Hm as [Hno| ->].
      - by rewrite split_from_absent.
      - by rewrite join_split_from. }
    apply IH. intros m' Hm'. apply Hall, elem_of_cons. by right. }
  split; [done|]. unfold Content.replaceInTextNode. rewrite Hsame.
  destruct (String.eqb text ""); [done|]. by rewrite String.eqb_refl.
Qed.

Lemma replaceInTextNode_untouched_witness :
  Content.replaceInText any_valid no_replace "hello"
    [Content.Mapping "lo" "lo"] = "hello"%string
  ∧ Content.replaceInTextNode any_valid no_replace "hello"
      [Content.Mapping "lo" "lo"] = None.
Proof.
  apply (replaceInTextNode_untouched any_valid no_replace "hello"
           [Content.Mapping "lo" "lo"]).
  intros m ->%list_elem_of_singleton. split; [reflexivity|by right].
Defined.

Lemma literal_pass_grows lit repl s :
  lit ≠ "" → Content.occurs lit s → Content.occurs lit repl →
  (String.length lit < String.length repl)%nat →
  let s' := Content.join repl (Content.split lit s) in
  (String.length s < String.length s')%nat ∧ Content.occurs lit s'.
Proof.
  intros Hlit (a & b & ->) Hrepl Hlen. cbn zeta.
  assert (Hn : (2 ≤ length (Content.split lit (a +:+ lit +:+ b)))%nat).
  { apply split_from_occurs; [done|lia]. }
  set (s := a +:+ lit +:+ b) in *.
  split; [|by apply join_occurs].
  assert (Hpieces : Content.split lit s ≠ []) by apply split_from_nonempty.
  pose proof (join_length repl _ Hpieces) as Hr.
  pose proof (join_length lit _ Hpieces) as Hl.
  unfold Content.split in Hl at 1. rewrite join_split_from in Hl.
  change ("" +:+ s) with s in Hl. fold (Content.split lit s) in Hl.
  rewrite Hr, Hl.
  assert (((length (Content.split lit s) - 1) * String.length lit
           < (length (Content.split lit s) - 1) * String.length repl)%nat);
    [|lia].
  apply Nat.mul_lt_mono_pos_l; lia.
Qed.

(** X21. A literal mapping whose replacement holds its own [find] and is
    longer than it, such as the default [Twitter] to [X (Twitter)], is
    not idempotent: on a text in which [find] occurs every pass makes the
    text longer, the result holds [find] again, and so every pass
    assigns a new text to the node. *)
Theorem self_feeding_mapping_grows (valid : string → string → bool)
    (regex_replace : string → string → string → string → string)
    (m : Content.mapping) (text : string) :
  Content.find m ≠ "" → Content.isRegexString (Content.find m) = false →
  Content.occurs (Content.find m) (Content.replace m) →
  (String.length (Content.find m) < String.length (Content.replace m))%nat →
  Content.occurs (Content.find m) text →
  let pass := λ s, Content.replaceInText valid regex_replace s [m] in
  (String.length text < String.length (pass text))%nat
  ∧ (String.length (pass text) < String.length (pass (pass text)))%nat
  ∧ Content.occurs (Content.find m) (pass (pass text))
  ∧ Content.replaceInTextNode valid regex_replace text [m]
    = Some (pass text)
  ∧ Content.replaceInTextNode valid regex_replace (pass text) [m]
    = Some (pass (pass text)).
Proof.
  intros Hf Hre Hself Hlen Hocc pass.
  assert (Hpass : ∀ s, pass s = Content.join (Content.replace m)
                                  (Content.split (Content.find m) s)).
  { intros s. subst pass. cbn. by apply apply_mapping_literal. }
  destruct (literal_pass_grows _ _ text Hf Hocc Hself Hlen) as [H1 Ho1].
  rewrite <- Hpass in H1, Ho1.
  destruct (literal_pass_grows _ _ (pass text) Hf Ho1 Hself Hlen) as [H2 Ho2].
  rewrite <- Hpass in H2, Ho2.
  assert (Hnode : ∀ s, (String.length s < String.length (pass s))%nat →
            Content.replaceInTextNode valid regex_replace s [m]
            = Some (pass s)).
  { intros s Hs. unfold Content.replaceInTextNode. fold (pass s).
    destruct (String.eqb s "") eqn:He.
    { apply String.eqb_eq in He as ->.
      rewrite Hpass in Hs. unfold Content.split in Hs.
      rewrite split_from_absent in Hs; [cbv in Hs; lia|].
      intros (a & b & Heq). apply (f_equal String.length) in Heq.
      rewrite !length_append in Heq. cbn in Heq.
      destruct (Content.find m); [done|cbn in Heq; lia]. }
    destruct (String.eqb (pass s) s) eqn:Hs'; [|done].
    apply String.eqb_eq in Hs'. rewrite Hs' in Hs. lia. }
  repeat split; [done..| |]; by apply Hnode.
Qed.

Lemma self_feeding_mapping_grows_witness :
  let pass := λ s, Content.replaceInText any_valid no_replace s
                     [twitter_mapping] in
  (String.length "on Twitter" < String.length (pass "on Twitter"))%nat
  ∧ (String.length (pass "on Twitter")
     < String.length (pass (pass "on Twitter")))%nat
  ∧ Content.occurs (Content.find twitter_mapping) (pass (pass "on Twitter"))
  ∧ Content.replaceInTextNode any_valid no_replace "on Twitter"
      [twitter_mapping] = Some (pass "on Twitter")
  ∧ Content.replaceInTextNode any_valid no_replace (pass "on Twitter")
      [twitter_mapping] = Some (pass (pass "on Twitter")).
Proof.
  apply (self_feeding_mapping_grows any_valid no_replace twitter_mapping
           "on Twitter").
  - discriminate.
  - reflexivity.
  - by exists "X ("%string, ")"%string.
  - cbn. lia.
  - by exists "on "%string, ""%string.
Defined.

Lemma split_from_fuel fuel fuel' sep acc s :
  sep ≠ "" →
  (String.length s < fuel)%nat → (String.length s < fuel')%nat →
  Content.split_from fuel sep acc s = Content.split_from fuel' sep acc s.
Proof.
  intros Hsep. revert fuel' acc s.
  induction fuel as [|fuel IH]; intros fuel' acc s Hf Hf'; [lia|].
  destruct fuel' as [|fuel']; [lia|]. cbn [Content.split_from].
  destruct (Content.strip_prefix sep s) as [rest|] eqn:Hp.
  - apply strip_prefix_Some in Hp as ->. f_equal.
    rewrite length_append in Hf, Hf'.
    destruct sep; [done|]. cbn in Hf, Hf'. apply IH; lia.
  - destruct s as [|c s]; [done|]. cbn in Hf, Hf'. apply IH; lia.
Qed.

Lemma substring_all s : String.substring 0 (String.length s) s = s.
Proof. induction s as [|c s IH]; [done|]. cbn. by rewrite IH. Qed.

Lemma lastIndexOf_None c s :
  Content.lastIndexOf c s = None → Content.includes c s = false.
Proof.
  induction s as [|a s IH]; [done|]. cbn.
  destruct (Content.lastIndexOf c s); [done|].
  destruct (Ascii.eqb a c); [done|]. intros _. by rewrite IH.
Qed.

Lemma lastIndexOf_Some c s i :
  Content.lastIndexOf c s = Some i →
  s = String.substring 0 i s
      +:+ String c (String.substring (S i) (String.length s - S i) s)
  ∧ Content.includes c
      (String.substring (S i) (String.length s - S i) s) = false.
Proof.
  revert i. induction s as [|a s IH]; intros i; [done|].
  cbn [Content.lastIndexOf].
  destruct (Content.lastIndexOf c s) as [j|] eqn:Hj.
  - intros [= <-]. destruct (IH j eq_refl) as [Hs Hinc].
    cbn [String.substring String.length Nat.sub].
    split; [|done]. rewrite append_cons. by rewrite <- Hs.
  - destruct (Ascii.eqb a c) eqn:Hac; [|done]. intros [= <-].
    apply Ascii.eqb_eq in Hac as ->.
    cbn [String.substring String.length Nat.sub]. rewrite Nat.sub_0_r.
    rewrite substring_all. split; [done|]. by apply lastIndexOf_None.
Qed.

Lemma includes_append_r c s : Content.includes c (s +:+ String c "") = true.
Proof.
  induction s as [|a s IH].
  - change ("" +:+ String c "") with (String c "").
    cbn [Content.includes]. by rewrite Ascii.eqb_refl.
  - rewrite append_cons. cbn [Content.includes]. rewrite IH.
    by destruct (Ascii.eqb a c).
Qed.

(** X22. How [makeMatcher] reads a [find] string. A regular expression
    comes only from a string of the form [/pattern/flags] in which
    [flags] holds no slash: the pattern is everything between the first
    and the last slash, the expression was accepted by the engine, and
    its flags always include [g], which is added when missing. A literal
    matcher is the [find] string itself, non-empty and not of that
    form. *)
Theorem makeMatcher_reads_find (valid : string → string → bool)
    (find : string) (mt : Content.matcher) :
  Content.makeMatcher valid find = Some mt →
  match mt with
  | Content.RegExp pattern flags =>
      ∃ flags0, find = "/" +:+ pattern +:+ "/" +:+ flags0
        ∧ Content.includes "/" flags0 = false
        ∧ (flags = flags0 ∨ flags = flags0 +:+ "g")
        ∧ Content.includes "g" flags = true
        ∧ valid pattern flags = true
  | Content.Literal literal =>
      literal = find ∧ find ≠ "" ∧ Content.isRegexString find = false
  end.
Proof.
  unfold Content.makeMatcher.
  destruct (String.eqb find "") eqn:He; [done|].
  apply String.eqb_neq in He.
  destruct (Content.isRegexString find) eqn:Hre; [|by intros [= <-]].
  unfold Content.isRegexString in Hre.
  apply andb_prop in Hre as [Hre Hlast]. apply andb_prop in Hre as [_ Hfirst].
  destruct find as [|a s]; [done|]. apply Ascii.eqb_eq in Hfirst as ->.
  destruct (Content.lastIndexOf "/" (String "/" s)) as [i|] eqn:Hi; [|done].
  apply Nat.ltb_lt in Hlast. destruct i as [|j]; [lia|]. clear Hlast.
  apply lastIndexOf_Some in Hi as [Hs Hinc].
  cbn [default id]. unfold Content.slice, Content.slice_from.
  rewrite Nat.add_1_r.
  set (flags0 := String.substring (S (S j))
                   (String.length (String "/" s) - S (S j)) (String "/" s))
    in *.
  replace (S j - 1)%nat with j by lia.
  change (String.substring 1 j (String "/" s))
    with (String.substring 0 j s).
  cbn [String.substring] in Hs. rewrite append_cons in Hs.
  set (pattern := String.substring 0 j s) in *.
  destruct (valid pattern _) eqn:Hvalid; [|done]. intros [= <-].
  exists flags0. split; [exact Hs|]. split; [done|].
  destruct (Content.includes "g" flags0) eqn:Hg.
  - by auto.
  - split; [by right|]. split; [apply includes_append_r|done].
Qed.

Lemma makeMatcher_reads_find_witness :
  ∃ flags0, "/a+/i"%string = "/" +:+ "a+" +:+ "/" +:+ flags0
    ∧ Content.includes "/" flags0 = false
    ∧ ("ig"%string = flags0 ∨ "ig"%string = flags0 +:+ "g")
    ∧ Content.includes "g" "ig" = true
    ∧ any_valid "a+" "ig" = true.
Proof.
  apply (makeMatcher_reads_find any_valid "/a+/i" (Content.RegExp "a+" "ig")).
  reflexivity.
Defined.

(** * The options page: the random key *)

Lemma sextet_char_alphabet n :
  (n < 64)%N →
  Content.includes (sextet_char n) base64_alphabet = true
  ∧ sextet_char n ≠ "="%char.
Proof.
  intros Hn.
  assert (Hall : Forall (λ k, Content.includes (sextet_char (N.of_nat k))
                                base64_alphabet = true
                              ∧ sextet_char (N.of_nat k) ≠ "="%char)
                   (seq 0 64)).
  { apply (bool_decide_unpack _). by vm_compute. }
  rewrite Forall_forall in Hall. rewrite <- (N2Nat.id n).
  apply Hall, elem_of_seq. lia.
Qed.

Lemma sextet_char_inj n m :
  (n < 64)%N → (m < 64)%N → sextet_char n = sextet_char m → n = m.
Proof.
  intros Hn Hm.
  assert (Hall : Forall (λ i, Forall (λ j,
                           sextet_char (N.of_nat i) = sextet_char (N.of_nat j)
                           → i = j) (seq 0 64)) (seq 0 64)).
  { apply (bool_decide_unpack _). by vm_compute. }
  rewrite Forall_forall in Hall.
  specialize (Hall (N.to_nat n) ltac:(apply elem_of_seq; lia)).
  rewrite Forall_forall in Hall.
  specialize (Hall (N.to_nat m) ltac:(apply elem_of_seq; lia)).
  rewrite !N2Nat.id in Hall. intros Heq. apply Hall in Heq. lia.
Qed.

Lemma strip_padding_id s :
  Content.includes "=" s = false → strip_padding s = s.
Proof.
  induction s as [|a s IH]; [done|]. cbn [Content.includes strip_padding].
  intros [Ha Hs]%orb_false_elim. rewrite (IH Hs), Ha. by destruct s.
Qed.

Lemma pack16 (x y x' y' : N) :
  (y < 16 → y' < 16 → x * 16 + y = x' * 16 + y' → x = x' ∧ y = y')%N.
Proof. lia. Qed.

Lemma pack4 (x y x' y' : N) :
  (y < 4 → y' < 4 → x * 4 + y = x' * 4 + y' → x = x' ∧ y = y')%N.
Proof. lia. Qed.

Lemma sextets_bounded (b0 b1 b2 : Byte.byte) :
  let n0 := Byte.to_N b0 in
  let n1 := Byte.to_N b1 in
  let n2 := Byte.to_N b2 in
  (n0 / 4 < 64 ∧ n0 mod 4 * 16 + n1 / 16 < 64
   ∧ n1 mod 16 * 4 + n2 / 64 < 64 ∧ n2 mod 64 < 64)%N.
Proof.
  intros n0 n1 n2.
  pose proof (Byte.to_N_bounded b0). pose proof (Byte.to_N_bounded b1).
  pose proof (Byte.to_N_bounded b2).
  assert (n0 / 4 < 64)%N by (apply N.Div0.div_lt_upper_bound; lia).
  assert (n1 / 16 < 16)%N by (apply N.Div0.div_lt_upper_bound; lia).
  assert (n2 / 64 < 4)%N by (apply N.Div0.div_lt_upper_bound; lia).
  assert (n0 mod 4 < 4)%N by (apply N.mod_lt; lia).
  assert (n1 mod 16 < 16)%N by (apply N.mod_lt; lia).
  assert (n2 mod 64 < 64)%N by (apply N.mod_lt; lia).
  generalize dependent (n0 mod 4)%N. generalize dependent (n1 mod 16)%N.
  generalize dependent (n2 mod 64)%N. generalize dependent (n0 / 4)%N.
  generalize dependent (n1 / 16)%N. generalize dependent (n2 / 64)%N.
  intros. lia.
Qed.

Lemma to_N_inj (b b' : Byte.byte) : Byte.to_N b = Byte.to_N b' → b = b'.
Proof.
  intros Heq. pose proof (Byte.of_to_N b) as Hb.
  rewrite Heq, Byte.of_to_N in Hb. by injection Hb.
Qed.

Lemma sextets_inj (b0 b1 b2 b0' b1' b2' : Byte.byte) :
  let n0 := Byte.to_N b0 in
  let n1 := Byte.to_N b1 in
  let n2 := Byte.to_N b2 in
  let n0' := Byte.to_N b0' in
  let n1' := Byte.to_N b1' in
  let n2' := Byte.to_N b2' in
  (n0 / 4 = n0' / 4 → n0 mod 4 * 16 + n1 / 16 = n0' mod 4 * 16 + n1' / 16 →
   n1 mod 16 * 4 + n2 / 64 = n1' mod 16 * 4 + n2' / 64 →
   n2 mod 64 = n2' mod 64 →
   b0 = b0' ∧ b1 = b1' ∧ b2 = b2')%N.
Proof.
  intros n0 n1 n2 n0' n1' n2' H1 H2 H3 H4.
  pose proof (Byte.to_N_bounded b1). pose proof (Byte.to_N_bounded b2).
  pose proof (Byte.to_N_bounded b1'). pose proof (Byte.to_N_bounded b2').
  apply pack16 in H2 as [H2a H2b];
    [|apply N.Div0.div_lt_upper_bound; lia..].
  apply pack4 in H3 as [H3a H3b];
    [|apply N.Div0.div_lt_upper_bound; lia..].
  assert (n0 = n0' ∧ n1 = n1' ∧ n2 = n2') as (? & ? & ?).
  { rewrite (N.div_mod n0 4), (N.div_mod n0' 4), (N.div_mod n1 16),
      (N.div_mod n1' 16), (N.div_mod n2 64), (N.div_mod n2' 64) by lia.
    by rewrite H1, H2a, H2b, H3a, H3b, H4. }
  repeat split; by apply to_N_inj.
Qed.

Lemma btoa_triples n arr :
  length arr = (3 * n)%nat →
  String.length (btoa arr) = (4 * n)%nat
  ∧ Content.includes "=" (btoa arr) = false
  ∧ ∀ c, Content.includes c (btoa arr) = true →
         Content.includes c base64_alphabet = true.
Proof.
  revert arr. induction n as [|n IH]; intros arr Hlen.
  { destruct arr; [|done]. split; [done|]. split; [done|]. by intros c. }
  destruct arr as [|b0 [|b1 [|b2 rest]]]; [cbn in Hlen; lia..|].
  destruct (IH rest ltac:(cbn in Hlen; lia)) as (Hl & Hpad & Halpha).
  destruct (sextets_bounded b0 b1 b2) as (B0 & B1 & B2 & B3).
  cbn zeta in B0, B1, B2, B3.
  destruct (sextet_char_alphabet _ B0) as [A0 P0].
  destruct (sextet_char_alphabet _ B1) as [A1 P1].
  destruct (sextet_char_alphabet _ B2) as [A2 P2].
  destruct (sextet_char_alphabet _ B3) as [A3 P3].
  cbn [btoa]. cbn zeta. cbn [String.length Content.includes].
  split; [rewrite Hl; lia|]. split.
  - apply Ascii.eqb_neq in P0, P1, P2, P3. by rewrite P0, P1, P2, P3, Hpad.
  - intros c Hc.
    repeat (apply orb_prop in Hc as [Hc|Hc];
            [apply Ascii.eqb_eq in Hc as <-; done|]).
    by apply Halpha.
Qed.

Lemma btoa_inj n arr arr' :
  length arr = (3 * n)%nat → length arr' = (3 * n)%nat →
  btoa arr = btoa arr' → arr = arr'.
Proof.
  revert arr arr'. induction n as [|n IH]; intros arr arr' Hlen Hlen' Heq.
  { by destruct arr, arr'. }
  destruct arr as [|b0 [|b1 [|b2 rest]]]; [cbn in Hlen; lia..|].
  destruct arr' as [|b0' [|b1' [|b2' rest']]]; [cbn in Hlen'; lia..|].
  cbn [btoa] in Heq. cbn zeta in Heq. injection Heq as H0 H1 H2 H3 Hrest.
  destruct (sextets_bounded b0 b1 b2) as (B0 & B1 & B2 & B3).
  destruct (sextets_bounded b0' b1' b2') as (B0' & B1' & B2' & B3').
  cbn zeta in *.
  apply sextet_char_inj in H0, H1, H2, H3; [|done..].
  destruct (sextets_inj b0 b1 b2 b0' b1' b2' H0 H1 H2 H3) as (-> & -> & ->).
  f_equal. f_equal. f_equal. apply (IH rest rest'); [cbn in *; lia..|done].
Qed.

(** X23. The key generator: for any twenty-four random bytes the key has
    exactly thirty-two characters, all of the base64 alphabet, with no
    [=] in it, so the removal of padding changes nothing; different
    bytes give different keys. *)
Theorem makeRandomKey_shape (arr arr' : list Byte.byte) :
  length arr = 24%nat → length arr' = 24%nat →
  String.length (makeRandomKey arr) = 32%nat
  ∧ makeRandomKey arr = btoa arr
  ∧ (∀ c, Content.includes c (makeRandomKey arr) = true →
          Content.includes c base64_alphabet = true)
  ∧ (makeRandomKey arr = makeRandomKey arr' → arr = arr').
Proof.
  intros Hlen Hlen'.
  destruct (btoa_triples 8 arr Hlen) as (Hl & Hpad & Halpha).
  destruct (btoa_triples 8 arr' Hlen') as (_ & Hpad' & _).
  unfold makeRandomKey. rewrite !strip_padding_id by done.
  split; [done|]. split; [done|]. split; [done|].
  by apply (btoa_inj 8).
Qed.

Lemma makeRandomKey_shape_witness :
  String.length (makeRandomKey zero_bytes) = 32%nat
  ∧ makeRandomKey zero_bytes = btoa zero_bytes
  ∧ (∀ c, Content.includes c (makeRandomKey zero_bytes) = true →
          Content.includes c base64_alphabet = true)
  ∧ (makeRandomKey zero_bytes = makeRandomKey ff_bytes →
     zero_bytes = ff_bytes).
Proof.
  apply (makeRandomKey_shape zero_bytes ff_bytes); reflexivity.
Defined.

(** * From a flush to the storage *)

(** X24. A translation reaches the storage: when a flush in a sound
    state calls a resolver with a non-empty value and the fast tier is
    within the cap afterwards, the persistence timer is armed and the
    blob its flush writes holds that value, stamped with the time of the
    write, under the key of the request; after a successful write the
    mirror holds it too. *)
Theorem answers_reach_storage (fetch : request → response) (now now' : Z)
    (st : state) (ev : event) :
  sound_tiers st →
  NoDup (pendingRequests st).*1 →
  ev ∈ (flushPendingRequests fetch now st).1.2 →
  truthy ev.2 = true →
  let st1 := (flushPendingRequests fetch now st).1.1 in
  Z.of_nat (length (_inMemoryCache st1)) ≤ MAX_PERSIST_ENTRIES st1 →
  _saveTimer st1 = true
  ∧ ∃ k e, (k, e) ∈ pendingRequests st ∧ ev.1 ∈ Pending.resolvers e
      ∧ (save_begin now' st1).2 !! k = Some (Entry.mk ev.2 now')
      ∧ _persistentCache (handle (SaveTimer now' true) st1) !! k
        = Some (Entry.mk ev.2 now').
Proof.
  intros Hs Hnd Hev Hx st1 Hcap.
  assert (Ht : _saveTimer st1 = true).
  { apply flush_saveTimer. intros Hp. unfold flushPendingRequests in Hev.
    rewrite Hp in Hev. by apply elem_of_nil in Hev. }
  split; [done|].
  destruct (flush_cached fetch now st ev Hnd Hev Hx) as (k & e & Hin & Hr & Hf & _).
  fold st1 in Hf. exists k, e. split; [done|]. split; [done|].
  destruct (sound_tiers_flush fetch now st Hs) as (Hnd1 & Hf1 & _).
  fold st1 in Hnd1, Hf1.
  assert (Hblob : (save_begin now' st1).2 !! k = Some (Entry.mk ev.2 now')).
  { rewrite save_begin_lookup by done.
    rewrite saved_entries_all; [by rewrite Hf| |done].
    intros k' x Hkx. apply (Hf1 k'). by apply elem_of_get. }
  split; [done|]. cbn [handle]. by rewrite Ht.
Qed.

Lemma answers_reach_storage_witness :
  let st1 := (flushPendingRequests echo_public 5 asked).1.1 in
  _saveTimer st1 = true
  ∧ ∃ k e, (k, e) ∈ pendingRequests asked
      ∧ (1%nat, JStr "<shalom").1 ∈ Pending.resolvers e
      ∧ (save_begin 9 st1).2 !! k
        = Some (Entry.mk (1%nat, JStr "<shalom").2 9)
      ∧ _persistentCache (handle (SaveTimer 9 true) st1) !! k
        = Some (Entry.mk (1%nat, JStr "<shalom").2 9).
Proof.
  apply (answers_reach_storage echo_public 5 9 asked (1%nat, JStr "<shalom")).
  - apply reachable_sound_tiers, reachable_handle, reachable_initial.
  - apply (bool_decide_unpack _). by vm_compute.
  - vm_compute. apply elem_of_cons. by left.
  - reflexivity.
  - by vm_compute.
Defined.

(** * The batch of a flush, exactly *)

Lemma indexOf_lookup l i k :
  NoDup l → l !! i = Some k → indexOf k l = Some i.
Proof.
  revert i. induction l as [|k0 l IH]; intros i Hnd Hi; [done|].
  apply NoDup_cons in Hnd as [Hk0 Hnd]. cbn [indexOf].
  destruct i as [|j]; cbn in Hi.
  - injection Hi as ->. by rewrite decide_True.
  - rewrite decide_False.
    + by rewrite (IH j Hnd Hi).
    + intros ->. apply Hk0. by eapply list_elem_of_lookup_2.
Qed.

Lemma from_results_index results ti key i :
  NoDup ti → ti !! i = Some key → from_results results ti key = answer results i.
Proof.
  intros Hnd Hi. unfold from_results, answer.
  by rewrite (indexOf_lookup _ _ _ Hnd Hi).
Qed.

Lemma recheck_all_uncached unique st :
  (∀ u, u ∈ unique → uncached (Item.key u) st) →
  recheck unique st = (st, Item.text <$> unique, Item.key <$> unique).
Proof.
  induction unique as [|u rest IH]; intros Hall; [done|].
  destruct (Hall u ltac:(apply elem_of_cons; by left)) as [Hhas Hm].
  cbn [recheck]. rewrite Hhas.
  rewrite IH by (intros u' Hu'; apply Hall, elem_of_cons; by right).
  destruct (_persistentCache st !! Item.key u) as [[v t]|] eqn:He; [|done].
  specialize (Hm _ eq_refl). cbn in Hm. by rewrite Hm.
Qed.

Lemma build_request_frame st st' target toTranslate :
  USE_CLOUD st' = USE_CLOUD st → GOOGLE_API_KEY st' = GOOGLE_API_KEY st →
  build_request st' target toTranslate = build_request st target toTranslate.
Proof. unfold build_request. by intros -> ->. Qed.

Lemma resolve_all_exact now results ti items rest st :
  NoDup (Item.key <$> rest) →
  (∀ u, u ∈ rest → JSMap.has (Item.key u) (_inMemoryCache st) = false) →
  ∀ u it r, u ∈ rest → it ∈ items → Item.key it = Item.key u →
    r ∈ Item.resolvers it →
    (r, from_results results ti (Item.key u))
    ∈ (resolve_all now results ti items rest st).2.
Proof.
  revert st. induction rest as [|u0 rest IH]; intros st Hnd Hhas u it r Hu.
  { by apply elem_of_nil in Hu. }
  rewrite fmap_cons in Hnd. apply NoDup_cons in Hnd as [Hu0 Hnd].
  intros Hit Hkey Hr. rewrite resolve_all_cons.
  pose proof (resolve_one_eq now results ti items u0 st) as Hone.
  pose proof (λ k, resolve_one_has now results ti items u0 st k) as Hkeep.
  destruct (resolve_one now results ti items u0 st) as [st1 evs1].
  specialize (IH st1 Hnd).
  destruct (resolve_all now results ti items rest st1) as [st2 evs2].
  cbn [fst snd] in *. apply elem_of_app.
  apply elem_of_cons in Hu as [->|Hu].
  - left. cbn zeta in Hone. injection Hone as _ ->.
    assert (translated_for results ti (Item.key u0) st
            = from_results results ti (Item.key u0)) as ->.
    { unfold translated_for.
      rewrite (Hhas u0 ltac:(apply elem_of_cons; by left)).
      by rewrite andb_false_r. }
    apply list_elem_of_bind. exists it. split; [|done].
    rewrite decide_True by done. apply list_elem_of_fmap. by exists r.
  - right. apply (λ H, IH H u it r); [|done..].
    intros u' Hu'. rewrite Hkeep.
    + apply Hhas, elem_of_cons. by right.
    + intros Heq. apply Hu0. rewrite <- Heq. by apply list_elem_of_fmap_2.
Qed.

Lemma flush_group_exact fetch now target items st :
  NoDup (Item.key <$> items) →
  (∀ it, it ∈ items → uncached (Item.key it) st) →
  let texts := Item.text <$> items in
  (flush_group fetch now (target, items) st).2 = group_calls st target texts
  ∧ ∀ i it r, items !! i = Some it → r ∈ Item.resolvers it →
      (r, answer (group_results fetch st target texts) i)
      ∈ (flush_group fetch now (target, items) st).1.2.
Proof.
  intros Hnd Hun texts. rewrite flush_group_eq. cbn zeta.
  rewrite dedupe_id by (done || set_solver).
  rewrite recheck_all_uncached by done. fold texts.
  pose proof (resolve_all_exact now (group_results fetch st target texts)
                (Item.key <$> items) items items st Hnd
                ltac:(intros u Hu; by apply Hun)) as Hex.
  destruct (resolve_all now _ _ items items st) as [st2 evs].
  cbn [fst snd] in *. split; [done|]. intros i it r Hi Hr.
  rewrite <- (from_results_index _ (Item.key <$> items) (Item.key it) i Hnd)
    by by rewrite list_lookup_fmap, Hi.
  apply (Hex it it r); [by eapply list_elem_of_lookup_2|
                        by eapply list_elem_of_lookup_2|done..].
Qed.

Lemma flush_groups_exact fetch now groups st :
  NoDup (Item.key <$> (groups ≫= snd)) →
  (∀ it, it ∈ groups ≫= snd → uncached (Item.key it) st) →
  (flush_groups fetch now groups st).2
  = groups ≫= (λ g, group_calls st g.1 (Item.text <$> g.2))
  ∧ ∀ target items i it r, (target, items) ∈ groups →
      items !! i = Some it → r ∈ Item.resolvers it →
      (r, answer (group_results fetch st target (Item.text <$> items)) i)
      ∈ (flush_groups fetch now groups st).1.2.
Proof.
  revert st. induction groups as [|[t its] rest IH]; intros st Hnd Hun.
  { split; [done|]. by intros ? ? ? ? ? ?%elem_of_nil. }
  rewrite bind_cons in Hnd, Hun. cbn [snd] in Hnd, Hun.
  rewrite fmap_app in Hnd. apply NoDup_app in Hnd as (Hnd1 & Hdisj & Hnd2).
  rewrite flush_groups_cons.
  destruct (flush_group_exact fetch now t its st Hnd1) as [Hcalls Hevs].
  { intros it Hit. apply Hun, elem_of_app. by left. }
  pose proof (flush_group_writes (λ _, True)
                (λ k, k ∈ Item.key <$> its) fetch now t its st
                ltac:(intros it Hit; by apply list_elem_of_fmap_2)
                ltac:(done)) as Hw.
  destruct (flush_group fetch now (t, its) st) as [[st1 evs1] calls1].
  cbn [fst snd] in *.
  destruct (IH st1 Hnd2) as [Hcalls' Hevs'].
  { intros it Hit. apply (uncached_writes _ _ _ _ _ _ Hw).
    - intros Hin. by apply (Hdisj _ Hin), list_elem_of_fmap_2.
    - apply Hun, elem_of_app. by right. }
  apply writes_frame in Hw as (_ & _ & Hc & Hk & _).
  assert (Hsame : ∀ target texts,
            group_calls st1 target texts = group_calls st target texts
            ∧ group_results fetch st1 target texts
              = group_results fetch st target texts).
  { intros target texts. unfold group_calls, group_results.
    by rewrite (build_request_frame st st1 target texts Hc Hk). }
  destruct (flush_groups fetch now rest st1) as [[st2 evs2] calls2].
  cbn [fst snd] in *. split.
  - rewrite bind_cons, Hcalls, Hcalls'. f_equal.
    apply list_bind_ext; [|done]. intros g. apply Hsame.
  - intros target items i it r [[= -> ->]|Hin]%elem_of_cons Hi Hr;
      apply elem_of_app.
    + left. by apply (Hevs i it r).
    + right. rewrite <- (proj2 (Hsame _ _)). by apply (Hevs' target items i it r).
Qed.

(** X25. The batch of a flush, exactly. When the keys of the pending map
    are distinct and none of them can be served by a tier, the flush
    sends to each target one call that carries the texts of the requests
    pending for that target, each once and in the order in which they
    were first requested, and no other call to that target; and the
    resolvers of the request at position [i] of that batch are called
    with the result at position [i] of the adapter's results for that
    call, or with the empty string when there is none. *)
Theorem flush_batch_exact (fetch : request → response) (now : Z) (st : state)
    (t : string) :
  NoDup (pendingRequests st).*1 →
  (∀ kv, kv ∈ pendingRequests st → uncached kv.1 st) →
  let texts := (λ kv, Pending.text kv.2) <$> pending_for t st in
  let req := build_request st t texts in
  let results := parse_response (req_cloud req) (length texts) (fetch req) in
  (pending_for t st ≠ [] → req ∈ (flushPendingRequests fetch now st).2)
  ∧ (∀ c, c ∈ (flushPendingRequests fetch now st).2 → req_target c = t →
       c = req)
  ∧ ∀ i k e r, pending_for t st !! i = Some (k, e) →
      r ∈ Pending.resolvers e →
      (r, answer results i) ∈ (flushPendingRequests fetch now st).1.2.
Proof.
  intros Hnd Hun texts req results.
  assert (Hperm : group_by_target (pendingRequests st) ≫= snd
                  ≡ₚ to_item <$> pendingRequests st)
    by apply group_by_target_perm.
  assert (Htexts : Item.text <$> (to_item <$> pending_for t st) = texts).
  { subst texts. by rewrite <- list_fmap_compose. }
  assert (Hgroup : pending_for t st ≠ [] →
            (t, to_item <$> pending_for t st)
            ∈ group_by_target (pendingRequests st)).
  { intros Hne. destruct (pending_for t st) as [|kv g] eqn:Hg; [done|].
    assert (Hkv : kv ∈ pending_for t st)
      by (rewrite Hg; apply elem_of_cons; by left).
    apply list_elem_of_filter in Hkv as [Ht Hkv].
    destruct (group_by_target_covers _ _ Hkv) as (its & Hin & _).
    rewrite Ht in Hin. rewrite <- Hg. unfold pending_for.
    by rewrite <- (group_by_target_items _ _ _ Hin). }
  unfold flushPendingRequests.
  destruct (pendingRequests st) as [|kv0 p] eqn:Hp.
  { split; [by unfold pending_for; rewrite Hp|].
    split; [by intros c ?%elem_of_nil|].
    intros i k e r Hi. unfold pending_for in Hi. by rewrite Hp in Hi. }
  rewrite <- Hp in *.
  destruct (flush_groups_exact fetch now (group_by_target (pendingRequests st))
              (with_pendingRequests [] st)) as [Hcalls Hevs].
  { rewrite Hperm, <- list_fmap_compose. exact Hnd. }
  { intros it Hit. rewrite Hperm in Hit.
    apply list_elem_of_fmap in Hit as (kv & -> & Hkv). by apply Hun. }
  assert (Hreq : ∀ target its,
            (target, its) ∈ group_by_target (pendingRequests st) →
            its = to_item <$> pending_for target st).
  { intros target its Hin. by apply group_by_target_items. }
  assert (Hres : group_results fetch (with_pendingRequests [] st) t texts
                 = match texts with [] => [] | _ => results end).
  { unfold group_results. by destruct texts. }
  split; [|split].
  - intros Hne. rewrite Hcalls. apply list_elem_of_bind.
    exists (t, to_item <$> pending_for t st). split; [|by apply Hgroup].
    cbn [fst snd]. rewrite Htexts. unfold group_calls.
    destruct texts as [|q texts'] eqn:Hq.
    + subst texts. apply fmap_nil_inv in Hq. done.
    + apply list_elem_of_singleton. done.
  - intros c Hc Ht. rewrite Hcalls in Hc.
    apply list_elem_of_bind in Hc as ([target its] & Hc & Hin).
    cbn [fst snd] in Hc. unfold group_calls in Hc.
    destruct (Item.text <$> its) as [|q qs] eqn:Hq;
      [by apply elem_of_nil in Hc|].
    apply list_elem_of_singleton in Hc as ->.
    destruct (build_request_q (with_pendingRequests [] st) target (q :: qs))
      as [_ Htarget].
    rewrite Htarget in Ht. subst target.
    rewrite (Hreq _ _ Hin), Htexts in Hq. by rewrite <- Hq.
  - intros i k e r Hi Hr.
    assert (Hne : pending_for t st ≠ []) by by destruct (pending_for t st).
    specialize (Hevs t (to_item <$> pending_for t st) i (to_item (k, e)) r
                  (Hgroup Hne)).
    rewrite Htexts, Hres in Hevs.
    assert (texts ≠ []) as Htne.
    { subst texts. intros Hnil. apply fmap_nil_inv in Hnil. done. }
    destruct texts as [|q qs]; [done|]. apply Hevs; [|done].
    by rewrite list_lookup_fmap, Hi.
Qed.

Lemma flush_batch_exact_witness :
  let st := burst two_texts initial in
  let texts := (λ kv, Pending.text kv.2) <$> pending_for "en" st in
  let req := build_request st "en" texts in
  let results :=
    parse_response (req_cloud req) (length texts) (echo_public req) in
  (pending_for "en" st ≠ [] → req ∈ (flushPendingRequests echo_public 5 st).2)
  ∧ (∀ c, c ∈ (flushPendingRequests echo_public 5 st).2 →
       req_target c = "en"%string → c = req)
  ∧ ∀ i k e r, pending_for "en" st !! i = Some (k, e) →
      r ∈ Pending.resolvers e →
      (r, answer results i) ∈ (flushPendingRequests echo_public 5 st).1.2.
Proof.
  apply (flush_batch_exact echo_public 5 (burst two_texts initial) "en").
  - apply (bool_decide_unpack _). by vm_compute.
  - intros kv _. split; [reflexivity|]. intros e He.
    assert (Hpc : _persistentCache (burst two_texts initial) = ∅)
      by reflexivity.
    by rewrite Hpc, lookup_empty in He.
Defined.

(** ** C6: only non-empty values reach the caches *)

Lemma uncached_same k st st' :
  JSMap.get k (_inMemoryCache st') = None →
  _persistentCache st' !! k = _persistentCache st !! k →
  uncached k st → uncached k st'.
Proof.
  intros Hf Hp [_ Hu]. split; [by apply has_false|]. by rewrite Hp.
Qed.

(** A group whose call gave only blanks leaves an uncached key alone, and
    so does a group that does not hold the key. *)
Lemma flush_groups_blank_target fetch now groups st k t :
  (∀ t' its, (t', its) ∈ groups → t' ≠ t → k ∉ Item.key <$> its) →
  (∀ c, c ∈ (flush_groups fetch now groups st).2 → req_target c = t →
     ∀ x, x ∈ parse_response (req_cloud c) (length (req_q c)) (fetch c) →
          truthy x = false) →
  uncached k st →
  JSMap.get k (_inMemoryCache (flush_groups fetch now groups st).1.1) = None
  ∧ _persistentCache (flush_groups fetch now groups st).1.1 !! k
    = _persistentCache st !! k.
Proof.
  revert st. induction groups as [|[t' its] rest IH]; intros st Hkeys Hblank Hun.
  { simpl. split; [|done]. apply has_false, Hun. }
  rewrite flush_groups_cons in Hblank |- *.
  destruct (flush_group fetch now (t', its) st) as [[st1 evs1] calls1] eqn:Hg.
  destruct (flush_groups fetch now rest st1) as [[st2 evs2] calls2] eqn:Hr.
  cbn [fst snd] in Hblank |- *.
  assert (H1 : JSMap.get k (_inMemoryCache st1) = None
               ∧ _persistentCache st1 !! k = _persistentCache st !! k).
  { destruct (decide (t' = t)) as [->|Hne].
    - pose proof (flush_group_writes (provided fetch calls1) (λ _, True)
        fetch now t its st) as Hw.
      rewrite Hg in Hw. cbn [fst snd] in Hw.
      eapply writes_uncached; [apply Hw; done| |done].
      intros x (c & Hc & Hx).
      pose proof (flush_group_calls fetch now t its st c) as Hcalls.
      rewrite Hg in Hcalls. cbn [snd] in Hcalls.
      destruct (Hcalls Hc) as (_ & Ht & _).
      apply (Hblank c); [|done|done]. apply elem_of_app. by left.
    - pose proof (flush_group_writes (λ _, True)
        (λ k', k' ∈ Item.key <$> its) fetch now t' its st) as Hw.
      rewrite Hg in Hw. cbn [fst snd] in Hw.
      assert (Hw' : writes (λ _, True) (λ k', k' ∈ Item.key <$> its) now st st1).
      { apply Hw; [|done]. intros it Hit. by apply list_elem_of_fmap_2. }
      assert (Hnot : k ∉ Item.key <$> its).
      { apply (Hkeys t'); [|done]. apply elem_of_cons. by left. }
      pose proof (uncached_writes _ _ _ _ _ _ Hw' Hnot Hun) as [Hu1 _].
      pose proof (writes_other_key _ _ _ _ _ _ Hw' Hnot) as [_ Hp].
      split; [by apply has_false|done]. }
  destruct H1 as [Hf1 Hp1].
  specialize (IH st1). rewrite Hr in IH. cbn [fst snd] in IH.
  rewrite <- Hp1. apply IH.
  - intros t'' its' Hin. apply Hkeys, elem_of_cons. by right.
  - intros c Hc. apply Hblank, elem_of_app. by right.
  - by apply (uncached_same k st).
Qed.

Lemma flush_blank_target fetch now st k e :
  NoDup (pendingRequests st).*1 →
  (k, e) ∈ pendingRequests st →
  (∀ c, c ∈ (flushPendingRequests fetch now st).2 →
     req_target c = group_key e →
     ∀ x, x ∈ parse_response (req_cloud c) (length (req_q c)) (fetch c) →
          truthy x = false) →
  uncached k st →
  JSMap.get k (_inMemoryCache (flushPendingRequests fetch now st).1.1) = None
  ∧ _persistentCache (flushPendingRequests fetch now st).1.1 !! k
    = _persistentCache st !! k.
Proof.
  unfold flushPendingRequests. intros Hnd Hin.
  destruct (pendingRequests st) as [|kv p] eqn:Hp;
    [by apply elem_of_nil in Hin|].
  intros Hblank Hun.
  apply (flush_groups_blank_target fetch now _ (with_pendingRequests [] st)
           k (group_key e)); [|done|done].
  intros t' its Hg Hne Hk.
  apply group_by_target_items in Hg. subst its.
  apply list_elem_of_fmap in Hk as (it & Hkey & Hit).
  apply list_elem_of_fmap in Hit as ([k' e'] & -> & Hkv).
  apply list_elem_of_filter in Hkv as [Ht Hkv]. cbn in Hkey, Ht. subst k'.
  assert (e' = e) as -> by (by eapply NoDup_fst_unique).
  done.
Qed.

(** The resolution loop leaves an uncached key alone when a caller that
    waits for it is answered with blanks only. *)
Lemma resolve_all_blank now results translateIndex items unique st k :
  uncached k st →
  (∀ u, u ∈ unique → Item.key u = k →
     ∃ r, r ∈ Item.resolvers u
          ∧ ∀ y, (r, y) ∈ (resolve_all now results translateIndex items
                             unique st).2 → truthy y = false) →
  (∀ u, u ∈ unique → u ∈ items) →
  JSMap.get k
    (_inMemoryCache (resolve_all now results translateIndex items unique st).1)
  = None
  ∧ _persistentCache
      (resolve_all now results translateIndex items unique st).1 !! k
    = _persistentCache st !! k.
Proof.
  revert st. induction unique as [|u rest IH]; intros st Hun Hblank Hsub.
  { simpl. split; [|done]. apply has_false, Hun. }
  rewrite resolve_all_cons in Hblank |- *.
  destruct (resolve_one now results translateIndex items u st)
    as [st1 evs1] eqn:H1.
  destruct (resolve_all now results translateIndex items rest st1)
    as [st2 evs2] eqn:H2.
  cbn [fst snd] in Hblank |- *.
  rewrite resolve_one_eq in H1. cbn zeta in H1.
  injection H1 as Hst1 Hevs1.
  assert (Hsame : JSMap.get k (_inMemoryCache st1) = None
                  ∧ _persistentCache st1 !! k = _persistentCache st !! k).
  { destruct (decide (Item.key u = k)) as [Hk|Hk].
    - destruct (Hblank u) as (r & Hr & Hy); [apply elem_of_cons; by left|done|].
      assert (Hx : truthy (translated_for results translateIndex
                             (Item.key u) st) = false).
      { apply (Hy _). apply elem_of_app. left. subst evs1.
        apply list_elem_of_bind. exists u. split.
        - rewrite decide_True by done.
          apply list_elem_of_fmap. by exists r.
        - apply Hsub, elem_of_cons. by left. }
      rewrite Hx in Hst1. subst st1. split; [|done]. apply has_false, Hun.
    - subst st1. destruct (truthy _); [|split; [apply has_false, Hun|done]].
      unfold store. cbn. rewrite get_set_ne, lookup_insert_ne by done.
      split; [apply has_false, Hun|done]. }
  destruct Hsame as [Hf1 Hp1].
  specialize (IH st1). rewrite H2 in IH. cbn [fst snd] in IH.
  rewrite <- Hp1. apply IH.
  - by apply (uncached_same k st).
  - intros u' Hu' Hk. destruct (Hblank u') as (r & Hr & Hy);
      [apply elem_of_cons; by right|done|].
    exists r. split; [done|]. intros y Hin. apply Hy, elem_of_app. by right.
  - intros u' Hu'. apply Hsub, elem_of_cons. by right.
Qed.

Lemma flush_group_blank fetch now target items st k :
  uncached k st →
  (∀ it, it ∈ items → Item.key it = k →
     ∃ r, r ∈ Item.resolvers it
          ∧ ∀ y, (r, y) ∈ (flush_group fetch now (target, items) st).1.2 →
                 truthy y = false) →
  JSMap.get k (_inMemoryCache (flush_group fetch now (target, items) st).1.1)
  = None
  ∧ _persistentCache (flush_group fetch now (target, items) st).1.1 !! k
    = _persistentCache st !! k.
Proof.
  intros Hun. rewrite flush_group_eq. cbn zeta.
  destruct (recheck (dedupe ∅ items) st) as [[st1 tt] ti] eqn:Hrc.
  pose proof (recheck_writes (λ _, False) (λ _, True) now _ _ _ _ _ Hrc
                ltac:(done)) as Hw.
  destruct (writes_uncached _ _ _ _ _ _ Hw ltac:(done) Hun) as [Hf1 Hp1].
  pose proof (resolve_all_blank now (group_results fetch st1 target tt) ti
                items (dedupe ∅ items) st1 k) as Hra.
  destruct (resolve_all now (group_results fetch st1 target tt) ti items
              (dedupe ∅ items) st1) as [st2 evs] eqn:H2.
  cbn [fst snd] in Hra |- *. intros Hblank.
  destruct (arm_caches st2) as (-> & -> & _).
  rewrite <- Hp1. apply Hra.
  - by apply (uncached_same k st).
  - intros u Hu Hk. apply Hblank; [|done]. by eapply dedupe_subseteq.
  - intros u Hu. by eapply dedupe_subseteq.
Qed.

Lemma flush_groups_blank fetch now groups st k :
  uncached k st →
  (∀ g it, g ∈ groups → it ∈ g.2 → Item.key it = k →
     ∃ r, r ∈ Item.resolvers it
          ∧ ∀ y, (r, y) ∈ (flush_groups fetch now groups st).1.2 →
                 truthy y = false) →
  JSMap.get k (_inMemoryCache (flush_groups fetch now groups st).1.1) = None
  ∧ _persistentCache (flush_groups fetch now groups st).1.1 !! k
    = _persistentCache st !! k.
Proof.
  revert st. induction groups as [|[t its] rest IH]; intros st Hun Hblank.
  { simpl. split; [|done]. apply has_false, Hun. }
  rewrite flush_groups_cons in Hblank |- *.
  pose proof (flush_group_blank fetch now t its st k Hun) as Hg1.
  destruct (flush_group fetch now (t, its) st) as [[st1 evs1] calls1] eqn:Hg.
  specialize (IH st1).
  destruct (flush_groups fetch now rest st1) as [[st2 evs2] calls2] eqn:Hr.
  cbn [fst snd] in Hblank, Hg1, IH |- *.
  destruct Hg1 as [Hf1 Hp1].
  { intros it Hit Hk.
    destruct (Hblank (t, its) it) as (r & Hr' & Hy);
      [apply elem_of_cons; by left|done|done|].
    exists r. split; [done|]. intros y Hin. apply Hy, elem_of_app. by left. }
  rewrite <- Hp1. apply IH.
  - by apply (uncached_same k st).
  - intros g it Hgin Hit Hk.
    destruct (Hblank g it) as (r & Hr' & Hy);
      [apply elem_of_cons; by right|done|done|].
    exists r. split; [done|]. intros y Hin. apply Hy, elem_of_app. by right.
Qed.

Lemma flush_blank fetch now st k :
  uncached k st →
  (∀ e, (k, e) ∈ pendingRequests st →
     ∃ r, r ∈ Pending.resolvers e
          ∧ ∀ y, (r, y) ∈ (flushPendingRequests fetch now st).1.2 →
                 truthy y = false) →
  JSMap.get k (_inMemoryCache (flushPendingRequests fetch now st).1.1) = None
  ∧ _persistentCache (flushPendingRequests fetch now st).1.1 !! k
    = _persistentCache st !! k.
Proof.
  unfold flushPendingRequests. intros Hun.
  destruct (pendingRequests st) as [|kv p] eqn:Hp.
  { intros _. split; [|done]. apply has_false, Hun. }
  intros Hblank.
  apply (flush_groups_blank fetch now _ (with_pendingRequests [] st) k);
    [done|].
  intros [t its] it Hg Hit Hk. cbn in Hit.
  apply group_by_target_items in Hg. subst its.
  apply list_elem_of_fmap in Hit as ([k' e'] & -> & Hkv).
  apply list_elem_of_filter in Hkv as [_ Hkv]. cbn in Hk. subst k'.
  by apply Hblank.
Qed.

(** A request for a key the flush left uncached is queued again, and its
    flush sends the text. *)
Lemma request_after_flush fetch now st r text target fetch' now' :
  let st' := (flushPendingRequests fetch now st).1.1 in
  let k := cache_key (USE_CLOUD st) text target in
  text ≠ "" → target ≠ "" → uncached k st →
  JSMap.get k (_inMemoryCache st') = None →
  _persistentCache st' !! k = _persistentCache st !! k →
  (doTranslate r text target st').2 = Queued
  ∧ ∃ req,
      req ∈ (pendingFlushTimerFired fetch' now'
               (burst [(r, text, target)] st')).2
      ∧ req_target req = target ∧ text ∈ req_q req.
Proof.
  intros st' k Htext Htarget Hun Hfast Hpc.
  destruct (flush_writes (λ _, True) fetch now st ltac:(done))
    as (st0 & Hw & Hf0 & Hp0 & Hm0). fold st' in Hw.
  assert (Hmode : USE_CLOUD st' = USE_CLOUD st).
  { apply writes_frame in Hw as (_ & _ & Hm & _). by rewrite Hm. }
  assert (Hun1 : uncached (cache_key (USE_CLOUD st') text target) st').
  { rewrite Hmode. by apply (uncached_same k st). }
  split.
  - unfold doTranslate.
    rewrite (eqb_empty_false _ Htext), (eqb_empty_false _ Htarget). simpl.
    destruct Hun1 as [Hu1 Hu2]. rewrite Hu1.
    destruct (_persistentCache st' !! cache_key (USE_CLOUD st') text target)
      as [e|] eqn:He; [|reflexivity].
    by rewrite (Hu2 e eq_refl).
  - destruct (burst_flush fetch' now' st' [(r, text, target)] text target)
      as ((req & Hreq & Hcount) & _); try done.
    + apply flush_pending.
    + by intros r' tx tg [= -> -> ->]%list_elem_of_singleton.
    + exists r. by apply list_elem_of_singleton.
    + apply filter_singleton_elem in Hreq as [Hin Ht].
      exists req. split; [done|]. split; [done|].
      by apply filter_length_one_elem.
Qed.

(** C6. A flush changes a binding of the fast tier or of the mirror only
    to a non-empty value, and the blob of a persistence write holds only
    non-empty values. A failed call or a blank response writes nothing for
    the keys it was made for, whatever the calls for other targets return:
    when every value read from the responses to the calls for the target of
    a pending uncached key is empty, and also when one of the callers that
    wait for an uncached key is answered with empty values only, the flush
    leaves the key out of the fast tier and its mirror entry as it was; a
    later request for the key is then queued again, and its flush sends the
    text to the provider. The same holds of every uncached key when every
    value read from the provider's responses is empty. *)
Theorem only_nonempty_values_cached (fetch : request → response) (now : Z)
    (st : state) :
  let st' := (flushPendingRequests fetch now st).1.1 in
  (∀ k x, JSMap.get k (_inMemoryCache st') = Some x →
     JSMap.get k (_inMemoryCache st) = Some x ∨ truthy x = true)
  ∧ (∀ k e, _persistentCache st' !! k = Some e →
       _persistentCache st !! k = Some e ∨ truthy (Entry.v e) = true)
  ∧ map_Forall (λ _ e, truthy (Entry.v e) = true) (save_begin now st).2
  ∧ ((∀ c x, x ∈ parse_response (req_cloud c) (length (req_q c)) (fetch c) →
             truthy x = false) →
     (∀ k, uncached k st →
        JSMap.get k (_inMemoryCache st') = None
        ∧ _persistentCache st' !! k = _persistentCache st !! k)
     ∧ ∀ r text target fetch' now',
         text ≠ "" → target ≠ "" →
         uncached (cache_key (USE_CLOUD st) text target) st →
         (doTranslate r text target st').2 = Queued
         ∧ ∃ req,
             req ∈ (pendingFlushTimerFired fetch' now'
                      (burst [(r, text, target)] st')).2
             ∧ req_target req = target ∧ text ∈ req_q req)
  ∧ (NoDup (pendingRequests st).*1 →
     ∀ k e, (k, e) ∈ pendingRequests st → uncached k st →
       (∀ c, c ∈ (flushPendingRequests fetch now st).2 →
          req_target c = group_key e →
          ∀ x, x ∈ parse_response (req_cloud c) (length (req_q c)) (fetch c) →
               truthy x = false) →
       (JSMap.get k (_inMemoryCache st') = None
        ∧ _persistentCache st' !! k = _persistentCache st !! k)
       ∧ ∀ r text target fetch' now',
           text ≠ "" → target ≠ "" →
           k = cache_key (USE_CLOUD st) text target →
           (doTranslate r text target st').2 = Queued
           ∧ ∃ req,
               req ∈ (pendingFlushTimerFired fetch' now'
                        (burst [(r, text, target)] st')).2
               ∧ req_target req = target ∧ text ∈ req_q req)
  ∧ (∀ k, uncached k st →
       (∀ e, (k, e) ∈ pendingRequests st →
          ∃ r, r ∈ Pending.resolvers e
               ∧ ∀ y, (r, y) ∈ (flushPendingRequests fetch now st).1.2 →
                      truthy y = false) →
       (JSMap.get k (_inMemoryCache st') = None
        ∧ _persistentCache st' !! k = _persistentCache st !! k)
       ∧ ∀ r text target fetch' now',
           text ≠ "" → target ≠ "" →
           k = cache_key (USE_CLOUD st) text target →
           (doTranslate r text target st').2 = Queued
           ∧ ∃ req,
               req ∈ (pendingFlushTimerFired fetch' now'
                        (burst [(r, text, target)] st')).2
               ∧ req_target req = target ∧ text ∈ req_q req).
Proof.
  intros st'.
  destruct (flush_writes (λ _, True) fetch now st ltac:(done))
    as (st0 & Hw & Hf0 & Hp0 & Hm0). fold st' in Hw.
  destruct (writes_truthy _ _ _ _ _ Hw) as [Htf Htp].
  rewrite Hf0 in Htf. rewrite Hp0 in Htp.
  split; [done|]. split; [done|]. split.
  { apply save_loop_truthy, map_Forall_empty. }
  split; [|split].
  - intros Hblank.
    assert (Hun' : ∀ k, uncached k st →
              JSMap.get k (_inMemoryCache st') = None
              ∧ _persistentCache st' !! k = _persistentCache st !! k).
    { intros k [Hk1 Hk2].
      destruct (flush_writes
        (provided fetch (flushPendingRequests fetch now st).2) fetch now st
        ltac:(done)) as (st1 & Hw1 & Hf1 & Hp1 & _). fold st' in Hw1.
      rewrite <- Hp1. eapply writes_uncached; [exact Hw1| |].
      - intros x (c & _ & Hx). by eapply Hblank.
      - split; [by rewrite Hf1|by rewrite Hp1]. }
    split; [done|].
    intros r text target fetch' now' Htext Htarget Hun.
    destruct (Hun' _ Hun) as [Hfast Hpc].
    by apply request_after_flush.
  - intros Hnd k e Hin Hun Hblank.
    pose proof (flush_blank_target fetch now st k e Hnd Hin Hblank Hun)
      as [Hfast Hpc].
    split; [done|].
    intros r text target fetch' now' Htext Htarget ->.
    by apply request_after_flush.
  - intros k Hun Hblank.
    pose proof (flush_blank fetch now st k Hun Hblank) as [Hfast Hpc].
    split; [done|].
    intros r text target fetch' now' Htext Htarget ->.
    by apply request_after_flush.
Qed.

Lemma only_nonempty_values_cached_witness :
  let st := burst two_targets initial in
  let st' := (flushPendingRequests en_offline 0 st).1.1 in
  JSMap.get "public|B||fr" (_inMemoryCache st') = Some (JStr "<B")
  ∧ (JSMap.get "public|A||en" (_inMemoryCache st') = None
     ∧ _persistentCache st' !! "public|A||en"%string
       = _persistentCache st !! "public|A||en"%string)
  ∧ (doTranslate 3 "A" "en" st').2 = Queued
  ∧ ∃ req,
      req ∈ (pendingFlushTimerFired en_offline 1
               (burst [(3%nat, "A"%string, "en"%string)] st')).2
      ∧ req_target req = "en"%string ∧ "A"%string ∈ req_q req.
Proof.
  intros st st'. split; [by vm_compute|].
  destruct (only_nonempty_values_cached en_offline 0 st)
    as (_ & _ & _ & _ & H & _).
  destruct (H ltac:(apply (bool_decide_unpack _); by vm_compute)
              "public|A||en"%string
              (Pending.mk "A" "en" [1%nat])) as [Hsame Hretry].
  - apply list_elem_of_In. vm_compute. by left.
  - split; [reflexivity|]. intros e He. cbn in He.
    by rewrite lookup_empty in He.
  - intros c Hc Ht x Hx.
    apply list_elem_of_In in Hc. vm_compute in Hc.
    destruct Hc as [<-|[<-|[]]].
    + by apply elem_of_nil in Hx.
    + discriminate Ht.
  - split; [exact Hsame|].
    apply (Hretry 3%nat "A"%string "en"%string en_offline 1).
    + discriminate.
    + discriminate.
    + reflexivity.
Defined.
